(** * wl: the wire codec of package [wl] (src/wire.go)

    A shallow embedding of the message framer [ReadMessage], the typed
    argument decoder [Decode] and the 24.8 fixed-point type [Fixed],
    followed by the properties of the specification that concern them.

    Conventions.
    - Go's fixed-width integers are [Z] with the wrap-around written out
      ([GoInt.uint32], [GoInt.int32], ...); [int] is 64 bits wide.
    - Bytes are [Byte.byte]; a Go [string] is the list of its bytes.
    - A call that mutates its receiver returns the new receiver.
    - A Go function that may panic returns an [outcome]: either it returned
      (with an optional [error]) or it panicked. *)

From Stdlib Require Import ZArith List Bool Lia.
From Stdlib Require Import Strings.Byte.
From Stdlib Require Strings.String.
Import String.StringSyntax.
Delimit Scope string_scope with string.
From Stdlib Require Import QArith Qround Qabs.
From Stdlib Require Import SpecFloat.
Import ListNotations.
Local Open Scope Z_scope.
Set Warnings "-register-all".

(** ** Machine integers *)

Module GoInt.

Definition wrap_unsigned (w z : Z) : Z := z mod 2 ^ w.

Definition wrap_signed (w z : Z) : Z :=
  (z + 2 ^ (w - 1)) mod 2 ^ w - 2 ^ (w - 1).

Definition uint16 : Z -> Z := wrap_unsigned 16.
Definition uint32 : Z -> Z := wrap_unsigned 32.
Definition int32 : Z -> Z := wrap_signed 32.
(** [int] and [int64] on the 64-bit targets of the package. *)
Definition int : Z -> Z := wrap_signed 64.

Definition MaxInt : Z := 2 ^ 63 - 1.
Definition MinInt : Z := - 2 ^ 63.

End GoInt.

Definition byte_to_Z (b : byte) : Z := Z.of_N (Byte.to_N b).

Definition len {A : Type} (l : list A) : Z := Z.of_nat (length l).

(** ** Errors and panics *)

(** Error values the codec can return.  [Joined] is the result of
    [errors.Join], [Wrapped] of [fmt.Errorf] with a [%w] verb, [Errno] a
    [syscall.Errno], [OpError] the wrapper package net puts around the
    errors of a connection. *)
Inductive error : Type :=
| EOF
| ErrUnexpectedEOF
| ErrNotNullTerminated        (* errors.New: string is not null-terminated *)
| ErrNoMoreFds                (* errors.New: no more file descriptors *)
| Errno (code : Z)
| OpError (err : error)       (* *net.OpError, which unwraps to [err] *)
| Joined (errs : list error)
| Wrapped (context : String.string) (err : error).

Definition EINVAL : Z := 22.

(** [errors.Is err unix.EINVAL]: walks the [Unwrap] chain, and every
    branch of a joined error. *)
Fixpoint is_EINVAL (e : error) : bool :=
  match e with
  | Errno c => c =? EINVAL
  | OpError e' => is_EINVAL e'
  | Joined es => existsb is_EINVAL es
  | Wrapped _ e' => is_EINVAL e'
  | _ => false
  end.

(** [errors.Join]: nil arguments are dropped, and the result is nil when
    nothing is left. *)
Definition errors_Join (a b : option error) : option error :=
  match a, b with
  | None, None => None
  | Some x, None => Some (Joined [x])
  | None, Some y => Some (Joined [y])
  | Some x, Some y => Some (Joined [x; y])
  end.

Inductive panic : Type :=
| IndexOutOfRange (index length : Z)
| SliceBoundsOutOfRange (high capacity : Z)
| GrowNegative                  (* slices.Grow called with n < 0 *)
| UnexpectedType.               (* the default branch of Decode *)

Inductive outcome : Type :=
| Returned (err : option error)
| Panicked (p : panic).

Abbreviation Nil := (Returned None).
Abbreviation Failed e := (Returned (Some e)).

(** ** encoding/binary *)

Inductive ByteOrder := LittleEndian | BigEndian.

Fixpoint le_combine (bs : list byte) : Z :=
  match bs with
  | [] => 0
  | b :: bs' => Z.lor (byte_to_Z b) (Z.shiftl (le_combine bs') 8)
  end.

(** [order.Uint32(bs)] on the four bytes read. *)
Definition Uint32 (order : ByteOrder) (bs : list byte) : Z :=
  match order with
  | LittleEndian => le_combine bs
  | BigEndian => le_combine (rev bs)
  end.

(** ** bytes.Reader

    The payload cursor: the bytes [s] and the read index [i] (Go keeps an
    [int64] that starts at 0 and only grows; it is a [nat] here). *)
Module bytes.

Record Reader : Type := mkReader { s : list byte; i : nat }.

Definition Reset (b : list byte) : Reader := mkReader b 0.

(** The unread portion. *)
Definition rest (r : Reader) : list byte := skipn (i r) (s r).

Definition Len (r : Reader) : nat := length (rest r).

(** The reader after [k] more bytes were read. *)
Definition advance (r : Reader) (k : nat) : Reader := mkReader (s r) (i r + k).

(** [r.Read(b)] with [length b = n]: EOF when nothing is left, otherwise
    copies what fits and advances. *)
Definition Read (r : Reader) (n : nat) : list byte * option error * Reader :=
  if (length (s r) <=? i r)%nat then ([], Some EOF, r)
  else
    let got := firstn n (rest r) in
    (got, None, advance r (length got)).

End bytes.

(** ** io, over a [bytes.Reader] *)
Module io.

(** The tail of [io.ReadAtLeast]: the error is dropped once [min] bytes
    are in, and an EOF after some bytes becomes ErrUnexpectedEOF. *)
Definition ReadAtLeast_err (min : nat) (got : list byte) (err : option error)
  : option error :=
  if (min <=? length got)%nat then None
  else
    match got, err with
    | _ :: _, Some EOF => Some ErrUnexpectedEOF
    | _, _ => err
    end.

(** [io.ReadFull(r, buf)] with [length buf = n]: no read at all for an
    empty buffer.  [bytes.Reader.Read] hands over everything that fits, so
    the loop of [io.ReadAtLeast] takes at most two turns: the second one
    finds the reader exhausted. *)
Definition ReadFull (r : bytes.Reader) (n : nat)
  : list byte * option error * bytes.Reader :=
  match n with
  | O => ([], None, r)
  | _ =>
      let '(got, err, r1) := bytes.Read r n in
      match err with
      | Some _ => (got, ReadAtLeast_err n got err, r1)
      | None =>
          if (n <=? length got)%nat then (got, None, r1)
          else
            let '(got2, err2, r2) := bytes.Read r1 (n - length got) in
            (got ++ got2, ReadAtLeast_err n (got ++ got2) err2, r2)
      end
  end.

(** [io.CopyN(dst, r, n)] into a fresh [strings.Builder]: the bytes
    written, the error and the reader.  [io.Copy] reads through a
    [LimitedReader] until [n] bytes are in or the source is dry, and
    swallows the reader's EOF; [CopyN] reports EOF when fewer than [n]
    bytes were written, and nothing at all when [n] is negative. *)
Definition CopyN (r : bytes.Reader) (n : Z)
  : list byte * option error * bytes.Reader :=
  let avail := bytes.rest r in
  let got := if len avail <=? n then avail else firstn (Z.to_nat n) avail in
  let r' := bytes.advance r (length got) in
  if len got =? n then (got, None, r')
  else if len got <? n then (got, Some EOF, r')
  else (got, None, r').

End io.

(** ** Values a caller can hand to [Decode] *)

(** [type Fixed int32]. *)
Definition Fixed : Type := Z.

Record NewID : Type := mkNewID { Interface : list byte; Version : Z }.

(** [*os.File], as far as the codec sees it: the descriptor it wraps. *)
Record File : Type := mkFile { Fd : Z }.

(** [os.NewFile(uintptr(fd), name)]: nil when [fd], read back as an [int],
    is negative. *)
Definition os_NewFile (fd : Z) : option File :=
  if fd <? 0 then None else Some (mkFile fd).

(** A [[]byte]: the [elems] up to its length, and the [spare] part of the
    backing array between length and capacity. *)
Record ByteSlice : Type := mkSlice { elems : list byte; spare : list byte }.

Definition cap (b : ByteSlice) : Z := len (elems b) + len (spare b).

(** [b[:n]], which may reach into the spare capacity; [None] is the
    slice-bounds panic. *)
Definition reslice (b : ByteSlice) (n : Z) : option ByteSlice :=
  if (0 <=? n) && (n <=? cap b) then
    let whole := elems b ++ spare b in
    Some (mkSlice (firstn (Z.to_nat n) whole) (skipn (Z.to_nat n) whole))
  else None.

(** The slice after a read stored [got] at its front. *)
Definition fill (b : ByteSlice) (got : list byte) : ByteSlice :=
  mkSlice (got ++ skipn (length got) (elems b)) (spare b).

Inductive GoType : Type :=
| TInt32 | TUint32 | TFixed | TString | TByte | TNewID | TFile
| TSlice (elem : GoType).

(** The pointee of the [val] argument of [Decode]; its constructor is the
    dynamic type the type switch inspects.  [VBytes] is [*[]byte], [VSlice]
    a pointer to a slice of any other element type. *)
Inductive value : Type :=
| VInt32 (v : Z)
| VUint32 (v : Z)
| VFixed (v : Fixed)
| VString (v : list byte)
| VBytes (v : ByteSlice)
| VFile (v : option File)
| VNewID (v : NewID)
| VSlice (elem : GoType) (v : list value).

(** ** The message buffer *)

Record MessageBuffer : Type := mkMessageBuffer {
  sender : Z;               (* uint32 *)
  op : Z;                   (* uint16 *)
  size : Z;                 (* uint16 *)
  data : bytes.Reader;
  fds : list Z;             (* []int *)
  fdindex : Z               (* int *)
}.

Definition set_data (buf : MessageBuffer) (d : bytes.Reader) : MessageBuffer :=
  mkMessageBuffer (sender buf) (op buf) (size buf) d (fds buf) (fdindex buf).

Definition set_fdindex (buf : MessageBuffer) (k : Z) : MessageBuffer :=
  mkMessageBuffer (sender buf) (op buf) (size buf) (data buf) (fds buf) k.

Definition Sender (r : MessageBuffer) : Z := sender r.
Definition Op (r : MessageBuffer) : Z := op r.
Definition Size (r : MessageBuffer) : Z := size r.

(** Payload bytes a call consumed: how far the cursor moved. *)
Definition consumed (before after : MessageBuffer) : Z :=
  Z.of_nat (bytes.i (data after)) - Z.of_nat (bytes.i (data before)).

(** ** Decode *)

Section Codec.

(** [byteOrder], the host byte order found by [init]. *)
Variable byteOrder : ByteOrder.

(** [read(&buf.data, v)] for [v : *uint32]: [binary.Read] fills four
    bytes with [io.ReadFull] and decodes them in host order. *)
Definition read_uint32 (r : bytes.Reader) : (Z + error) * bytes.Reader :=
  let '(bs, err, r') := io.ReadFull r 4 in
  match err with
  | Some e => (inr e, r')
  | None => (inl (Uint32 byteOrder bs), r')
  end.

(** The same for [v : *int32] and [v : *Fixed]. *)
Definition read_int32 (r : bytes.Reader) : (Z + error) * bytes.Reader :=
  let '(x, r') := read_uint32 r in
  match x with
  | inl u => (inl (GoInt.int32 u), r')
  | inr e => (inr e, r')
  end.

Definition Decode (buf : MessageBuffer) (val : value)
  : outcome * MessageBuffer * value :=
  match val with
  | VInt32 _ =>
      let '(x, d) := read_int32 (data buf) in
      match x with
      | inl v => (Nil, set_data buf d, VInt32 v)
      | inr e => (Failed e, set_data buf d, val)
      end
  | VUint32 _ =>
      let '(x, d) := read_uint32 (data buf) in
      match x with
      | inl v => (Nil, set_data buf d, VUint32 v)
      | inr e => (Failed e, set_data buf d, val)
      end
  | VFixed _ =>
      let '(x, d) := read_int32 (data buf) in
      match x with
      | inl v => (Nil, set_data buf d, VFixed v)
      | inr e => (Failed e, set_data buf d, val)
      end

  | VString _ =>
      let '(x, d) := read_uint32 (data buf) in
      match x with
      | inr e => (Failed e, set_data buf d, val)
      | inl length =>
          let pad := length mod (32 / 8) in
          let '(str, err, d') := io.CopyN d (GoInt.uint32 (length + pad)) in
          let buf' := set_data buf d' in
          match err with
          | Some e => (Failed e, buf', val)
          | None =>
              let last := GoInt.uint32 (length - 1) in
              if len str <=? last
              then (Panicked (IndexOutOfRange last (len str)), buf', val)
              else if Byte.eqb (nth (Z.to_nat last) str x00) x00
              then (Nil, buf', VString (firstn (Z.to_nat last) str))
              else (Failed ErrNotNullTerminated, buf', val)
          end
      end

  | VBytes b =>
      let '(x, d) := read_uint32 (data buf) in
      match x with
      | inr e => (Failed e, set_data buf d, val)
      | inl length =>
          let pad := length mod (32 / 8) in
          let want := GoInt.uint32 (length + pad) in
          if len (elems b) <? want then
            (* slices.Grow is called with len - int(length+pad), which
               is negative on this branch: Grow panics *)
            (Panicked GrowNegative, set_data buf d, val)
          else
            let '(got, err, d') := io.ReadFull d (List.length (elems b)) in
            let buf' := set_data buf d' in
            let b' := fill b got in
            match err with
            | Some e => (Failed e, buf', VBytes b')
            | None =>
                match reslice b' length with
                | None => (Panicked (SliceBoundsOutOfRange length (cap b')), buf', VBytes b')
                | Some b'' => (Nil, buf', VBytes b'')
                end
            end
      end

  | VFile _ =>
      if fdindex buf >=? len (fds buf) then (Failed ErrNoMoreFds, buf, val)
      else
        match (if fdindex buf <? 0 then None
               else nth_error (fds buf) (Z.to_nat (fdindex buf))) with
        | None => (Panicked (IndexOutOfRange (fdindex buf) (len (fds buf))), buf, val)
        | Some fd =>
            (Nil, set_fdindex buf (GoInt.int (fdindex buf + 1)), VFile (os_NewFile fd))
        end

  | VNewID _ | VSlice _ _ => (Panicked UnexpectedType, buf, val)
  end.

End Codec.

(** ** float64

    Go's [float64] is IEEE 754 binary64: [spec_float] at precision 53 and
    maximal exponent 1024, with the operations of [SpecFloat] (rounding to
    nearest, ties to even). *)
Module float64.

Definition prec : Z := 53.
Definition emax : Z := 1024.

Definition t : Type := spec_float.

Definition add : t -> t -> t := SFadd prec emax.
Definition mul : t -> t -> t := SFmul prec emax.
Definition valid : t -> bool := valid_binary prec emax.

Definition is_finite (x : t) : bool :=
  match x with
  | S754_zero _ | S754_finite _ _ _ => true
  | _ => false
  end.

(** The float of value [(-1)^s * m * 2^e] for [0 <= m]; a zero takes the
    sign [s]. *)
Definition normalize (s : bool) (m : Z) (e : Z) : t :=
  binary_normalize prec emax (cond_Zopp s m) e s.

(** The conversion [float64(i)] of an integer. *)
Definition of_int (i : Z) : t := binary_normalize prec emax i 0 false.

(** [floor (m * 2^e)] for [0 <= m]. *)
Definition dyadic_floor (m e : Z) : Z :=
  if 0 <=? e then m * 2 ^ e else m / 2 ^ (- e).

(** The conversion [int(x)]: the fraction is discarded (truncation toward
    zero).  Go leaves the result open when the value does not fit (or is
    not a number); amd64 yields the smallest [int], as here. *)
Definition to_int (x : t) : Z :=
  match x with
  | S754_zero _ => 0
  | S754_finite s m e =>
      let v := cond_Zopp s (dyadic_floor (Zpos m) e) in
      if (GoInt.MinInt <=? v) && (v <=? GoInt.MaxInt) then v else GoInt.MinInt
  | _ => GoInt.MinInt
  end.

(** [math.Abs]. *)
Definition Abs : t -> t := SFabs.

(** [math.Exp2(8)] and [math.Exp2(-8)]: exact powers of two. *)
Definition Exp2_8 : t := S754_finite false 4503599627370496 (-44).
Definition Exp2_minus8 : t := S754_finite false 4503599627370496 (-60).

(** [math.Modf]: the integer and the fractional part of [f], which sum to
    [f] and both carry its sign; [Modf(±Inf) = ±Inf, NaN].  The integer part
    keeps the bits of the mantissa above the binary point, the fraction is
    [f] minus the integer part, which is exact. *)
Definition Modf (f : t) : t * t :=
  match f with
  | S754_nan => (S754_nan, S754_nan)
  | S754_infinity s => (S754_infinity s, S754_nan)
  | S754_zero _ => (f, f)
  | S754_finite s m e =>
      if 0 <=? e then (f, S754_zero s)
      else
        (normalize s (Zpos m / 2 ^ (- e)) 0,
         normalize s (Zpos m mod 2 ^ (- e)) e)
  end.

(** The rational a float stands for (0 for infinities and NaN). *)
Definition value (x : t) : Q :=
  match x with
  | S754_finite s m e =>
      if 0 <=? e then inject_Z (cond_Zopp s (Zpos m * 2 ^ e))
      else Qmake (cond_Zopp s (Zpos m)) (Z.to_pos (2 ^ (- e)))
  | _ => 0%Q
  end.

End float64.

(** The number of bits of a mantissa, the exponent binary64 gives a number
    of that many bits ([fexp] at precision 53), and a rounding record with
    nothing shifted out yet. *)
Definition digits (m : positive) : Z := Zpos (digits2_pos m).

Definition fexp64 (d : Z) : Z := fexp float64.prec float64.emax d.

Definition exact (m : Z) : shr_record := Build_shr_record m false false.

(** Truncation toward zero of a rational, and rounding to the nearest
    integer (halves upwards). *)
Definition Qtrunc (q : Q) : Z := Z.quot (Qnum q) (Zpos (Qden q)).

Definition Qround (q : Q) : Z := Qfloor (q + (1 # 2)).

(** ** Fixed *)

Definition FixedInt (v : Z) : Fixed :=
  GoInt.int32 (GoInt.int (Z.shiftl v 8)).

Definition FixedFloat (v : float64.t) : Fixed :=
  let '(i, frac) := float64.Modf v in
  GoInt.int32
    (Z.lor (GoInt.int (Z.shiftl (float64.to_int i) 8))
           (float64.to_int (float64.mul (float64.Abs frac) float64.Exp2_8))).

Definition Int (f : Fixed) : Z := Z.shiftr f 8.

Definition Frac (f : Fixed) : Z := Z.land (GoInt.uint32 f) 255.

Definition Float (f : Fixed) : float64.t :=
  let i := Int f in
  let frac := Frac f in
  float64.add (float64.of_int i)
    (float64.Abs (float64.mul (float64.of_int frac) float64.Exp2_minus8)).

(** ** The socket and [unixTee]

    What [net.UnixConn] delivers: a queue of packets, each with ordinary
    bytes and the control (out-of-band) bytes attached to them.  One receive
    takes from the packet at the head and hands its control bytes over with
    the first part read of it (truncated control data is not modelled).  An
    empty queue is a closed connection. *)
Record packet : Type := mkPacket { pk_data : list byte; pk_oob : list byte }.

Definition UnixConn : Type := list packet.

(** [c.ReadMsgUnix(buf, oob)] with [length buf = n]: the bytes stored in
    [buf], those stored in [oob], the error, and the connection afterwards.
    A closed connection reports EOF, wrapped by package net. *)
Definition ReadMsgUnix (c : UnixConn) (n : nat)
  : list byte * list byte * option error * UnixConn :=
  match c with
  | [] => ([], [], Some (OpError EOF), [])
  | p :: c' =>
      let rest :=
        match skipn n (pk_data p) with
        | [] => c'
        | more => mkPacket more [] :: c'
        end in
      (firstn n (pk_data p), pk_oob p, None, rest)
  end.

(** [unixTee]: the connection, and what has been written to [oob]. *)
Record unixTee : Type := mkTee { c : UnixConn; oob : list byte }.

(** [t.Read(buf)].  Writing to a [bytes.Buffer] cannot fail, so the second
    argument of [errors.Join] is nil. *)
Definition unixTee_Read (t : unixTee) (n : nat)
  : list byte * option error * unixTee :=
  let '(got, o, err, c') := ReadMsgUnix (c t) n in
  (got, errors_Join err None, mkTee c' (oob t ++ o)).

(** The loop that [io.ReadAtLeast] and [bytes.Buffer.ReadFrom] (under an
    [io.LimitedReader]) share: call [t.Read] for what is still missing until
    [n] bytes are in or [Read] fails.  A receive that comes short has taken
    its whole packet, which makes the recursion structural;
    [read_loop_unfold] below states it as the loop over [unixTee_Read]. *)
Fixpoint read_loop (conn : UnixConn) (o : list byte) (n : nat)
  : list byte * option error * unixTee :=
  match n with
  | O => ([], None, mkTee conn o)
  | S _ =>
      match conn with
      | [] => unixTee_Read (mkTee [] o) n
      | p :: conn' =>
          if (n <=? length (pk_data p))%nat
          then unixTee_Read (mkTee conn o) n
          else
            let '(got2, err2, t2) :=
              read_loop conn' (o ++ pk_oob p) (n - length (pk_data p)) in
            (pk_data p ++ got2, err2, t2)
      end
  end.

(** [io.ReadFull(t, buf)] with [length buf = n]. *)
Definition tee_ReadFull (t : unixTee) (n : nat)
  : list byte * option error * unixTee :=
  let '(got, err, t') := read_loop (c t) (oob t) n in
  (got, io.ReadAtLeast_err n got err, t').

(** [io.CopyN(data, t, n)] into a fresh [bytes.Buffer].  For [n <= 0] the
    [LimitedReader] reports EOF at once and nothing is read; [CopyN] then
    returns no error, also for a negative [n] (where [written = 0] is
    neither [n] nor below it). *)
Definition tee_CopyN (t : unixTee) (n : Z)
  : list byte * option error * unixTee :=
  if n <=? 0 then ([], None, t)
  else
    let '(got, err, t') := read_loop (c t) (oob t) (Z.to_nat n) in
    if len got =? n then (got, None, t')
    else
      match err with
      | None => (got, Some EOF, t')
      | Some e => (got, Some e, t')
      end.

(** ** ReadMessage *)

Section Framer.

Variable byteOrder : ByteOrder.

(** [unix.SocketControlMessage], [unix.ParseSocketControlMessage] and
    [unix.ParseUnixRights] of golang.org/x/sys/unix. *)
Variable SocketControlMessage : Type.
Variable ParseSocketControlMessage :
  list byte -> list SocketControlMessage + error.
Variable ParseUnixRights : SocketControlMessage -> list Z + error.

(** The loop over [cmsgs]: a record that is not a rights record (EINVAL)
    is skipped, any other failure ends the read. *)
Fixpoint collect_fds (cmsgs : list SocketControlMessage) (acc : list Z)
  : list Z + error :=
  match cmsgs with
  | [] => inl acc
  | cmsg :: cmsgs' =>
      match ParseUnixRights cmsg with
      | inr err =>
          if is_EINVAL err then collect_fds cmsgs' acc
          else inr (Wrapped "parse unix control message"%string err)
      | inl found => collect_fds cmsgs' (acc ++ found)
      end
  end.

Definition ReadMessage (conn : UnixConn) : (MessageBuffer + error) * UnixConn :=
  let r := mkTee conn [] in
  let '(b1, err1, r1) := tee_ReadFull r 4 in
  match err1 with
  | Some err => (inr (Wrapped "read message sender"%string err), c r1)
  | None =>
      let mr_sender := Uint32 byteOrder b1 in
      let '(b2, err2, r2) := tee_ReadFull r1 4 in
      match err2 with
      | Some err => (inr (Wrapped "read message size and opcode"%string err), c r2)
      | None =>
          let so := Uint32 byteOrder b2 in
          let mr_size := GoInt.uint16 (Z.shiftr so 16) in
          let mr_op := GoInt.uint16 (Z.land so 65535) in
          let '(payload, err3, r3) := tee_CopyN r2 (mr_size - 8) in
          match err3 with
          | Some err => (inr (Wrapped "copy data to buffer"%string err), c r3)
          | None =>
              match ParseSocketControlMessage (oob r3) with
              | inr err =>
                  (inr (Wrapped "parse socket control messages"%string err), c r3)
              | inl cmsgs =>
                  match collect_fds cmsgs [] with
                  | inr err => (inr err, c r3)
                  | inl mr_fds =>
                      (inl (mkMessageBuffer mr_sender mr_op mr_size
                              (bytes.Reset payload) mr_fds 0), c r3)
                  end
              end
          end
      end
  end.

End Framer.

(** * Statements and sample inputs *)

(** The string rule as the specification words it: with four bytes left to
    read the length [L] from, the decode consumes [L + pad] further bytes,
    fails as malformed when the byte at offset [L - 1] of the field is not
    null, and a success returns the first [L - 1] bytes. *)
Definition string_rule_as_stated
  (byteOrder : ByteOrder) (buf : MessageBuffer) (old : list byte) : Prop :=
  (4 <= bytes.Len (data buf))%nat ->
  let L := Uint32 byteOrder (firstn 4 (bytes.rest (data buf))) in
  let pad := L mod 4 in
  let field := firstn (Z.to_nat (L + pad)) (skipn 4 (bytes.rest (data buf))) in
  let '(out, buf', v) := Decode byteOrder buf (VString old) in
  consumed buf buf' = 4 + (L + pad)
  /\ (nth (Z.to_nat (L - 1)) field x00 <> x00 -> out = Failed ErrNotNullTerminated)
  /\ (out = Nil -> v = VString (firstn (Z.to_nat (L - 1)) field)).

(** A payload that ends two bytes after a length prefix of 5. *)
Definition short_string_message : MessageBuffer :=
  mkMessageBuffer 1 0 14
    (bytes.Reset [x05; x00; x00; x00; x68; x69]) [] 0.

(** A string of length prefix 5 ("hell" and its terminator), written the way
    the padding law asks for (three bytes of padding, up to the 4-byte
    boundary), and a 32-bit argument 42 behind it. *)
Definition hello_message : MessageBuffer :=
  mkMessageBuffer 1 0 24
    (bytes.Reset [x05; x00; x00; x00; x68; x65; x6c; x6c; x00; x00; x00; x00;
                  x2a; x00; x00; x00]) [] 0.

(** The same field as an opaque array of 5 bytes. *)
Definition array_message : MessageBuffer :=
  mkMessageBuffer 1 0 24
    (bytes.Reset [x05; x00; x00; x00; x01; x02; x03; x04; x05; x00; x00; x00;
                  x2a; x00; x00; x00]) [] 0.

(** [L] rounded up to the next multiple of 4. *)
Definition round_up4 (L : Z) : Z := (L + 3) / 4 * 4.

(** A payload holding a sequence count of 0. *)
Definition empty_sequence_message : MessageBuffer :=
  mkMessageBuffer 1 0 12 (bytes.Reset [x00; x00; x00; x00]) [] 0.

(** A one-byte array (0x41) with its one byte of padding, and six more
    payload bytes behind it. *)
Definition one_byte_array_message : MessageBuffer :=
  mkMessageBuffer 1 0 20
    (bytes.Reset [x01; x00; x00; x00; x41; x00;
                  x0a; x0b; x0c; x0d; x0e; x0f]) [] 0.

(** What Go guarantees of the descriptor fields: the index is not negative,
    and a slice is no longer than the largest [int]. *)
Definition fds_wf (buf : MessageBuffer) : Prop :=
  0 <= fdindex buf /\ len (fds buf) <= GoInt.MaxInt.

(** A buffer with descriptors 7 and 9, the first of which is consumed. *)
Definition two_fd_message : MessageBuffer :=
  mkMessageBuffer 1 0 8 (bytes.Reset []) [7; 9] 1.

(** A stream whose first header declares a size of 4 (sender 1, opcode 3),
    with another eight bytes behind it. *)
Definition undersized_stream : UnixConn :=
  [ mkPacket [x01; x00; x00; x00; x03; x00; x04; x00;
              x02; x00; x00; x00; x00; x00; x08; x00] [] ].

(** [from_float] as the specification words it: the low 8 bits are the
    rounded value of [|f| * 256]. *)
Definition from_float_as_stated (x : float64.t) : Fixed :=
  let v := float64.value x in
  let i := Qtrunc v in
  let f := (v - inject_Z i)%Q in
  GoInt.int32 (Z.lor (GoInt.int (Z.shiftl i 8)) (Qround (Qabs f * 256))).

(** The binary64 number nearest to 0.3, and 3.75. *)
Definition three_tenths : float64.t := S754_finite false 5404319552844595 (-54).
Definition three_and_three_quarters : float64.t :=
  S754_finite false 8444249301319680 (-51).

(** * Writing, and calls in a row *)

(** [byte(z)]: the low eight bits. *)
Definition byte_of_Z (z : Z) : byte :=
  match Byte.of_N (Z.to_N (z mod 256)) with
  | Some b => b
  | None => x00
  end.

Fixpoint le_split (n : nat) (z : Z) : list byte :=
  match n with
  | O => []
  | S n' => byte_of_Z z :: le_split n' (Z.shiftr z 8)
  end.

(** [order.PutUint32(bs, v)]: the four bytes stored. *)
Definition PutUint32 (order : ByteOrder) (v : Z) : list byte :=
  match order with
  | LittleEndian => le_split 4 v
  | BigEndian => rev (le_split 4 v)
  end.

Section Writer.

(** [byteOrder], the host byte order found by [init]. *)
Variable byteOrder : ByteOrder.

(** [write(w, v)] for [v : uint32] and a [bytes.Buffer] [w], given by its
    contents: [binary.Write] stores the value with [PutUint32] and appends
    the four bytes; writing to a [bytes.Buffer] does not fail. *)
Definition write_uint32 (w : list byte) (v : Z) : list byte * option error :=
  (w ++ PutUint32 byteOrder v, None).

(** The same for [v : int32] and [v : Fixed], stored as [uint32(v)]. *)
Definition write_int32 (w : list byte) (v : Z) : list byte * option error :=
  (w ++ PutUint32 byteOrder (GoInt.uint32 v), None).

End Writer.

(** [r'] is [r] after some of the unread bytes were read. *)
Definition moved (r r' : bytes.Reader) : Prop :=
  exists k : nat, r' = bytes.advance r k /\ (k <= bytes.Len r)%nat.

(** The ordinary bytes a connection still holds, in order. *)
Definition stream (conn : UnixConn) : list byte := flat_map pk_data conn.

(** No packet of the connection carries control bytes. *)
Definition no_control (conn : UnixConn) : Prop :=
  Forall (fun p => pk_oob p = []) conn.

Section Callers.

Variable byteOrder : ByteOrder.

(** [Decode] called [n] times in a row on a [**os.File] target, as for
    [n] descriptor arguments, stopping at the first call that does not
    succeed. *)
Fixpoint decode_files (buf : MessageBuffer) (n : nat)
  : outcome * MessageBuffer * list (option File) :=
  match n with
  | O => (Nil, buf, [])
  | S n' =>
      match Decode byteOrder buf (VFile None) with
      | (Nil, buf', VFile f) =>
          let '(out, buf'', fs) := decode_files buf' n' in (out, buf'', f :: fs)
      | (out, buf', _) => (out, buf', [])
      end
  end.

(** [Decode] called [n] times in a row on a [*uint32] target, likewise. *)
Fixpoint decode_uint32s (buf : MessageBuffer) (n : nat)
  : outcome * MessageBuffer * list Z :=
  match n with
  | O => (Nil, buf, [])
  | S n' =>
      match Decode byteOrder buf (VUint32 0) with
      | (Nil, buf', VUint32 v) =>
          let '(out, buf'', vs) := decode_uint32s buf' n' in (out, buf'', v :: vs)
      | (out, buf', _) => (out, buf', [])
      end
  end.

(** [write] called on the words [vs], one after the other, on an empty
    [bytes.Buffer]. *)
Definition write_all (vs : list Z) : list byte :=
  fold_left (fun w v => fst (write_uint32 byteOrder w v)) vs [].

End Callers.

(** The bytes [ReadMessage] expects, produced with [write]: the sender id,
    the word packing the total size and the opcode, then the payload. *)
Definition wire_message (byteOrder : ByteOrder) (from opcode : Z)
  (payload : list byte) : list byte :=
  let total := 8 + len payload in
  let w := fst (write_uint32 byteOrder [] from) in
  let w := fst (write_uint32 byteOrder w (Z.lor (Z.shiftl total 16) opcode)) in
  w ++ payload.

(** A payload holding the single word 42, and one cut off after two bytes. *)
Definition answer_message : MessageBuffer :=
  mkMessageBuffer 1 0 12 (bytes.Reset [x2a; x00; x00; x00]) [] 0.

Definition two_byte_message : MessageBuffer :=
  mkMessageBuffer 1 0 10 (bytes.Reset [x01; x02]) [] 0.

(** A payload holding the words 1 and 42. *)
Definition two_word_message : MessageBuffer :=
  mkMessageBuffer 1 0 16
    (bytes.Reset [x01; x00; x00; x00; x2a; x00; x00; x00]) [] 0.

(** A message of 12 bytes (sender 1, opcode 3, the word 42) that the socket
    hands over in two packets, cut in the middle of the header, with one
    byte of the next message behind it. *)
Definition split_stream : UnixConn :=
  [ mkPacket [x01; x00; x00; x00; x03; x00] [];
    mkPacket [x0c; x00; x2a; x00; x00; x00; xff] [] ].

(** A stream that ends in the middle of the first header word. *)
Definition cut_stream : UnixConn := [ mkPacket [x01; x00] [] ].

(** A sample [ParseUnixRights] over control messages given as numbers: a
    negative one is not a rights record, any other carries one descriptor. *)
Definition sample_rights (m : Z) : list Z + error :=
  if m <? 0 then inr (Errno EINVAL) else inl [m].

(** * Properties *)

(** ** The payload cursor *)

Lemma rest_advance (r : bytes.Reader) (k : nat) :
  bytes.rest (bytes.advance r k) = skipn k (bytes.rest r).
Proof.
  unfold bytes.rest, bytes.advance; simpl.
  now rewrite skipn_skipn, Nat.add_comm.
Qed.

Lemma advance_advance (r : bytes.Reader) (j k : nat) :
  bytes.advance (bytes.advance r j) k = bytes.advance r (j + k).
Proof. unfold bytes.advance; simpl. now rewrite Nat.add_assoc. Qed.

Lemma rest_nonempty (r : bytes.Reader) :
  bytes.rest r <> [] -> (length (bytes.s r) <=? bytes.i r)%nat = false.
Proof.
  unfold bytes.rest. intros H. apply Nat.leb_gt.
  destruct (Nat.lt_ge_cases (bytes.i r) (length (bytes.s r))) as [|Hge]; [assumption|].
  now rewrite skipn_all2 in H.
Qed.

Lemma firstn_prefix {A : Type} (pre post : list A) :
  firstn (length pre) (pre ++ post) = pre.
Proof. now rewrite firstn_app, Nat.sub_diag, firstn_all, firstn_O, app_nil_r. Qed.

Lemma skipn_prefix {A : Type} (pre post : list A) :
  skipn (length pre) (pre ++ post) = post.
Proof. now rewrite skipn_app, Nat.sub_diag, skipn_all. Qed.

(** [io.ReadFull] when the reader still holds the [n] bytes asked for. *)
Lemma ReadFull_enough (r : bytes.Reader) (pre post : list byte) :
  bytes.rest r = pre ++ post ->
  io.ReadFull r (length pre) = (pre, None, bytes.advance r (length pre)).
Proof.
  intros Hrest. unfold io.ReadFull.
  destruct pre as [|b pre].
  - simpl. unfold bytes.advance. rewrite Nat.add_0_r. now destruct r.
  - remember (length (b :: pre)) as n eqn:Hn.
    assert (Hne : bytes.rest r <> []) by (rewrite Hrest; discriminate).
    unfold bytes.Read. rewrite (rest_nonempty r Hne), Hrest.
    subst n. rewrite firstn_prefix, Nat.leb_refl.
    reflexivity.
Qed.

(** [io.ReadFull] of a non-empty buffer from an exhausted reader. *)
Lemma ReadFull_exhausted (r : bytes.Reader) (n : nat) :
  bytes.rest r = [] -> n <> O -> io.ReadFull r n = ([], Some EOF, r).
Proof.
  intros Hrest Hn. unfold io.ReadFull, bytes.Read.
  destruct n as [|n]; [contradiction|].
  unfold bytes.rest in Hrest.
  assert (Hle : (length (bytes.s r) <=? bytes.i r)%nat = true).
  { apply Nat.leb_le. apply (f_equal (@length byte)) in Hrest.
    rewrite length_skipn in Hrest. simpl in Hrest. lia. }
  rewrite Hle. reflexivity.
Qed.

(** [io.ReadFull] when the reader holds some bytes, but fewer than asked. *)
Lemma ReadFull_partial (r : bytes.Reader) (n : nat) :
  bytes.rest r <> [] -> (length (bytes.rest r) < n)%nat ->
  io.ReadFull r n =
    (bytes.rest r, Some ErrUnexpectedEOF, bytes.advance r (length (bytes.rest r))).
Proof.
  intros Hne Hlt. unfold io.ReadFull.
  destruct n as [|n]; [lia|].
  unfold bytes.Read at 1. rewrite (rest_nonempty r Hne).
  rewrite firstn_all2 by lia.
  assert (Hnle : (S n <=? length (bytes.rest r))%nat = false) by (apply Nat.leb_gt; lia).
  rewrite Hnle.
  unfold bytes.Read.
  assert (Hend : (length (bytes.s (bytes.advance r (length (bytes.rest r))))
                  <=? bytes.i (bytes.advance r (length (bytes.rest r))))%nat = true).
  { apply Nat.leb_le. unfold bytes.advance, bytes.rest; simpl.
    rewrite length_skipn. lia. }
  rewrite Hend, app_nil_r. unfold io.ReadAtLeast_err. rewrite Hnle.
  destruct (bytes.rest r); [contradiction|reflexivity].
Qed.

(** [io.CopyN] when the reader holds the [n] bytes asked for. *)
Lemma CopyN_enough (r : bytes.Reader) (pre post : list byte) :
  bytes.rest r = pre ++ post ->
  io.CopyN r (len pre) = (pre, None, bytes.advance r (length pre)).
Proof.
  intros Hrest. unfold io.CopyN, len. rewrite Hrest.
  assert (Hgot : (if Z.of_nat (length (pre ++ post)) <=? Z.of_nat (length pre)
                  then pre ++ post
                  else firstn (Z.to_nat (Z.of_nat (length pre))) (pre ++ post)) = pre).
  { destruct (Z.leb_spec (Z.of_nat (length (pre ++ post))) (Z.of_nat (length pre))) as [Hle|Hgt].
    - rewrite length_app in Hle.
      assert (post = []) by (destruct post; [reflexivity|simpl in Hle; lia]).
      subst post. apply app_nil_r.
    - rewrite Nat2Z.id. apply firstn_prefix. }
  rewrite Hgot, Z.eqb_refl. reflexivity.
Qed.

(** [io.CopyN] when the reader runs dry first: everything left is copied, and
    the error is EOF. *)
Lemma CopyN_short (r : bytes.Reader) (n : Z) :
  len (bytes.rest r) < n ->
  io.CopyN r n = (bytes.rest r, Some EOF, bytes.advance r (length (bytes.rest r))).
Proof.
  intros Hlt. unfold io.CopyN.
  assert (H1 : (len (bytes.rest r) <=? n) = true) by (apply Z.leb_le; lia).
  rewrite H1.
  assert (H2 : (len (bytes.rest r) =? n) = false) by (apply Z.eqb_neq; lia).
  assert (H3 : (len (bytes.rest r) <? n) = true) by (apply Z.ltb_lt; lia).
  now rewrite H2, H3.
Qed.

(** ** Length-prefixed fields *)

Lemma uint32_small (z : Z) : 0 <= z < 2 ^ 32 -> GoInt.uint32 z = z.
Proof. intros H. unfold GoInt.uint32, GoInt.wrap_unsigned. now apply Z.mod_small. Qed.

Section CodecFacts.

Variable byteOrder : ByteOrder.

Lemma read_uint32_enough (r : bytes.Reader) (prefix more : list byte) :
  bytes.rest r = prefix ++ more ->
  length prefix = 4%nat ->
  read_uint32 byteOrder r = (inl (Uint32 byteOrder prefix), bytes.advance r 4).
Proof.
  intros Hrest Hlen. unfold read_uint32.
  rewrite <- Hlen, (ReadFull_enough r prefix more Hrest). reflexivity.
Qed.

Lemma consumed_advance (buf : MessageBuffer) (k : nat) :
  consumed buf (set_data buf (bytes.advance (data buf) k)) = Z.of_nat k.
Proof. unfold consumed; simpl. lia. Qed.

(** What [Decode] does on a string whose length prefix can be read: the
    three ways out. *)
Lemma Decode_string_unfold (buf : MessageBuffer) (old prefix more : list byte) :
  bytes.rest (data buf) = prefix ++ more ->
  length prefix = 4%nat ->
  let L := Uint32 byteOrder prefix in
  let d := bytes.advance (data buf) 4 in
  Decode byteOrder buf (VString old) =
    let '(str, err, d') := io.CopyN d (GoInt.uint32 (L + L mod 4)) in
    let buf' := set_data buf d' in
    match err with
    | Some e => (Failed e, buf', VString old)
    | None =>
        let last := GoInt.uint32 (L - 1) in
        if len str <=? last
        then (Panicked (IndexOutOfRange last (len str)), buf', VString old)
        else if Byte.eqb (nth (Z.to_nat last) str x00) x00
        then (Nil, buf', VString (firstn (Z.to_nat last) str))
        else (Failed ErrNotNullTerminated, buf', VString old)
    end.
Proof.
  intros Hrest Hlen L d. unfold Decode.
  rewrite (read_uint32_enough _ _ _ Hrest Hlen). reflexivity.
Qed.

End CodecFacts.

(** C1, as stated, fails: behind a length prefix of 5 the payload holds two
    bytes only; the decode consumes those two (not [5 + 1]) and returns EOF. *)
Lemma string_rule_short_payload :
  Decode LittleEndian short_string_message (VString []) =
    (Failed EOF,
     set_data short_string_message (bytes.advance (data short_string_message) 6),
     VString [])
  /\ ~ string_rule_as_stated LittleEndian short_string_message [].
Proof.
  split; [reflexivity|].
  unfold string_rule_as_stated. intros H.
  specialize (H ltac:(vm_compute; lia)).
  vm_compute in H. destruct H as [H _]. discriminate H.
Qed.

(** C1 (amended): a string decode on a buffer whose remaining payload holds
    the 4-byte length [L] and then at least [L + pad] bytes ([pad = L mod 4],
    [1 <= L], [L + pad] below [2^32]) consumes exactly [4 + L + pad] payload
    bytes; it fails with the malformed-string error when the byte at offset
    [L - 1] of the field is not null, and otherwise succeeds and returns
    exactly the first [L - 1] bytes of the field.  When fewer than [L + pad]
    bytes follow the prefix, the decode fails with EOF instead, having
    consumed all that was left, and the target keeps its value. *)
Theorem Decode_string_rule
  (byteOrder : ByteOrder) (buf : MessageBuffer) (old prefix : list byte) :
  length prefix = 4%nat ->
  let L := Uint32 byteOrder prefix in
  let pad := L mod 4 in
  (forall field tail : list byte,
     bytes.rest (data buf) = prefix ++ field ++ tail ->
     1 <= L -> L + pad < 2 ^ 32 -> len field = L + pad ->
     let '(out, buf', v) := Decode byteOrder buf (VString old) in
     consumed buf buf' = 4 + L + pad
     /\ buf' = set_data buf (bytes.advance (data buf) (4 + length field))
     /\ (nth (Z.to_nat (L - 1)) field x00 <> x00 ->
         out = Failed ErrNotNullTerminated /\ v = VString old)
     /\ (nth (Z.to_nat (L - 1)) field x00 = x00 ->
         out = Nil /\ v = VString (firstn (Z.to_nat (L - 1)) field)))
  /\ (forall more : list byte,
        bytes.rest (data buf) = prefix ++ more ->
        len more < GoInt.uint32 (L + pad) ->
        Decode byteOrder buf (VString old) =
          (Failed EOF,
           set_data buf (bytes.advance (data buf) (4 + length more)),
           VString old)).
Proof.
  intros Hlen L pad. split.
  - intros field tail Hrest HL Hfit Hfield.
    rewrite (Decode_string_unfold byteOrder buf old prefix (field ++ tail) Hrest Hlen).
    fold L. fold pad.
    assert (Hpad : 0 <= pad < 4) by (apply Z.mod_pos_bound; lia).
    assert (Hn : GoInt.uint32 (L + pad) = len field)
      by (rewrite uint32_small; lia).
    assert (Hlast : GoInt.uint32 (L - 1) = L - 1)
      by (apply uint32_small; lia).
    assert (Hd : bytes.rest (bytes.advance (data buf) 4) = field ++ tail).
    { rewrite rest_advance, Hrest, <- Hlen. apply skipn_prefix. }
    rewrite Hn, (CopyN_enough _ field tail Hd), Hlast, advance_advance.
    assert (Hidx : (len field <=? L - 1) = false) by (apply Z.leb_gt; lia).
    cbv zeta. rewrite Hidx.
    unfold len in Hfield.
    destruct (Byte.eqb (nth (Z.to_nat (L - 1)) field x00) x00) eqn:Hnull.
    + apply Byte.byte_dec_bl in Hnull.
      split; [rewrite consumed_advance; lia|].
      split; [reflexivity|].
      split; [intros Hne; contradiction|].
      intros _. split; reflexivity.
    + assert (Hne : nth (Z.to_nat (L - 1)) field x00 <> x00).
      { intros Heq. rewrite Heq in Hnull. discriminate Hnull. }
      split; [rewrite consumed_advance; lia|].
      split; [reflexivity|].
      split; [intros _; split; reflexivity|].
      intros Heq. contradiction.
  - intros more Hrest Hshort.
    rewrite (Decode_string_unfold byteOrder buf old prefix more Hrest Hlen).
    fold L. fold pad.
    assert (Hd : bytes.rest (bytes.advance (data buf) 4) = more).
    { rewrite rest_advance, Hrest, <- Hlen. apply skipn_prefix. }
    rewrite CopyN_short by (rewrite Hd; exact Hshort).
    rewrite Hd, advance_advance. reflexivity.
Qed.

(** C2 (the code departs from it): with a length prefix of 5 the padded
    field ends 12 bytes into the payload, but the string decode and the
    byte-array decode both stop after 10 ([4 + 5 + 5 mod 4]), so that the
    argument behind the field is read from the wrong offset: 42 comes out as
    [42 * 2^16]. *)
Theorem padding_stops_short_of_the_boundary :
  4 + round_up4 5 = 12
  /\ (let '(out, buf', v) := Decode LittleEndian hello_message (VString []) in
      out = Nil /\ consumed hello_message buf' = 10
      /\ v = VString [x68; x65; x6c; x6c]
      /\ Decode LittleEndian buf' (VUint32 0)
         = (Nil, set_data buf' (bytes.advance (data buf') 4), VUint32 2752512))
  /\ (let '(out, buf', v) :=
        Decode LittleEndian array_message
          (VBytes (mkSlice [x00; x00; x00; x00; x00; x00] [])) in
      out = Nil /\ consumed array_message buf' = 10
      /\ v = VBytes (mkSlice [x01; x02; x03; x04; x05] [x00])).
Proof. vm_compute. repeat split; reflexivity. Qed.

(** The general form of the same fact for strings: whenever the decode of a
    well-formed field succeeds it has consumed [4 + L + L mod 4] bytes, which
    is the padded size only when [L mod 4] is 0 or 2. *)
Lemma pad_is_not_round_up (L : Z) :
  0 <= L -> (L + L mod 4 = round_up4 L <-> L mod 4 = 0 \/ L mod 4 = 2).
Proof.
  intros HL. unfold round_up4.
  pose proof (Z.div_mod L 4 ltac:(lia)) as Hdm.
  pose proof (Z.mod_pos_bound L 4 ltac:(lia)) as Hb.
  assert (Hq : (L + 3) / 4 = L / 4 + (L mod 4 + 3) / 4).
  { rewrite Hdm at 1.
    replace (4 * (L / 4) + L mod 4 + 3) with ((L mod 4 + 3) + (L / 4) * 4) by lia.
    rewrite Z.div_add by lia. lia. }
  rewrite Hq.
  assert (Hcase : L mod 4 = 0 \/ L mod 4 = 1 \/ L mod 4 = 2 \/ L mod 4 = 3) by lia.
  destruct Hcase as [H|[H|[H|H]]]; rewrite H in *;
    [ change ((0 + 3) / 4) with 0
    | change ((1 + 3) / 4) with 1
    | change ((2 + 3) / 4) with 1
    | change ((3 + 3) / 4) with 1 ]; lia.
Qed.

(** ** Sequences *)

(** C3 (the code departs from it): [Decode] has no case for a slice other
    than [[]byte]; whatever the element type and the payload, also for a
    count of 0, the call panics in the default branch and reads nothing. *)
Theorem Decode_sequence_panics
  (byteOrder : ByteOrder) (buf : MessageBuffer) (elem : GoType) (xs : list value) :
  Decode byteOrder buf (VSlice elem xs)
  = (Panicked UnexpectedType, buf, VSlice elem xs).
Proof. reflexivity. Qed.

Example Decode_empty_int32_sequence :
  Decode LittleEndian empty_sequence_message (VSlice TInt32 [])
  = (Panicked UnexpectedType, empty_sequence_message, VSlice TInt32 []).
Proof. reflexivity. Qed.

(** ** Opaque byte arrays *)

Section ArrayFacts.

Variable byteOrder : ByteOrder.

Lemma Decode_bytes_unfold (buf : MessageBuffer) (b : ByteSlice)
      (prefix more : list byte) :
  bytes.rest (data buf) = prefix ++ more ->
  length prefix = 4%nat ->
  let L := Uint32 byteOrder prefix in
  let d := bytes.advance (data buf) 4 in
  Decode byteOrder buf (VBytes b) =
    if len (elems b) <? GoInt.uint32 (L + L mod 4) then
      (Panicked GrowNegative, set_data buf d, VBytes b)
    else
      let '(got, err, d') := io.ReadFull d (length (elems b)) in
      let buf' := set_data buf d' in
      let b' := fill b got in
      match err with
      | Some e => (Failed e, buf', VBytes b')
      | None =>
          match reslice b' L with
          | None => (Panicked (SliceBoundsOutOfRange L (cap b')), buf', VBytes b')
          | Some b'' => (Nil, buf', VBytes b'')
          end
      end.
Proof.
  intros Hrest Hlen L d. unfold Decode.
  rewrite (read_uint32_enough _ _ _ _ Hrest Hlen). reflexivity.
Qed.

(** A destination shorter than [L + pad] makes the decode panic, right
    after the length was read. *)
Lemma Decode_bytes_short_destination (buf : MessageBuffer) (b : ByteSlice)
      (prefix more : list byte) :
  bytes.rest (data buf) = prefix ++ more ->
  length prefix = 4%nat ->
  let L := Uint32 byteOrder prefix in
  len (elems b) < GoInt.uint32 (L + L mod 4) ->
  Decode byteOrder buf (VBytes b)
  = (Panicked GrowNegative, set_data buf (bytes.advance (data buf) 4), VBytes b).
Proof.
  intros Hrest Hlen L Hshort.
  rewrite (Decode_bytes_unfold buf b prefix more Hrest Hlen). fold L.
  apply Z.ltb_lt in Hshort. now rewrite Hshort.
Qed.

(** A destination of [L + pad] bytes or more is filled whole: the decode
    consumes as many bytes as the destination is long. *)
Lemma Decode_bytes_long_destination (buf : MessageBuffer) (b : ByteSlice)
      (prefix field tail : list byte) :
  bytes.rest (data buf) = prefix ++ field ++ tail ->
  length prefix = 4%nat ->
  let L := Uint32 byteOrder prefix in
  0 <= L -> L + L mod 4 < 2 ^ 32 ->
  L + L mod 4 <= len (elems b) ->
  length field = length (elems b) ->
  Decode byteOrder buf (VBytes b)
  = (Nil,
     set_data buf (bytes.advance (data buf) (4 + length (elems b))),
     VBytes (mkSlice (firstn (Z.to_nat L) field)
                     (skipn (Z.to_nat L) field ++ spare b))).
Proof.
  intros Hrest Hlen L HL Hfit Hdest Hfield.
  rewrite (Decode_bytes_unfold buf b prefix (field ++ tail) Hrest Hlen). fold L.
  assert (Hpad : 0 <= L mod 4 < 4) by (apply Z.mod_pos_bound; lia).
  assert (Hn : GoInt.uint32 (L + L mod 4) = L + L mod 4)
    by (apply uint32_small; lia).
  rewrite Hn.
  assert (Hge : (len (elems b) <? L + L mod 4) = false) by (apply Z.ltb_ge; lia).
  rewrite Hge.
  assert (Hd : bytes.rest (bytes.advance (data buf) 4) = field ++ tail).
  { rewrite rest_advance, Hrest, <- Hlen. apply skipn_prefix. }
  rewrite <- Hfield, (ReadFull_enough _ field tail Hd), advance_advance.
  cbv zeta.
  assert (Hfill : fill b field = mkSlice field (spare b)).
  { unfold fill. rewrite Hfield, skipn_all, app_nil_r. reflexivity. }
  rewrite Hfill. unfold reslice, cap; simpl.
  unfold len in *. rewrite <- Hfield in Hdest.
  assert (Hin : (0 <=? L) && (L <=? Z.of_nat (length field) + Z.of_nat (length (spare b))) = true).
  { apply andb_true_intro; split; apply Z.leb_le; lia. }
  rewrite Hin.
  rewrite firstn_app, skipn_app.
  replace (Z.to_nat L - length field)%nat with O by lia.
  rewrite firstn_O, skipn_O, app_nil_r. reflexivity.
Qed.

End ArrayFacts.

(** C4 (the code departs from it): the outcome depends on the destination
    slice.  With an empty destination the decode panics in [slices.Grow]
    (the count handed to it is negative); with a destination of 8 bytes it
    consumes [4 + 8] payload bytes, not [4 + 1 + 1]; only a destination of
    exactly [L + pad = 2] bytes gives what the claim says. *)
Theorem Decode_bytes_depends_on_destination :
  Decode LittleEndian one_byte_array_message (VBytes (mkSlice [] []))
  = (Panicked GrowNegative,
     set_data one_byte_array_message (bytes.advance (data one_byte_array_message) 4),
     VBytes (mkSlice [] []))
  /\ (let '(out, buf', v) :=
        Decode LittleEndian one_byte_array_message
          (VBytes (mkSlice [x00; x00; x00; x00; x00; x00; x00; x00] [])) in
      out = Nil /\ consumed one_byte_array_message buf' = 12
      /\ v = VBytes (mkSlice [x41] [x00; x0a; x0b; x0c; x0d; x0e; x0f]))
  /\ (let '(out, buf', v) :=
        Decode LittleEndian one_byte_array_message (VBytes (mkSlice [x00; x00] [])) in
      out = Nil /\ consumed one_byte_array_message buf' = 6
      /\ v = VBytes (mkSlice [x41] [x00])).
Proof. vm_compute. repeat split; reflexivity. Qed.

(** ** A length prefix of zero *)

(** C5 (the code departs from it): a string whose length prefix is 0 is not
    rejected with an error.  [length - 1] wraps to [2^32 - 1], nothing is
    copied, and indexing the empty string at [2^32 - 1] panics; this holds in
    either byte order and whatever follows the prefix. *)
Theorem Decode_string_zero_length_panics
  (byteOrder : ByteOrder) (from opc sz : Z) (before rest : list byte)
  (descriptors : list Z) (k : Z) (old : list byte) :
  let buf :=
    mkMessageBuffer from opc sz
      (bytes.mkReader (before ++ [x00; x00; x00; x00] ++ rest) (length before))
      descriptors k in
  Decode byteOrder buf (VString old)
  = (Panicked (IndexOutOfRange 4294967295 0),
     set_data buf (bytes.advance (data buf) 4),
     VString old).
Proof.
  intros buf.
  assert (Hrest : bytes.rest (data buf) = [x00; x00; x00; x00] ++ rest).
  { unfold buf, bytes.rest; simpl bytes.i; simpl bytes.s. apply skipn_prefix. }
  rewrite (Decode_string_unfold byteOrder buf old _ _ Hrest eq_refl).
  assert (H0 : Uint32 byteOrder [x00; x00; x00; x00] = 0) by (destruct byteOrder; reflexivity).
  rewrite H0.
  change (GoInt.uint32 (0 + 0 mod 4)) with (len (@nil byte)).
  assert (Hd : bytes.rest (bytes.advance (data buf) 4) = [] ++ rest).
  { rewrite rest_advance, Hrest. reflexivity. }
  rewrite (CopyN_enough _ [] rest Hd), advance_advance.
  reflexivity.
Qed.

(** ** File descriptors *)

Lemma int_small (z : Z) : GoInt.MinInt <= z <= GoInt.MaxInt -> GoInt.int z = z.
Proof.
  unfold GoInt.int, GoInt.wrap_signed, GoInt.MinInt, GoInt.MaxInt. intros H.
  rewrite Z.mod_small; lia.
Qed.

Section DescriptorFacts.

Variable byteOrder : ByteOrder.

(** With a descriptor left, the decode hands out the one at the index and
    moves the index by one. *)
Lemma Decode_file_next (buf : MessageBuffer) (old : option File) :
  fds_wf buf ->
  fdindex buf < len (fds buf) ->
  exists fd,
    nth_error (fds buf) (Z.to_nat (fdindex buf)) = Some fd
    /\ Decode byteOrder buf (VFile old)
       = (Nil, set_fdindex buf (fdindex buf + 1), VFile (os_NewFile fd)).
Proof.
  intros [Hpos Hmax] Hlt. unfold Decode.
  assert (H1 : (fdindex buf >=? len (fds buf)) = false) by (rewrite Z.geb_leb; apply Z.leb_gt; lia).
  assert (H2 : (fdindex buf <? 0) = false) by (apply Z.ltb_ge; lia).
  rewrite H1, H2.
  destruct (nth_error (fds buf) (Z.to_nat (fdindex buf))) as [fd|] eqn:Hnth.
  - exists fd. split; [reflexivity|].
    rewrite int_small; [reflexivity|].
    unfold GoInt.MinInt, GoInt.MaxInt in *. lia.
  - apply nth_error_None in Hnth. unfold len in Hlt. lia.
Qed.

(** With none left, the decode fails and touches nothing. *)
Lemma Decode_file_underflow (buf : MessageBuffer) (old : option File) :
  len (fds buf) <= fdindex buf ->
  Decode byteOrder buf (VFile old) = (Failed ErrNoMoreFds, buf, VFile old).
Proof.
  intros Hge. unfold Decode.
  assert (H1 : (fdindex buf >=? len (fds buf)) = true) by (rewrite Z.geb_leb; apply Z.leb_le; lia).
  now rewrite H1.
Qed.

End DescriptorFacts.

(** C7: for a buffer whose descriptor list is [[d0; d1]], the first
    file-descriptor decode returns (the file of) [d0], the second that of
    [d1], and the third fails with the descriptor-underflow error.  In
    general a file-descriptor decode hands out the descriptor at the
    consumption index, in list order, and moves the index past it; it fails,
    with that error, exactly when no descriptor is left. *)
Theorem Decode_file_order (byteOrder : ByteOrder) :
  (forall (from opc sz : Z) (payload : bytes.Reader) (d0 d1 : Z)
          (v0 v1 v2 : option File),
      let buf0 := mkMessageBuffer from opc sz payload [d0; d1] 0 in
      let buf1 := set_fdindex buf0 1 in
      let buf2 := set_fdindex buf0 2 in
      Decode byteOrder buf0 (VFile v0) = (Nil, buf1, VFile (os_NewFile d0))
      /\ Decode byteOrder buf1 (VFile v1) = (Nil, buf2, VFile (os_NewFile d1))
      /\ Decode byteOrder buf2 (VFile v2) = (Failed ErrNoMoreFds, buf2, VFile v2))
  /\ (forall (buf : MessageBuffer) (old : option File),
        fds_wf buf ->
        (fdindex buf < len (fds buf) ->
         exists fd,
           nth_error (fds buf) (Z.to_nat (fdindex buf)) = Some fd
           /\ Decode byteOrder buf (VFile old)
              = (Nil, set_fdindex buf (fdindex buf + 1), VFile (os_NewFile fd)))
        /\ (len (fds buf) <= fdindex buf ->
            Decode byteOrder buf (VFile old) = (Failed ErrNoMoreFds, buf, VFile old))
        /\ (fst (fst (Decode byteOrder buf (VFile old))) = Failed ErrNoMoreFds
            <-> len (fds buf) <= fdindex buf)).
Proof.
  split.
  - intros. repeat split; reflexivity.
  - intros buf old Hwf.
    split; [apply Decode_file_next; assumption|].
    split; [apply Decode_file_underflow|].
    split.
    + intros Hfail.
      destruct (Z.lt_ge_cases (fdindex buf) (len (fds buf))) as [Hlt|Hge]; [|assumption].
      destruct (Decode_file_next byteOrder buf old Hwf Hlt) as [fd [_ Hdec]].
      rewrite Hdec in Hfail. discriminate Hfail.
    + intros Hge. now rewrite Decode_file_underflow.
Qed.

(** C10: a successful file-descriptor decode leaves the payload cursor, the
    payload bytes, the sender, the opcode, the declared size and the
    descriptor list as they were, and moves the consumption index by exactly
    one; a decode that fails with descriptor underflow leaves the whole
    buffer, index included, as it was.  One of the two happens. *)
Theorem Decode_file_frame
  (byteOrder : ByteOrder) (buf : MessageBuffer) (old : option File) :
  fds_wf buf ->
  let '(out, buf', v) := Decode byteOrder buf (VFile old) in
  (out = Nil \/ out = Failed ErrNoMoreFds)
  /\ (out = Nil ->
      bytes.i (data buf') = bytes.i (data buf)
      /\ bytes.s (data buf') = bytes.s (data buf)
      /\ sender buf' = sender buf
      /\ op buf' = op buf
      /\ size buf' = size buf
      /\ fds buf' = fds buf
      /\ fdindex buf' = fdindex buf + 1)
  /\ (out = Failed ErrNoMoreFds -> buf' = buf /\ v = VFile old).
Proof.
  intros Hwf.
  destruct (Z.lt_ge_cases (fdindex buf) (len (fds buf))) as [Hlt|Hge].
  - destruct (Decode_file_next byteOrder buf old Hwf Hlt) as [fd [_ Hdec]].
    rewrite Hdec.
    split; [left; reflexivity|].
    split; [intros _; simpl; repeat split; reflexivity|].
    intros Hfail. discriminate Hfail.
  - rewrite (Decode_file_underflow byteOrder buf old Hge).
    split; [right; reflexivity|].
    split; [intros Hok; discriminate Hok|].
    intros _. split; reflexivity.
Qed.

(** ** Fixed-point values *)

Lemma int32_small (z : Z) : - 2 ^ 31 <= z < 2 ^ 31 -> GoInt.int32 z = z.
Proof.
  unfold GoInt.int32, GoInt.wrap_signed. intros H.
  rewrite Z.mod_small; lia.
Qed.

Lemma FixedInt_small (n : Z) :
  - 2 ^ 23 <= n < 2 ^ 23 -> FixedInt n = n * 256.
Proof.
  intros H. unfold FixedInt.
  rewrite Z.shiftl_mul_pow2 by lia. change (2 ^ 8) with 256.
  rewrite int_small by (unfold GoInt.MinInt, GoInt.MaxInt; lia).
  apply int32_small. lia.
Qed.

(** C8: for every [n] the 24-bit integer part can hold, [FixedInt n] has
    integer part [n] and fraction 0; and [FixedInt 5] converts to the float
    5.0 (the binary64 number [5 * 2^50 * 2^-50]). *)
Theorem FixedInt_parts (n : Z) :
  - 2 ^ 23 <= n < 2 ^ 23 ->
  Int (FixedInt n) = n
  /\ Frac (FixedInt n) = 0
  /\ Float (FixedInt 5) = S754_finite false 5629499534213120 (-50)
  /\ Float (FixedInt 5) = float64.of_int 5
  /\ (float64.value (Float (FixedInt 5)) == 5)%Q.
Proof.
  intros H. rewrite (FixedInt_small n H).
  split; [|split; [|split; [|split]]].
  - unfold Int. rewrite Z.shiftr_div_pow2 by lia. change (2 ^ 8) with 256.
    apply Z.div_mul. lia.
  - unfold Frac, GoInt.uint32, GoInt.wrap_unsigned.
    change 255 with (Z.ones 8). rewrite Z.land_ones by lia.
    rewrite Z.mod_mod_divide by (exists (2 ^ 24); reflexivity).
    change (2 ^ 8) with 256. apply Z.mod_mul. lia.
  - vm_compute. reflexivity.
  - vm_compute. reflexivity.
  - vm_compute. reflexivity.
Qed.

(** ** The framer *)

(** [read_loop] is the loop over [unixTee_Read]. *)
Lemma read_loop_unfold (conn : UnixConn) (o : list byte) (n : nat) :
  n <> O ->
  read_loop conn o n =
    let '(got, err, t') := unixTee_Read (mkTee conn o) n in
    match err with
    | Some _ => (got, err, t')
    | None =>
        if (n <=? length got)%nat then (got, None, t')
        else
          let '(got2, err2, t2) := read_loop (c t') (oob t') (n - length got) in
          (got ++ got2, err2, t2)
    end.
Proof.
  intros Hn. destruct n as [|n]; [contradiction|].
  destruct conn as [|p conn'].
  - reflexivity.
  - cbn [read_loop].
    destruct (Nat.leb_spec (S n) (length (pk_data p))) as [Hle|Hgt].
    + unfold unixTee_Read, ReadMsgUnix. cbn [c oob errors_Join].
      rewrite length_firstn, Nat.min_l by lia.
      rewrite Nat.leb_refl. reflexivity.
    + unfold unixTee_Read, ReadMsgUnix. cbn [c oob errors_Join].
      rewrite firstn_all2, skipn_all2 by lia.
      assert (Hf : (S n <=? length (pk_data p))%nat = false) by (apply Nat.leb_gt; lia).
      rewrite Hf. reflexivity.
Qed.

(** The loop never delivers more than was asked, and all of it unless it
    reports an error. *)
Lemma read_loop_length (conn : UnixConn) :
  forall (o : list byte) (n : nat),
    let '(got, err, _) := read_loop conn o n in
    (length got <= n)%nat /\ (err = None -> length got = n).
Proof.
  induction conn as [|p conn' IH]; intros o n; destruct n as [|n].
  - simpl. split; [lia|reflexivity].
  - simpl. split; [lia|discriminate].
  - simpl. split; [lia|reflexivity].
  - cbn [read_loop].
    destruct (Nat.leb_spec (S n) (length (pk_data p))) as [Hle|Hgt].
    + unfold unixTee_Read, ReadMsgUnix. cbn [c oob errors_Join].
      rewrite length_firstn, Nat.min_l by lia. split; [lia|reflexivity].
    + specialize (IH (o ++ pk_oob p) (S n - length (pk_data p))%nat).
      destruct (read_loop conn' (o ++ pk_oob p) (S n - length (pk_data p)))
        as [[got2 err2] t2].
      rewrite length_app. destruct IH as [IH1 IH2].
      split; [lia|]. intros He. specialize (IH2 He). lia.
Qed.

(** [io.CopyN] from the socket either fails or delivers exactly [n] bytes;
    for a negative [n] it succeeds with none. *)
Lemma tee_CopyN_length (t : unixTee) (n : Z) (got : list byte) (t' : unixTee) :
  tee_CopyN t n = (got, None, t') ->
  (0 <= n -> len got = n) /\ (n < 0 -> got = [] /\ t' = t).
Proof.
  unfold tee_CopyN. destruct (Z.leb_spec n 0) as [Hle|Hgt].
  - intros H. inversion H; subst. split; [unfold len; simpl; lia|tauto].
  - pose proof (read_loop_length (c t) (oob t) (Z.to_nat n)) as Hlen.
    destruct (read_loop (c t) (oob t) (Z.to_nat n)) as [[g e] t1].
    destruct (Z.eqb_spec (len g) n) as [Heq|Hne].
    + intros H. inversion H; subst. split; [reflexivity|lia].
    + destruct e; intros H; discriminate H.
Qed.

Section FramerFacts.

Variable byteOrder : ByteOrder.
Variable SocketControlMessage : Type.
Variable ParseSocketControlMessage :
  list byte -> list SocketControlMessage + error.
Variable ParseUnixRights : SocketControlMessage -> list Z + error.

Let frame := ReadMessage byteOrder SocketControlMessage
               ParseSocketControlMessage ParseUnixRights.

(** What does hold of every envelope the framer produces: a declared size
    of at least 8 comes with exactly [size - 8] payload bytes (a short read
    is an error), and the cursor and the descriptor index start at 0.  But
    the declared size may be below 8, and the payload is then empty. *)
Lemma ReadMessage_payload (conn conn' : UnixConn) (mr : MessageBuffer) :
  frame conn = (inl mr, conn') ->
  0 <= size mr < 2 ^ 16
  /\ bytes.i (data mr) = O
  /\ fdindex mr = 0
  /\ (8 <= size mr -> size mr = 8 + len (bytes.s (data mr)))
  /\ (size mr < 8 -> bytes.s (data mr) = []).
Proof.
  unfold frame, ReadMessage.
  destruct (tee_ReadFull (mkTee conn []) 4) as [[b1 e1] r1].
  destruct e1; [discriminate|].
  destruct (tee_ReadFull r1 4) as [[b2 e2] r2].
  destruct e2; [discriminate|].
  set (sz := GoInt.uint16 (Z.shiftr (Uint32 byteOrder b2) 16)).
  destruct (tee_CopyN r2 (sz - 8)) as [[payload e3] r3] eqn:Hcopy.
  destruct e3; [discriminate|].
  destruct (ParseSocketControlMessage (oob r3)); [|discriminate].
  destruct (collect_fds SocketControlMessage ParseUnixRights l []); [|discriminate].
  intros H. inversion H; subst; clear H. cbn [size data fdindex bytes.s bytes.i bytes.Reset].
  destruct (tee_CopyN_length _ _ _ _ Hcopy) as [Hge Hlt].
  split; [apply Z.mod_pos_bound; lia|].
  split; [reflexivity|]. split; [reflexivity|].
  split; intros Hs.
  - specialize (Hge ltac:(lia)). lia.
  - apply Hlt. lia.
Qed.

End FramerFacts.

(** C6 (the code departs from it): the framer does not check the declared
    size.  For a header that declares 4 bytes, [io.CopyN] is asked for
    [4 - 8] bytes, reads nothing and reports no error, and [ReadMessage]
    succeeds with an envelope whose declared size is 4, below the 8 bytes
    of the header and not [8 +] the (empty) payload. *)
Theorem ReadMessage_accepts_undersized_header
  (SocketControlMessage : Type)
  (ParseSocketControlMessage : list byte -> list SocketControlMessage + error)
  (ParseUnixRights : SocketControlMessage -> list Z + error) :
  ParseSocketControlMessage [] = inl [] ->
  exists mr conn',
    ReadMessage LittleEndian SocketControlMessage ParseSocketControlMessage
      ParseUnixRights undersized_stream = (inl mr, conn')
    /\ mr = mkMessageBuffer 1 3 4 (bytes.Reset []) [] 0
    /\ Size mr < 8
    /\ Size mr <> 8 + len (bytes.s (data mr))
    /\ conn' = [ mkPacket [x02; x00; x00; x00; x00; x00; x08; x00] [] ].
Proof.
  intros Hparse.
  eexists; eexists. split.
  - unfold ReadMessage.
    change (tee_ReadFull (mkTee undersized_stream []) 4)
      with ([x01; x00; x00; x00], @None error,
            mkTee [ mkPacket [x03; x00; x04; x00;
                              x02; x00; x00; x00; x00; x00; x08; x00] [] ] []).
    cbv iota beta.
    change (tee_ReadFull _ 4)
      with ([x03; x00; x04; x00], @None error,
            mkTee [ mkPacket [x02; x00; x00; x00; x00; x00; x08; x00] [] ] []).
    cbv iota beta.
    change (GoInt.uint16 (Z.shiftr (Uint32 LittleEndian [x03; x00; x04; x00]) 16)) with 4.
    change (GoInt.uint16 (Z.land (Uint32 LittleEndian [x03; x00; x04; x00]) 65535)) with 3.
    change (Uint32 LittleEndian [x01; x00; x00; x00]) with 1.
    change (tee_CopyN _ (4 - 8))
      with (@nil byte, @None error,
            mkTee [ mkPacket [x02; x00; x00; x00; x00; x00; x08; x00] [] ] []).
    cbv iota beta. cbn [oob c]. rewrite Hparse. cbn [collect_fds].
    reflexivity.
  - split; [reflexivity|].
    split; [unfold Size; simpl; lia|].
    split; [unfold Size, len; simpl; lia|reflexivity].
Qed.

(** ** Exact operations in binary64 *)

Lemma digits_log2 (m : positive) : digits m = Z.log2 (Zpos m) + 1.
Proof.
  unfold digits. induction m as [p IH|p IH|].
  - cbn [digits2_pos]. rewrite Pos2Z.inj_succ, IH.
    change (Zpos p~1) with (2 * Zpos p + 1).
    rewrite Z.log2_succ_double by lia. lia.
  - cbn [digits2_pos]. rewrite Pos2Z.inj_succ, IH.
    change (Zpos p~0) with (2 * Zpos p).
    rewrite Z.log2_double by lia. lia.
  - reflexivity.
Qed.

Lemma digits_pos (m : positive) : 0 < digits m.
Proof. unfold digits. lia. Qed.

Lemma digits_bounds (m : positive) : 2 ^ (digits m - 1) <= Zpos m < 2 ^ digits m.
Proof.
  rewrite digits_log2.
  replace (Z.log2 (Zpos m) + 1 - 1) with (Z.log2 (Zpos m)) by lia.
  replace (Z.log2 (Zpos m) + 1) with (Z.succ (Z.log2 (Zpos m))) by lia.
  apply Z.log2_spec. lia.
Qed.

Lemma digits_le (m n : positive) : Zpos m <= Zpos n -> digits m <= digits n.
Proof.
  intros H. rewrite !digits_log2.
  apply Z.add_le_mono_r, Z.log2_le_mono. exact H.
Qed.

Lemma digits_lt_pow2 (m : positive) (k : Z) :
  0 <= k -> Zpos m < 2 ^ k -> digits m <= k.
Proof.
  intros Hk H. rewrite digits_log2.
  assert (Z.log2 (Zpos m) < k) by (apply Z.log2_lt_pow2; lia). lia.
Qed.

Lemma digits_mul_pow2 (m n : positive) (k : Z) :
  0 <= k -> Zpos n = Zpos m * 2 ^ k -> digits n = digits m + k.
Proof.
  intros Hk H. rewrite !digits_log2, H, Z.log2_mul_pow2 by lia. lia.
Qed.

Lemma iter_xO_pow2 (m d : positive) : Zpos (Pos.iter xO m d) = Zpos m * 2 ^ Zpos d.
Proof.
  induction d as [|d IH] using Pos.peano_ind.
  - simpl. lia.
  - rewrite Pos.iter_succ, Pos2Z.inj_succ, Z.pow_succ_r by lia.
    rewrite Pos2Z.inj_xO, IH. lia.
Qed.

Lemma iter_pos_nat {A : Type} (f : A -> A) (p : positive) (x : A) :
  iter_pos f p x = Nat.iter (Pos.to_nat p) f x.
Proof.
  revert x. induction p as [p IH|p IH|]; intros x; cbn [iter_pos].
  - rewrite !IH, Pos2Nat.inj_xI.
    replace (S (2 * Pos.to_nat p)) with (Pos.to_nat p + (Pos.to_nat p + 1))%nat by lia.
    rewrite !Nat.iter_add. reflexivity.
  - rewrite !IH, Pos2Nat.inj_xO.
    replace (2 * Pos.to_nat p)%nat with (Pos.to_nat p + Pos.to_nat p)%nat by lia.
    rewrite Nat.iter_add. reflexivity.
  - reflexivity.
Qed.

Lemma shr_1_exact (a : Z) : 0 <= a -> shr_1 (exact (2 * a)) = exact a.
Proof. intros Ha. destruct a as [|p|p]; [reflexivity|reflexivity|lia]. Qed.

Lemma iter_shr_1_exact (n : nat) (a : Z) :
  0 <= a -> Nat.iter n shr_1 (exact (a * 2 ^ Z.of_nat n)) = exact a.
Proof.
  revert a. induction n as [|n IH]; intros a Ha.
  - simpl. now rewrite Z.mul_1_r.
  - rewrite Nat2Z.inj_succ, Z.pow_succ_r by lia.
    rewrite Nat.iter_succ.
    replace (a * (2 * 2 ^ Z.of_nat n)) with ((2 * a) * 2 ^ Z.of_nat n) by lia.
    rewrite IH by lia. apply shr_1_exact. exact Ha.
Qed.

Lemma shr_exact (a e n : Z) :
  0 <= a -> 0 <= n -> shr (exact (a * 2 ^ n)) e n = (exact a, e + n).
Proof.
  intros Ha Hn. unfold shr. destruct n as [|p|p]; [|
   |lia].
  - now rewrite Z.mul_1_r, Z.add_0_r.
  - rewrite iter_pos_nat. rewrite <- (positive_nat_Z p) at 1.
    rewrite iter_shr_1_exact by lia. reflexivity.
Qed.

Lemma fexp64_eq (d : Z) : fexp64 d = Z.max (d - 53) (-1074).
Proof. reflexivity. Qed.

(** Rounding a number that needs none: when the bits to be shifted out are
    all zero, [binary_round_aux] returns the number itself. *)
Lemma binary_round_aux_exact (s : bool) (M a : positive) (E k : Z) :
  k = Z.max 0 (fexp64 (digits M + E) - E) ->
  Zpos M = Zpos a * 2 ^ k ->
  E + k <= 971 ->
  binary_round_aux float64.prec float64.emax s (Zpos M) E loc_Exact
  = S754_finite s a (E + k).
Proof.
  intros Hk HM Hmax.
  unfold binary_round_aux, shr_fexp.
  change (Zdigits2 (Zpos M)) with (digits M).
  change (fexp float64.prec float64.emax) with fexp64.
  change (shr_record_of_loc (Zpos M) loc_Exact) with (exact (Zpos M)).
  assert (Hstep1 : shr (exact (Zpos M)) E (fexp64 (digits M + E) - E)
                   = (exact (Zpos a), E + k)).
  { destruct (Z.le_gt_cases (fexp64 (digits M + E) - E) 0) as [Hle|Hgt].
    - assert (Hz : k = 0) by lia. rewrite Hz in HM |- *.
      rewrite Z.pow_0_r, Z.mul_1_r in HM. rewrite HM, Z.add_0_r.
      unfold shr. destruct (fexp64 (digits M + E) - E); [reflexivity|lia|reflexivity].
    - assert (fexp64 (digits M + E) - E = k) as -> by lia.
      rewrite HM. apply shr_exact; lia. }
  rewrite Hstep1. cbv iota beta.
  change (round_nearest_even (shr_m (exact (Zpos a))) (loc_of_shr_record (exact (Zpos a))))
    with (Zpos a).
  change (Zdigits2 (Zpos a)) with (digits a).
  change (shr_record_of_loc (Zpos a) loc_Exact) with (exact (Zpos a)).
  assert (Hk0 : 0 <= k) by lia.
  assert (Hd : digits M = digits a + k) by (apply digits_mul_pow2; assumption).
  assert (Hstep2 : shr (exact (Zpos a)) (E + k) (fexp64 (digits a + (E + k)) - (E + k))
                   = (exact (Zpos a), E + k)).
  { replace (digits a + (E + k)) with (digits M + E) by lia.
    unfold shr.
    destruct (fexp64 (digits M + E) - (E + k)) eqn:Hn; [reflexivity|lia|reflexivity]. }
  rewrite Hstep2. cbv iota beta. cbn [shr_m exact].
  assert (Hle : (E + k <=? float64.emax - float64.prec) = true)
    by (apply Z.leb_le; unfold float64.emax, float64.prec; lia).
  now rewrite Hle.
Qed.

(** [binary_round] of a mantissa that is not too long for its exponent only
    re-aligns it. *)
Lemma binary_round_exact (s : bool) (m : positive) (e : Z) :
  fexp64 (digits m + e) <= e ->
  fexp64 (digits m + e) <= 971 ->
  exists m' : positive,
    Zpos m' = Zpos m * 2 ^ (e - fexp64 (digits m + e))
    /\ binary_round float64.prec float64.emax s m e
       = S754_finite s m' (fexp64 (digits m + e)).
Proof.
  intros Hle Hmax. unfold binary_round, shl_align.
  change (fexp float64.prec float64.emax (Zpos (digits2_pos m) + e))
    with (fexp64 (digits m + e)).
  remember (fexp64 (digits m + e)) as f eqn:Hf.
  destruct (f - e) as [|d|d] eqn:Hd; [|lia|].
  - exists m. assert (He : e = f) by lia.
    split; [replace (e - f) with 0 by lia; lia|].
    rewrite (binary_round_aux_exact s m m e 0);
      [f_equal; lia| rewrite <- Hf; lia | lia | lia].
  - exists (Pos.iter xO m d).
    assert (Hed : e - f = Zpos d) by lia.
    split; [rewrite Hed; apply iter_xO_pow2|].
    assert (Hdig : digits (Pos.iter xO m d) = digits m + Zpos d).
    { apply digits_mul_pow2; [lia|apply iter_xO_pow2]. }
    rewrite (binary_round_aux_exact s (Pos.iter xO m d) (Pos.iter xO m d) f 0);
      [f_equal; lia| | lia | lia].
    rewrite Hdig. replace (digits m + Zpos d + f) with (digits m + e) by lia.
    rewrite <- Hf. lia.
Qed.

(** [float64.dyadic_floor] only depends on the number [m * 2^e]. *)
Lemma dyadic_floor_shift (m e k : Z) :
  0 <= m -> 0 <= k ->
  float64.dyadic_floor (m * 2 ^ k) (e - k) = float64.dyadic_floor m e.
Proof.
  intros Hm Hk. unfold float64.dyadic_floor.
  destruct (Z.leb_spec 0 (e - k)) as [H1|H1]; destruct (Z.leb_spec 0 e) as [H2|H2]; try lia.
  - rewrite <- Z.mul_assoc, <- Z.pow_add_r by lia. f_equal. f_equal. lia.
  - replace k with (e + (k - e)) at 1 by lia.
    rewrite Z.pow_add_r by lia.
    replace (- (e - k)) with (k - e) by lia.
    rewrite Z.mul_assoc. apply Z.div_mul.
    apply Z.pow_nonzero; lia.
  - replace (- (e - k)) with (- e + k) by lia.
    rewrite Z.pow_add_r by lia.
    apply Z.div_mul_cancel_r; apply Z.pow_nonzero; lia.
Qed.

Lemma valid_finite (s : bool) (m : positive) (e : Z) :
  float64.valid (S754_finite s m e) = true ->
  fexp64 (digits m + e) = e /\ e <= 971.
Proof.
  unfold float64.valid, valid_binary, bounded, canonical_mantissa.
  intros H. apply andb_prop in H. destruct H as [H1 H2].
  apply Z.eqb_eq in H1. apply Z.leb_le in H2.
  split; [exact H1|exact H2].
Qed.

Lemma in_int_range (v : Z) :
  GoInt.MinInt <= v <= GoInt.MaxInt ->
  (GoInt.MinInt <=? v) && (v <=? GoInt.MaxInt) = true.
Proof. intros [H1 H2]. apply andb_true_intro. split; apply Z.leb_le; assumption. Qed.

Lemma cond_Zopp_range (s : bool) (q : Z) :
  0 <= q < 2 ^ 63 -> GoInt.MinInt <= cond_Zopp s q <= GoInt.MaxInt.
Proof. unfold GoInt.MinInt, GoInt.MaxInt. destruct s; simpl; lia. Qed.

(** The integer part [Modf] builds converts back to the integer. *)
Lemma to_int_normalize (s : bool) (q : Z) :
  0 <= q < 2 ^ 53 ->
  float64.to_int (float64.normalize s q 0) = cond_Zopp s q.
Proof.
  intros Hq. unfold float64.normalize.
  destruct q as [|q|q]; [destruct s; reflexivity| |lia].
  assert (Hround : binary_normalize float64.prec float64.emax (cond_Zopp s (Zpos q)) 0 s
                   = binary_round float64.prec float64.emax s q 0)
    by (destruct s; reflexivity).
  rewrite Hround.
  assert (Hd : digits q <= 53) by (apply digits_lt_pow2; lia).
  pose proof (digits_pos q) as Hd0.
  destruct (binary_round_exact s q 0) as [m' [Hm' Hr]].
  { rewrite fexp64_eq. lia. }
  { rewrite fexp64_eq. lia. }
  rewrite Hr. unfold float64.to_int. cbv zeta.
  assert (Hfloor : float64.dyadic_floor (Zpos m') (fexp64 (digits q + 0)) = Zpos q).
  { rewrite Hm'.
    replace (fexp64 (digits q + 0)) with (0 - (0 - fexp64 (digits q + 0))) at 2 by lia.
    rewrite dyadic_floor_shift by (rewrite ?fexp64_eq; lia).
    unfold float64.dyadic_floor. simpl (0 <=? 0). cbv iota.
    now rewrite Z.pow_0_r, Z.mul_1_r. }
  rewrite Hfloor.
  rewrite in_int_range; [reflexivity|].
  apply cond_Zopp_range. lia.
Qed.

(** [floor (r * 2^(e+8))] is [floor (r * 256 / 2^(-e))], below 256 when
    [r * 2^e] is below 1. *)
Lemma dyadic_floor_256 (r e : Z) :
  0 <= r -> e < 0 ->
  float64.dyadic_floor r (e + 8) = r * 256 / 2 ^ (- e).
Proof.
  intros Hr He. unfold float64.dyadic_floor.
  destruct (Z.leb_spec 0 (e + 8)) as [H|H].
  - replace 256 with (2 ^ (e + 8) * 2 ^ (- e)).
    + rewrite Z.mul_assoc. symmetry. apply Z.div_mul. apply Z.pow_nonzero; lia.
    + rewrite <- Z.pow_add_r by lia. replace (e + 8 + - e) with 8 by lia. reflexivity.
  - replace (2 ^ (- e)) with (2 ^ (- (e + 8)) * 256).
    + symmetry. apply Z.div_mul_cancel_r; [apply Z.pow_nonzero; lia|lia].
    + change 256 with (2 ^ 8). rewrite <- Z.pow_add_r by lia. f_equal. lia.
Qed.

Lemma fraction_bits_bound (r e : Z) :
  0 <= r < 2 ^ (- e) -> e < 0 -> 0 <= r * 256 / 2 ^ (- e) < 256.
Proof.
  intros Hr He.
  assert (Hp : 0 < 2 ^ (- e)) by (apply Z.pow_pos_nonneg; lia).
  split.
  - apply Z.div_pos; lia.
  - apply Z.div_lt_upper_bound; lia.
Qed.

(** The fraction bits: [|frac| * 2^8] is computed exactly, and the
    conversion to [int] cuts it off below the binary point. *)
Lemma to_int_fraction (s : bool) (r e : Z) :
  0 <= r < 2 ^ (- e) -> r < 2 ^ 53 -> e < 0 -> -1074 <= e ->
  float64.to_int
    (float64.mul (float64.Abs (float64.normalize s r e)) float64.Exp2_8)
  = r * 256 / 2 ^ (- e).
Proof.
  intros Hr Hr53 He Hmin. rewrite <- dyadic_floor_256 by lia.
  unfold float64.normalize.
  destruct r as [|r|r]; [| |lia].
  - replace (cond_Zopp s 0) with 0 by (destruct s; reflexivity).
    cbn [binary_normalize float64.Abs SFabs float64.mul SFmul float64.Exp2_8 float64.to_int].
    unfold float64.dyadic_floor. destruct (0 <=? e + 8); reflexivity.
  - assert (Hround : binary_normalize float64.prec float64.emax (cond_Zopp s (Zpos r)) e s
                     = binary_round float64.prec float64.emax s r e)
      by (destruct s; reflexivity).
    rewrite Hround.
    assert (Hd : digits r <= - e) by (apply digits_lt_pow2; lia).
    assert (Hd53 : digits r <= 53) by (apply digits_lt_pow2; lia).
    pose proof (digits_pos r) as Hd0.
    remember (digits r + e) as D eqn:HD.
    destruct (binary_round_exact s r e) as [m' [Hm' Hr']].
    { rewrite <- HD, fexp64_eq. lia. }
    { rewrite <- HD, fexp64_eq. lia. }
    rewrite <- HD in Hm', Hr'. rewrite Hr'.
    cbn [float64.Abs SFabs float64.mul SFmul float64.Exp2_8 xorb].
    remember (fexp64 D) as f eqn:Hfdef.
    assert (Hfv : f = Z.max (D - 53) (-1074)) by (rewrite Hfdef; apply fexp64_eq).
    set (M := (m' * 4503599627370496)%positive).
    assert (HM : Zpos M = Zpos m' * 2 ^ 52) by reflexivity.
    assert (Hdm' : digits m' = digits r + (e - f)).
    { apply digits_mul_pow2; [lia|exact Hm']. }
    assert (HdM : digits M = digits m' + 52) by (apply digits_mul_pow2; [lia|exact HM]).
    set (k := Z.max 0 (fexp64 (digits M + (f + -44)) - (f + -44))).
    assert (Hk : 44 <= k <= 52).
    { unfold k. rewrite HdM, Hdm'.
      replace (digits r + (e - f) + 52 + (f + -44)) with (D + 8) by lia.
      rewrite fexp64_eq. lia. }
    assert (Hfk : f + -44 + k = fexp64 (D + 8)).
    { unfold k. rewrite HdM, Hdm'.
      replace (digits r + (e - f) + 52 + (f + -44)) with (D + 8) by lia.
      rewrite fexp64_eq. lia. }
    assert (Hapos : 0 < Zpos m' * 2 ^ (52 - k)).
    { apply Z.mul_pos_pos; [lia|apply Z.pow_pos_nonneg; lia]. }
    rewrite (binary_round_aux_exact false M (Z.to_pos (Zpos m' * 2 ^ (52 - k))) (f + -44) k).
    + unfold float64.to_int. cbv zeta. rewrite Z2Pos.id by exact Hapos.
      cbn [cond_Zopp].
      assert (Hf : f <= e) by lia.
      assert (Hshift : float64.dyadic_floor (Zpos m' * 2 ^ (52 - k)) (f + -44 + k)
                       = float64.dyadic_floor (Zpos r) (e + 8)).
      { rewrite Hm', <- Z.mul_assoc, <- Z.pow_add_r by lia.
        replace (f + -44 + k) with (e + 8 - (e - f + (52 - k))) by lia.
        apply dyadic_floor_shift; lia. }
      rewrite Hshift.
      pose proof (fraction_bits_bound (Zpos r) e Hr He) as Hb.
      rewrite <- dyadic_floor_256 in Hb by lia.
      rewrite in_int_range; [reflexivity|].
      unfold GoInt.MinInt, GoInt.MaxInt. lia.
    + reflexivity.
    + rewrite Z2Pos.id by exact Hapos.
      rewrite HM, <- Z.mul_assoc, <- Z.pow_add_r by lia.
      f_equal. f_equal. lia.
    + rewrite Hfk, fexp64_eq. lia.
Qed.

Lemma mantissa_bound (s : bool) (m : positive) (e : Z) :
  float64.valid (S754_finite s m e) = true ->
  Zpos m < 2 ^ 53 /\ -1074 <= e <= 971.
Proof.
  intros Hv. destruct (valid_finite s m e Hv) as [Hc He].
  rewrite fexp64_eq in Hc.
  pose proof (digits_bounds m) as [_ Hm]. pose proof (digits_pos m) as Hd.
  split; [|lia].
  apply Z.lt_le_trans with (2 ^ digits m); [exact Hm|].
  apply Z.pow_le_mono_r; lia.
Qed.

(** ** [FixedFloat] *)

(** [FixedFloat] in integer terms, for a float with a fraction. *)
Lemma FixedFloat_fraction (s : bool) (m : positive) (e : Z) :
  float64.valid (S754_finite s m e) = true -> e < 0 ->
  FixedFloat (S754_finite s m e)
  = GoInt.int32
      (Z.lor (GoInt.int (Z.shiftl (cond_Zopp s (Zpos m / 2 ^ (- e))) 8))
             (Zpos m mod 2 ^ (- e) * 256 / 2 ^ (- e))).
Proof.
  intros Hv He. destruct (mantissa_bound s m e Hv) as [Hm Hrange].
  assert (Hp : 0 < 2 ^ (- e)) by (apply Z.pow_pos_nonneg; lia).
  unfold FixedFloat, float64.Modf.
  assert (Hneg : (0 <=? e) = false) by (apply Z.leb_gt; exact He).
  rewrite Hneg.
  pose proof (Z.mod_pos_bound (Zpos m) (2 ^ (- e)) Hp) as Hr.
  assert (Hq : 0 <= Zpos m / 2 ^ (- e) < 2 ^ 53).
  { split; [apply Z.div_pos; lia|].
    apply Z.le_lt_trans with (Zpos m); [|exact Hm].
    apply Z.div_le_upper_bound; [exact Hp|]. nia. }
  assert (Hr53 : Zpos m mod 2 ^ (- e) < 2 ^ 53).
  { apply Z.le_lt_trans with (Zpos m); [|exact Hm]. apply Z.mod_le; lia. }
  rewrite to_int_normalize by exact Hq.
  rewrite to_int_fraction by (try exact Hr; lia).
  reflexivity.
Qed.

(** [FixedFloat] of a float that is an integer. *)
Lemma FixedFloat_integer (s : bool) (m : positive) (e : Z) :
  0 <= e ->
  FixedFloat (S754_finite s m e)
  = GoInt.int32
      (Z.lor (GoInt.int (Z.shiftl (float64.to_int (S754_finite s m e)) 8)) 0).
Proof.
  intros He. unfold FixedFloat, float64.Modf.
  assert (Hpos : (0 <=? e) = true) by (apply Z.leb_le; exact He).
  rewrite Hpos. destruct s; reflexivity.
Qed.

(** The fraction bits of [FixedFloat x] are [floor (|f| * 256)], for [f]
    what is left of [x] beside its truncation. *)
Lemma FixedFloat_bits (x : float64.t) :
  float64.is_finite x = true ->
  float64.valid x = true ->
  let v := float64.value x in
  let i := Qtrunc v in
  let bits := Qfloor (Qabs (v - inject_Z i) * 256) in
  GoInt.MinInt <= i <= GoInt.MaxInt ->
  0 <= bits < 256
  /\ FixedFloat x = GoInt.int32 (Z.lor (GoInt.int (Z.shiftl i 8)) bits).
Proof.
  intros Hfin Hvalid.
  destruct x as [s|s| |s m e]; try discriminate Hfin.
  - intros v i bits _. destruct s; vm_compute; repeat split; discriminate.
  - destruct (Z.leb_spec 0 e) as [He|He].
    + (* an integer *)
      set (n := cond_Zopp s (Zpos m * 2 ^ e)).
      assert (Hv : float64.value (S754_finite s m e) = inject_Z n).
      { unfold float64.value. apply Z.leb_le in He. now rewrite He. }
      intros v i bits. subst v i bits. rewrite Hv.
      assert (Hi : Qtrunc (inject_Z n) = n) by (unfold Qtrunc; simpl; apply Z.quot_1_r).
      rewrite Hi. intros Hrange.
      assert (Hbits : Qfloor (Qabs (inject_Z n - inject_Z n) * 256) = 0).
      { unfold Qfloor, Qabs, Qminus, Qplus, Qopp, Qmult, inject_Z. simpl.
        replace (n * 1 + - n * 1) with 0 by lia. reflexivity. }
      rewrite Hbits. split; [lia|].
      rewrite FixedFloat_integer by exact He.
      unfold float64.to_int. cbv zeta. fold n.
      assert (Hfl : float64.dyadic_floor (Zpos m) e = Zpos m * 2 ^ e).
      { unfold float64.dyadic_floor. apply Z.leb_le in He. now rewrite He. }
      rewrite Hfl. fold n. rewrite in_int_range by exact Hrange. reflexivity.
    + (* a fraction *)
      destruct (mantissa_bound s m e Hvalid) as [Hm Hrange].
      assert (Hp : 0 < 2 ^ (- e)) by (apply Z.pow_pos_nonneg; lia).
      set (P := Z.to_pos (2 ^ (- e))).
      assert (HP : Zpos P = 2 ^ (- e)) by (apply Z2Pos.id; exact Hp).
      assert (Hv : float64.value (S754_finite s m e) = Qmake (cond_Zopp s (Zpos m)) P).
      { unfold float64.value. apply Z.leb_gt in He. now rewrite He. }
      intros v i bits. subst v i bits. rewrite Hv.
      set (q := Zpos m / 2 ^ (- e)).
      set (r := Zpos m mod 2 ^ (- e)).
      pose proof (Z.div_mod (Zpos m) (2 ^ (- e)) ltac:(lia)) as Hdm.
      fold q r in Hdm.
      pose proof (Z.mod_pos_bound (Zpos m) (2 ^ (- e)) Hp) as Hr. fold r in Hr.
      assert (Hi : Qtrunc (cond_Zopp s (Zpos m) # P) = cond_Zopp s q).
      { unfold Qtrunc. cbn [Qnum Qden]. rewrite HP. unfold q.
        destruct s; cbn [cond_Zopp].
        - rewrite Z.quot_opp_l by lia. f_equal. apply Z.quot_div_nonneg; lia.
        - apply Z.quot_div_nonneg; lia. }
      rewrite Hi. intros _.
      assert (Hbits : Qfloor (Qabs ((cond_Zopp s (Zpos m) # P) - inject_Z (cond_Zopp s q)) * 256)
                      = r * 256 / 2 ^ (- e)).
      { unfold Qfloor, Qabs, Qminus, Qplus, Qopp, Qmult, inject_Z.
        cbn [Qnum Qden]. rewrite !Pos.mul_1_r, HP. f_equal. f_equal.
        destruct s; cbn [cond_Zopp]; lia. }
      rewrite Hbits.
      split; [apply fraction_bits_bound; [exact Hr|exact He]|].
      apply FixedFloat_fraction; assumption.
Qed.

(** The value of a float is the value of its re-aligned form. *)
Lemma value_shift (s : bool) (m m' : positive) (e k : Z) :
  0 <= k -> Zpos m' = Zpos m * 2 ^ k ->
  (float64.value (S754_finite s m' (e - k)) == float64.value (S754_finite s m e))%Q.
Proof.
  intros Hk Hm'. unfold float64.value.
  destruct (Z.leb_spec 0 (e - k)) as [H1|H1]; destruct (Z.leb_spec 0 e) as [H2|H2]; try lia.
  - rewrite Hm', <- Z.mul_assoc, <- Z.pow_add_r by lia.
    replace (k + (e - k)) with e by lia. reflexivity.
  - unfold Qeq, inject_Z. cbn [Qnum Qden].
    rewrite Z2Pos.id by (apply Z.pow_pos_nonneg; lia).
    assert (Hpow : 2 ^ k = 2 ^ e * 2 ^ (- (e - k))).
    { rewrite <- Z.pow_add_r by lia. f_equal. lia. }
    rewrite Hm', Hpow. destruct s; cbn [cond_Zopp]; lia.
  - unfold Qeq. cbn [Qnum Qden].
    rewrite !Z2Pos.id by (apply Z.pow_pos_nonneg; lia).
    assert (Hpow : 2 ^ (- (e - k)) = 2 ^ k * 2 ^ (- e)).
    { rewrite <- Z.pow_add_r by lia. f_equal. lia. }
    rewrite Hm', Hpow. destruct s; cbn [cond_Zopp]; lia.
Qed.

Lemma value_normalize (s : bool) (r : positive) (e : Z) :
  fexp64 (digits r + e) <= e -> e <= 971 ->
  (float64.value (float64.normalize s (Zpos r) e)
   == float64.value (S754_finite s r e))%Q.
Proof.
  intros Hle Hmax. unfold float64.normalize.
  assert (Hround : binary_normalize float64.prec float64.emax (cond_Zopp s (Zpos r)) e s
                   = binary_round float64.prec float64.emax s r e)
    by (destruct s; reflexivity).
  rewrite Hround.
  destruct (binary_round_exact s r e Hle ltac:(lia)) as [m' [Hm' Hr]].
  rewrite Hr.
  replace (fexp64 (digits r + e)) with (e - (e - fexp64 (digits r + e))) at 1 by lia.
  apply value_shift; [lia|exact Hm'].
Qed.

(** [Modf] splits a float into its truncation toward zero and the
    remainder. *)
Lemma Modf_value (x : float64.t) :
  float64.is_finite x = true ->
  float64.valid x = true ->
  let v := float64.value x in
  let i := Qtrunc v in
  (float64.value (fst (float64.Modf x)) == inject_Z i)%Q
  /\ (float64.value (snd (float64.Modf x)) == v - inject_Z i)%Q.
Proof.
  intros Hfin Hvalid. cbv zeta.
  destruct x as [s|s| |s m e]; try discriminate Hfin.
  - split; reflexivity.
  - unfold float64.Modf.
    destruct (Z.leb_spec 0 e) as [He|He].
    + set (n := cond_Zopp s (Zpos m * 2 ^ e)).
      assert (Hv : float64.value (S754_finite s m e) = inject_Z n).
      { unfold float64.value. apply Z.leb_le in He. now rewrite He. }
      cbn [fst snd]. rewrite Hv.
      assert (Hi : Qtrunc (inject_Z n) = n) by (unfold Qtrunc; simpl; apply Z.quot_1_r).
      rewrite Hi. split; [reflexivity|].
      unfold float64.value, Qeq, Qminus, Qplus, Qopp, inject_Z. cbn [Qnum Qden]. lia.
    + destruct (mantissa_bound s m e Hvalid) as [Hm Hrange].
      destruct (valid_finite s m e Hvalid) as [Hcanon _].
      assert (Hp : 0 < 2 ^ (- e)) by (apply Z.pow_pos_nonneg; lia).
      set (P := Z.to_pos (2 ^ (- e))).
      assert (HP : Zpos P = 2 ^ (- e)) by (apply Z2Pos.id; exact Hp).
      assert (Hv : float64.value (S754_finite s m e) = Qmake (cond_Zopp s (Zpos m)) P).
      { unfold float64.value. apply Z.leb_gt in He. now rewrite He. }
      cbn [fst snd]. rewrite Hv.
      remember (Zpos m / 2 ^ (- e)) as q eqn:Hq.
      remember (Zpos m mod 2 ^ (- e)) as r eqn:Hr.
      pose proof (Z.div_mod (Zpos m) (2 ^ (- e)) ltac:(lia)) as Hdm.
      rewrite <- Hq, <- Hr in Hdm.
      pose proof (Z.mod_pos_bound (Zpos m) (2 ^ (- e)) Hp) as Hrb. rewrite <- Hr in Hrb.
      assert (Hq0 : 0 <= q) by (rewrite Hq; apply Z.div_pos; lia).
      assert (Hqm : q <= Zpos m).
      { rewrite Hq. apply Z.div_le_upper_bound; [exact Hp|]. nia. }
      assert (Hrm : r <= Zpos m) by (rewrite Hr; apply Z.mod_le; lia).
      assert (Hi : Qtrunc (cond_Zopp s (Zpos m) # P) = cond_Zopp s q).
      { unfold Qtrunc. cbn [Qnum Qden]. rewrite HP, Hq.
        destruct s; cbn [cond_Zopp].
        - rewrite Z.quot_opp_l by lia. f_equal. apply Z.quot_div_nonneg; lia.
        - apply Z.quot_div_nonneg; lia. }
      rewrite Hi. split.
      * destruct q as [|q'|q']; [destruct s; reflexivity| |lia].
        rewrite value_normalize.
        -- unfold float64.value. simpl (0 <=? 0). cbv iota.
           now rewrite Z.pow_0_r, Z.mul_1_r.
        -- assert (digits q' <= 53) by (apply digits_lt_pow2; lia).
           pose proof (digits_pos q'). rewrite fexp64_eq. lia.
        -- lia.
      * destruct r as [|r'|r']; [| |lia].
        -- replace (float64.normalize s 0 e) with (S754_zero s)
             by (unfold float64.normalize; destruct s; reflexivity).
           unfold float64.value, Qeq, Qminus, Qplus, Qopp, inject_Z. cbn [Qnum Qden].
           rewrite HP. destruct s; cbn [cond_Zopp]; lia.
        -- rewrite value_normalize.
           ++ unfold float64.value. apply Z.leb_gt in He. rewrite He. fold P.
              unfold Qeq, Qminus, Qplus, Qopp, inject_Z. cbn [Qnum Qden].
              rewrite Pos.mul_1_r, HP. destruct s; cbn [cond_Zopp]; nia.
           ++ assert (Hdle : digits r' <= digits m) by (apply digits_le; lia).
              rewrite fexp64_eq in *. lia.
           ++ lia.
Qed.

(** C9 (amended): for every finite float [x] whose integer part fits Go's
    [int], [FixedFloat x] splits [x] into its integer part [i] and the
    fractional remainder [f] by truncation toward zero ([math.Modf] returns
    the two, exactly), and produces [i] shifted left 8 bits OR'd with
    [floor (|f| * 256)] in the low 8 bits, converted to [int32]: the
    fraction bits are the truncated, not the rounded, value of [|f| * 256]. *)
Theorem FixedFloat_truncates (x : float64.t) :
  float64.is_finite x = true ->
  float64.valid x = true ->
  let v := float64.value x in
  let i := Qtrunc v in
  let f := (v - inject_Z i)%Q in
  let bits := Qfloor (Qabs f * 256) in
  GoInt.MinInt <= i <= GoInt.MaxInt ->
  (float64.value (fst (float64.Modf x)) == inject_Z i)%Q
  /\ (float64.value (snd (float64.Modf x)) == f)%Q
  /\ 0 <= bits < 256
  /\ FixedFloat x = GoInt.int32 (Z.lor (GoInt.int (Z.shiftl i 8)) bits).
Proof.
  intros Hfin Hvalid v i f bits Hrange.
  destruct (Modf_value x Hfin Hvalid) as [Hi Hf].
  destruct (FixedFloat_bits x Hfin Hvalid Hrange) as [Hb Heq].
  split; [exact Hi|]. split; [exact Hf|]. split; [exact Hb|exact Heq].
Qed.

(** C9, as stated, fails: for 0.3 the product [|f| * 256] is about 76.8;
    rounding gives 77, but the conversion to [int] cuts it down to 76. *)
Lemma FixedFloat_does_not_round :
  float64.is_finite three_tenths = true
  /\ float64.valid three_tenths = true
  /\ FixedFloat three_tenths = 76
  /\ from_float_as_stated three_tenths = 77
  /\ FixedFloat three_tenths <> from_float_as_stated three_tenths.
Proof. vm_compute. repeat split; discriminate. Qed.

(** * Further properties *)

(** ** Host-order words *)

Lemma byte_to_Z_range (b : byte) : 0 <= byte_to_Z b < 256.
Proof.
  unfold byte_to_Z. pose proof (Byte.to_N_bounded b). lia.
Qed.

Lemma byte_to_of_Z (z : Z) : byte_to_Z (byte_of_Z z) = z mod 256.
Proof.
  unfold byte_of_Z, byte_to_Z.
  pose proof (Z.mod_pos_bound z 256 ltac:(lia)) as Hb.
  destruct (Byte.of_N (Z.to_N (z mod 256))) as [b|] eqn:Hof.
  - rewrite (Byte.to_of_N _ Hof). lia.
  - apply Byte.of_N_None_iff in Hof. lia.
Qed.

(** Low bits below a shifted word: or-ing is adding. *)
Lemma lor_low_shift (b x k : Z) :
  0 <= k -> 0 <= b < 2 ^ k -> Z.lor b (Z.shiftl x k) = b + 2 ^ k * x.
Proof.
  intros Hk Hb.
  assert (Hdisjoint : Z.land b (Z.shiftl x k) = 0).
  { apply Z.bits_inj'. intros n Hn.
    rewrite Z.land_spec, Z.bits_0.
    destruct (Z.lt_ge_cases n k) as [Hlt|Hge].
    - rewrite Z.shiftl_spec_low by exact Hlt. apply andb_false_r.
    - assert (Hbit : Z.testbit b n = false).
      { destruct (Z.eq_dec b 0) as [->|Hnz]; [apply Z.bits_0|].
        apply Z.bits_above_log2; [lia|].
        apply Z.lt_le_trans with k; [|exact Hge].
        apply Z.log2_lt_pow2; lia. }
      now rewrite Hbit. }
  rewrite <- Z.lxor_lor, <- Z.add_nocarry_lxor, Z.shiftl_mul_pow2 by assumption.
  lia.
Qed.

Lemma lor_byte_shift (b x : Z) :
  0 <= b < 256 -> Z.lor b (Z.shiftl x 8) = b + 256 * x.
Proof. intros Hb. now apply (lor_low_shift b x 8). Qed.

Lemma le_combine_cons (b : byte) (bs : list byte) :
  le_combine (b :: bs) = byte_to_Z b + 256 * le_combine bs.
Proof. cbn [le_combine]. apply lor_byte_shift, byte_to_Z_range. Qed.

Lemma le_combine_range (bs : list byte) :
  0 <= le_combine bs < 256 ^ len bs.
Proof.
  unfold len. induction bs as [|b bs IH].
  - simpl. lia.
  - rewrite le_combine_cons. cbn [length]. rewrite Nat2Z.inj_succ, Z.pow_succ_r by lia.
    pose proof (byte_to_Z_range b). lia.
Qed.

Lemma le_combine_split (n : nat) (z : Z) :
  le_combine (le_split n z) = z mod 256 ^ Z.of_nat n.
Proof.
  revert z. induction n as [|n IH]; intros z.
  - simpl. now rewrite Z.mod_1_r.
  - cbn [le_split]. rewrite le_combine_cons, byte_to_of_Z, IH.
    rewrite Z.shiftr_div_pow2 by lia. change (2 ^ 8) with 256.
    rewrite Nat2Z.inj_succ, Z.pow_succ_r by lia.
    symmetry. apply Z.rem_mul_r; [lia|]. apply Z.pow_pos_nonneg; lia.
Qed.

Lemma length_le_split (n : nat) (z : Z) : length (le_split n z) = n.
Proof. revert z. induction n as [|n IH]; intros z; simpl; [reflexivity|now rewrite IH]. Qed.

Lemma length_PutUint32 (order : ByteOrder) (v : Z) : length (PutUint32 order v) = 4%nat.
Proof. destruct order; unfold PutUint32; rewrite ?length_rev; apply length_le_split. Qed.

(** A word read back in the order it was stored in. *)
Lemma Uint32_PutUint32 (order : ByteOrder) (v : Z) :
  Uint32 order (PutUint32 order v) = GoInt.uint32 v.
Proof.
  unfold Uint32, PutUint32. destruct order; rewrite ?rev_involutive;
    apply (le_combine_split 4).
Qed.

Lemma Uint32_range (order : ByteOrder) (bs : list byte) :
  length bs = 4%nat -> 0 <= Uint32 order bs < 2 ^ 32.
Proof.
  intros Hlen. unfold Uint32.
  destruct order.
  - pose proof (le_combine_range bs) as H. unfold len in H. rewrite Hlen in H. exact H.
  - pose proof (le_combine_range (rev bs)) as H. unfold len in H.
    rewrite length_rev, Hlen in H. exact H.
Qed.

(** ** Scalar arguments *)

Lemma int32_range (z : Z) : - 2 ^ 31 <= GoInt.int32 z < 2 ^ 31.
Proof.
  unfold GoInt.int32, GoInt.wrap_signed.
  pose proof (Z.mod_pos_bound (z + 2 ^ (32 - 1)) (2 ^ 32) ltac:(lia)). lia.
Qed.

Lemma int32_uint32 (v : Z) : - 2 ^ 31 <= v < 2 ^ 31 -> GoInt.int32 (GoInt.uint32 v) = v.
Proof.
  intros Hv. unfold GoInt.int32, GoInt.uint32, GoInt.wrap_signed, GoInt.wrap_unsigned.
  rewrite Z.add_mod_idemp_l by lia.
  rewrite Z.mod_small; lia.
Qed.

Lemma set_data_same (buf : MessageBuffer) : set_data buf (data buf) = buf.
Proof. now destruct buf. Qed.

Lemma advance_0 (r : bytes.Reader) : bytes.advance r 0 = r.
Proof. destruct r. unfold bytes.advance; simpl. now rewrite Nat.add_0_r. Qed.

Section ScalarFacts.

Variable byteOrder : ByteOrder.

(** X1: with four bytes left, a decode into [*uint32], [*int32] or [*Fixed]
    succeeds, consumes exactly those four bytes and stores the word they
    spell in host order, read as unsigned or as two's complement; the
    result is within the range of its type. *)
Theorem Decode_scalar (buf : MessageBuffer) (prefix more : list byte) (old : Z) :
  bytes.rest (data buf) = prefix ++ more ->
  length prefix = 4%nat ->
  let w := Uint32 byteOrder prefix in
  let buf' := set_data buf (bytes.advance (data buf) 4) in
  Decode byteOrder buf (VUint32 old) = (Nil, buf', VUint32 w)
  /\ Decode byteOrder buf (VInt32 old) = (Nil, buf', VInt32 (GoInt.int32 w))
  /\ Decode byteOrder buf (VFixed old) = (Nil, buf', VFixed (GoInt.int32 w))
  /\ consumed buf buf' = 4
  /\ 0 <= w < 2 ^ 32
  /\ - 2 ^ 31 <= GoInt.int32 w < 2 ^ 31.
Proof.
  intros Hrest Hlen w buf'.
  unfold Decode, read_int32.
  rewrite (read_uint32_enough byteOrder _ _ _ Hrest Hlen).
  split; [reflexivity|]. split; [reflexivity|]. split; [reflexivity|].
  split; [apply consumed_advance|].
  split; [apply (Uint32_range byteOrder prefix Hlen)|apply int32_range].
Qed.

(** X2: what [write] stored, [Decode] reads back: a payload that starts
    with the bytes written for a [uint32] (an [int32], a [Fixed]) decodes to
    that value. *)
Theorem Decode_write_roundtrip (buf : MessageBuffer) (tail : list byte) (old : Z) :
  (forall v : Z,
     0 <= v < 2 ^ 32 ->
     bytes.rest (data buf) = fst (write_uint32 byteOrder [] v) ++ tail ->
     Decode byteOrder buf (VUint32 old)
     = (Nil, set_data buf (bytes.advance (data buf) 4), VUint32 v))
  /\ (forall v : Z,
        - 2 ^ 31 <= v < 2 ^ 31 ->
        bytes.rest (data buf) = fst (write_int32 byteOrder [] v) ++ tail ->
        Decode byteOrder buf (VInt32 old)
        = (Nil, set_data buf (bytes.advance (data buf) 4), VInt32 v)
        /\ Decode byteOrder buf (VFixed old)
           = (Nil, set_data buf (bytes.advance (data buf) 4), VFixed v)).
Proof.
  split.
  - intros v Hv Hrest. cbn [write_uint32 fst app] in Hrest.
    unfold Decode.
    rewrite (read_uint32_enough byteOrder _ _ _ Hrest (length_PutUint32 _ _)).
    rewrite Uint32_PutUint32, uint32_small by exact Hv. reflexivity.
  - intros v Hv Hrest. cbn [write_int32 fst app] in Hrest.
    unfold Decode, read_int32.
    rewrite (read_uint32_enough byteOrder _ _ _ Hrest (length_PutUint32 _ _)).
    rewrite Uint32_PutUint32.
    rewrite (uint32_small (GoInt.uint32 v)) by (apply Z.mod_pos_bound; lia).
    rewrite int32_uint32 by exact Hv. split; reflexivity.
Qed.

Lemma read_uint32_exhausted (r : bytes.Reader) :
  bytes.rest r = [] -> read_uint32 byteOrder r = (inr EOF, r).
Proof.
  intros H. unfold read_uint32. rewrite ReadFull_exhausted by (auto; lia). reflexivity.
Qed.

Lemma read_uint32_partial (r : bytes.Reader) :
  bytes.rest r <> [] -> (length (bytes.rest r) < 4)%nat ->
  read_uint32 byteOrder r
  = (inr ErrUnexpectedEOF, bytes.advance r (length (bytes.rest r))).
Proof.
  intros Hne Hlt. unfold read_uint32. rewrite ReadFull_partial by assumption. reflexivity.
Qed.

(** X3: with fewer than four bytes left, a decode of a scalar, a string or
    a byte array fails and leaves the target as it was: with EOF and an
    untouched buffer when nothing is left, and with ErrUnexpectedEOF, the
    cursor at the end of the payload, when one to three bytes are left. *)
Theorem Decode_short_payload (buf : MessageBuffer) (val : value) :
  (length (bytes.rest (data buf)) < 4)%nat ->
  match val with VFile _ | VNewID _ | VSlice _ _ => False | _ => True end ->
  (bytes.rest (data buf) = [] ->
   Decode byteOrder buf val = (Failed EOF, buf, val))
  /\ (bytes.rest (data buf) <> [] ->
      Decode byteOrder buf val
      = (Failed ErrUnexpectedEOF,
         set_data buf (bytes.advance (data buf) (length (bytes.rest (data buf)))),
         val)
      /\ bytes.rest (bytes.advance (data buf) (length (bytes.rest (data buf)))) = []).
Proof.
  intros Hlt Hval. split.
  - intros Hnil.
    destruct val; try contradiction; unfold Decode, read_int32;
      rewrite (read_uint32_exhausted _ Hnil), set_data_same; reflexivity.
  - intros Hne. split.
    + destruct val; try contradiction; unfold Decode, read_int32;
        rewrite (read_uint32_partial _ Hne Hlt); reflexivity.
    + rewrite rest_advance. apply skipn_all.
Qed.

End ScalarFacts.

(** ** What a decode leaves alone *)

Lemma Len_advance (r : bytes.Reader) (k : nat) :
  bytes.Len (bytes.advance r k) = (bytes.Len r - k)%nat.
Proof. unfold bytes.Len. now rewrite rest_advance, length_skipn. Qed.

Lemma moved_refl (r : bytes.Reader) : moved r r.
Proof. exists O. split; [symmetry; apply advance_0|lia]. Qed.

Lemma moved_advance (r : bytes.Reader) (k : nat) :
  (k <= bytes.Len r)%nat -> moved r (bytes.advance r k).
Proof. intros H. exists k. split; [reflexivity|exact H]. Qed.

Lemma moved_trans (r r1 r2 : bytes.Reader) : moved r r1 -> moved r1 r2 -> moved r r2.
Proof.
  intros [j [-> Hj]] [k [-> Hk]]. rewrite Len_advance in Hk.
  exists (j + k)%nat. split; [apply advance_advance|lia].
Qed.

Lemma Read_moved (r : bytes.Reader) (n : nat) :
  let '(got, _, r') := bytes.Read r n in
  r' = bytes.advance r (length got) /\ (length got <= bytes.Len r)%nat.
Proof.
  unfold bytes.Read. destruct (length (bytes.s r) <=? bytes.i r)%nat.
  - split; [symmetry; apply advance_0|simpl; lia].
  - split; [reflexivity|]. unfold bytes.Len. rewrite length_firstn. lia.
Qed.

Lemma ReadFull_moved (r : bytes.Reader) (n : nat) :
  let '(_, _, r') := io.ReadFull r n in moved r r'.
Proof.
  unfold io.ReadFull. destruct n as [|n]; [apply moved_refl|].
  pose proof (Read_moved r (S n)) as H1.
  destruct (bytes.Read r (S n)) as [[got err] r1]. destruct H1 as [-> Hlen].
  destruct err; [now apply moved_advance|].
  destruct (S n <=? length got)%nat; [now apply moved_advance|].
  pose proof (Read_moved (bytes.advance r (length got)) (S n - length got)) as H2.
  destruct (bytes.Read (bytes.advance r (length got)) (S n - length got))
    as [[got2 err2] r2].
  destruct H2 as [-> Hlen2].
  apply moved_trans with (bytes.advance r (length got)); now apply moved_advance.
Qed.

Lemma CopyN_moved (r : bytes.Reader) (n : Z) :
  let '(_, _, r') := io.CopyN r n in moved r r'.
Proof.
  unfold io.CopyN.
  set (got := if len (bytes.rest r) <=? n then bytes.rest r
              else firstn (Z.to_nat n) (bytes.rest r)).
  assert (Hlen : (length got <= bytes.Len r)%nat).
  { unfold got, bytes.Len. destruct (len (bytes.rest r) <=? n); [lia|].
    rewrite length_firstn. lia. }
  destruct (len got =? n); [|destruct (len got <? n)]; now apply moved_advance.
Qed.

Section FrameFacts.

Variable byteOrder : ByteOrder.

Lemma read_uint32_moved (r : bytes.Reader) :
  let '(_, r') := read_uint32 byteOrder r in moved r r'.
Proof.
  unfold read_uint32. pose proof (ReadFull_moved r 4) as H.
  destruct (io.ReadFull r 4) as [[bs err] r']. now destruct err.
Qed.

(** The whole effect of a decode on the buffer: the cursor moves forward
    over unread bytes, a descriptor decode may change the index, and that
    is all. *)
Lemma Decode_effect (buf : MessageBuffer) (val : value) :
  let '(_, buf', _) := Decode byteOrder buf val in
  exists (r' : bytes.Reader) (j : Z),
    buf' = mkMessageBuffer (sender buf) (op buf) (size buf) r' (fds buf) j
    /\ moved (data buf) r'
    /\ match val with
       | VFile _ => r' = data buf
       | _ => j = fdindex buf
       end.
Proof.
  assert (Hsame : forall r', moved (data buf) r' ->
            exists (r'' : bytes.Reader) (j : Z),
              set_data buf r' = mkMessageBuffer (sender buf) (op buf) (size buf) r'' (fds buf) j
              /\ moved (data buf) r'' /\ j = fdindex buf).
  { intros r' Hm. exists r', (fdindex buf). repeat split. exact Hm. }
  assert (Hid : exists (r'' : bytes.Reader) (j : Z),
              buf = mkMessageBuffer (sender buf) (op buf) (size buf) r'' (fds buf) j
              /\ moved (data buf) r'' /\ j = fdindex buf).
  { exists (data buf), (fdindex buf). split; [now destruct buf|].
    split; [apply moved_refl|reflexivity]. }
  destruct val as [v|v|v|v|b|f|v|elem v]; unfold Decode, read_int32.
  - pose proof (read_uint32_moved (data buf)) as H.
    destruct (read_uint32 byteOrder (data buf)) as [[w|e] d]; now apply Hsame.
  - pose proof (read_uint32_moved (data buf)) as H.
    destruct (read_uint32 byteOrder (data buf)) as [[w|e] d]; now apply Hsame.
  - pose proof (read_uint32_moved (data buf)) as H.
    destruct (read_uint32 byteOrder (data buf)) as [[w|e] d]; now apply Hsame.
  - pose proof (read_uint32_moved (data buf)) as H.
    destruct (read_uint32 byteOrder (data buf)) as [[w|e] d]; [|now apply Hsame].
    pose proof (CopyN_moved d (GoInt.uint32 (w + w mod (32 / 8)))) as H2.
    destruct (io.CopyN d (GoInt.uint32 (w + w mod (32 / 8)))) as [[str err] d'].
    assert (Hm : moved (data buf) d') by (now apply moved_trans with d).
    destruct err; [now apply Hsame|]. cbv zeta.
    destruct (len str <=? GoInt.uint32 (w - 1)); [now apply Hsame|].
    destruct (Byte.eqb _ _); now apply Hsame.
  - pose proof (read_uint32_moved (data buf)) as H.
    destruct (read_uint32 byteOrder (data buf)) as [[w|e] d]; [|now apply Hsame].
    cbv zeta.
    destruct (len (elems b) <? GoInt.uint32 (w + w mod (32 / 8))); [now apply Hsame|].
    pose proof (ReadFull_moved d (length (elems b))) as H2.
    destruct (io.ReadFull d (length (elems b))) as [[got err] d'].
    assert (Hm : moved (data buf) d') by (now apply moved_trans with d).
    destruct err; [now apply Hsame|].
    destruct (reslice (fill b got) w); now apply Hsame.
  - destruct (fdindex buf >=? len (fds buf)).
    + destruct Hid as [r'' [j [Hb [Hm Hj]]]].
      exists (data buf), (fdindex buf). split; [now destruct buf|].
      split; [apply moved_refl|reflexivity].
    + destruct (if fdindex buf <? 0 then None
                else nth_error (fds buf) (Z.to_nat (fdindex buf))).
      * exists (data buf), (GoInt.int (fdindex buf + 1)).
        split; [reflexivity|]. split; [apply moved_refl|reflexivity].
      * exists (data buf), (fdindex buf). split; [now destruct buf|].
        split; [apply moved_refl|reflexivity].
  - exact Hid.
  - exact Hid.
Qed.

(** X4: whatever the target and the outcome, a decode leaves the sender,
    the opcode, the declared size, the descriptor list and the payload
    bytes as they were. *)
Theorem Decode_keeps_envelope (buf : MessageBuffer) (val : value) :
  let '(_, buf', _) := Decode byteOrder buf val in
  sender buf' = sender buf
  /\ op buf' = op buf
  /\ size buf' = size buf
  /\ fds buf' = fds buf
  /\ bytes.s (data buf') = bytes.s (data buf).
Proof.
  pose proof (Decode_effect buf val) as H.
  destruct (Decode byteOrder buf val) as [[out buf'] v'].
  destruct H as [r' [j [-> [[k [-> _]] _]]]]. repeat split.
Qed.

(** X5: the cursor only moves forward, and by no more than the bytes still
    unread: a cursor inside the payload stays inside it. *)
Theorem Decode_cursor (buf : MessageBuffer) (val : value) :
  let '(_, buf', _) := Decode byteOrder buf val in
  0 <= consumed buf buf' <= Z.of_nat (bytes.Len (data buf))
  /\ ((bytes.i (data buf) <= length (bytes.s (data buf)))%nat ->
      (bytes.i (data buf') <= length (bytes.s (data buf')))%nat).
Proof.
  pose proof (Decode_effect buf val) as H.
  destruct (Decode byteOrder buf val) as [[out buf'] v'].
  destruct H as [r' [j [-> [[k [-> Hk]] _]]]].
  unfold consumed. cbn [data bytes.advance bytes.i bytes.s].
  unfold bytes.Len, bytes.rest in Hk. rewrite length_skipn in Hk.
  unfold bytes.Len, bytes.rest. rewrite length_skipn.
  split; lia.
Qed.

(** X6: only a descriptor decode moves the descriptor index, and a
    descriptor decode does not touch the payload cursor. *)
Theorem Decode_descriptor_index (buf : MessageBuffer) (val : value) :
  let '(_, buf', _) := Decode byteOrder buf val in
  match val with
  | VFile _ => data buf' = data buf
  | _ => fdindex buf' = fdindex buf
  end.
Proof.
  pose proof (Decode_effect buf val) as H.
  destruct (Decode byteOrder buf val) as [[out buf'] v'].
  destruct H as [r' [j [-> [_ H]]]].
  destruct val; exact H.
Qed.

End FrameFacts.

(** ** When a string decode panics *)

Lemma string_index_arith (L : Z) :
  0 <= L < 2 ^ 32 ->
  (GoInt.uint32 (L + L mod 4) <= GoInt.uint32 (L - 1) <-> L = 0 \/ 2 ^ 32 - 2 <= L).
Proof.
  intros HL.
  destruct (Z.eq_dec L 0) as [->|Hnz]; [split; [now left|intros _; vm_compute; discriminate]|].
  destruct (Z.eq_dec L (2 ^ 32 - 2)) as [->|H2];
    [split; [right; lia|intros _; vm_compute; discriminate]|].
  destruct (Z.eq_dec L (2 ^ 32 - 1)) as [->|H1];
    [split; [right; lia|intros _; vm_compute; discriminate]|].
  rewrite (uint32_small (L - 1)) by lia.
  assert (Hfit : 0 <= L + L mod 4 < 2 ^ 32).
  { pose proof (Z.div_mod L 4 ltac:(lia)). pose proof (Z.mod_pos_bound L 4 ltac:(lia)). lia. }
  rewrite uint32_small by exact Hfit.
  pose proof (Z.mod_pos_bound L 4 ltac:(lia)). lia.
Qed.

(** X7: the length prefixes that crash a string decode.  Once the four
    bytes of the length [L] are read, [Decode] panics (indexing the copied
    string out of range) exactly when the bytes behind the prefix suffice
    for the copy and [L] is 0, [2^32 - 2] or [2^32 - 1]; every other input
    makes it return. *)
Theorem Decode_string_panics_iff
  (byteOrder : ByteOrder) (buf : MessageBuffer) (old prefix more : list byte) :
  bytes.rest (data buf) = prefix ++ more ->
  length prefix = 4%nat ->
  let L := Uint32 byteOrder prefix in
  let want := GoInt.uint32 (L + L mod 4) in
  ((exists p, fst (fst (Decode byteOrder buf (VString old))) = Panicked p)
   <-> want <= len more /\ (L = 0 \/ 2 ^ 32 - 2 <= L))
  /\ (forall p, fst (fst (Decode byteOrder buf (VString old))) = Panicked p ->
      p = IndexOutOfRange (GoInt.uint32 (L - 1)) want).
Proof.
  intros Hrest Hlen L want.
  pose proof (Uint32_range byteOrder prefix Hlen) as HL. fold L in HL.
  rewrite (Decode_string_unfold byteOrder buf old prefix more Hrest Hlen).
  fold L. fold want.
  assert (Hd : bytes.rest (bytes.advance (data buf) 4) = more).
  { rewrite rest_advance, Hrest, <- Hlen. apply skipn_prefix. }
  assert (Hwant : 0 <= want) by (apply Z.mod_pos_bound; lia).
  destruct (Z.le_gt_cases want (len more)) as [Hle|Hgt].
  - (* the copy succeeds *)
    set (pre := firstn (Z.to_nat want) more).
    assert (Hpre : len pre = want).
    { unfold pre, len in *. rewrite length_firstn. lia. }
    assert (Hsplit : bytes.rest (bytes.advance (data buf) 4) = pre ++ skipn (Z.to_nat want) more).
    { rewrite Hd. unfold pre. symmetry. apply firstn_skipn. }
    replace (io.CopyN (bytes.advance (data buf) 4) want)
      with (io.CopyN (bytes.advance (data buf) 4) (len pre)) by (now rewrite Hpre).
    rewrite (CopyN_enough _ _ _ Hsplit). cbv zeta. rewrite Hpre.
    pose proof (string_index_arith L HL) as Harith. fold want in Harith.
    destruct (Z.leb_spec want (GoInt.uint32 (L - 1))) as [Hidx|Hidx].
    + split.
      * split; [intros _; split; [exact Hle|now apply Harith]|].
        intros _. eexists. reflexivity.
      * intros p Hp. cbn [fst] in Hp. now inversion Hp.
    + assert (Hno : ~ (L = 0 \/ 2 ^ 32 - 2 <= L)) by (intros H; apply Harith in H; lia).
      destruct (Byte.eqb _ _); cbn [fst].
      * split; [split; [intros [p Hp]; discriminate Hp|tauto]|intros p Hp; discriminate Hp].
      * split; [split; [intros [p Hp]; discriminate Hp|tauto]|intros p Hp; discriminate Hp].
  - (* the copy comes short *)
    rewrite CopyN_short by (rewrite Hd; exact Hgt). cbn [fst].
    split; [split; [intros [p Hp]; discriminate Hp|lia]|intros p Hp; discriminate Hp].
Qed.

(** ** Fixed: integer and fraction *)

Lemma Int_div (f : Fixed) : Int f = f / 256.
Proof. unfold Int. now rewrite Z.shiftr_div_pow2 by lia. Qed.

Lemma Frac_mod (f : Fixed) : Frac f = f mod 256.
Proof.
  unfold Frac, GoInt.uint32, GoInt.wrap_unsigned.
  change 255 with (Z.ones 8). rewrite Z.land_ones by lia.
  apply Z.mod_mod_divide. exists (2 ^ 24). reflexivity.
Qed.

(** X8: every [Fixed] splits into its parts: [f = 256 * Int f + Frac f]
    with the fraction in [0, 256) and the integer part in 24 bits; the
    integer part is the floor of [f / 256], also for negative values. *)
Theorem Fixed_parts (f : Fixed) :
  - 2 ^ 31 <= f < 2 ^ 31 ->
  f = 256 * Int f + Frac f
  /\ 0 <= Frac f < 256
  /\ - 2 ^ 23 <= Int f < 2 ^ 23
  /\ Int f = f / 256
  /\ Frac f = f mod 256.
Proof.
  intros Hf. rewrite Int_div, Frac_mod.
  pose proof (Z.div_mod f 256 ltac:(lia)).
  pose proof (Z.mod_pos_bound f 256 ltac:(lia)).
  repeat split; lia.
Qed.

Lemma int32_int (x : Z) : GoInt.int32 (GoInt.int x) = GoInt.int32 x.
Proof.
  unfold GoInt.int32, GoInt.int, GoInt.wrap_signed.
  f_equal.
  pose proof (Z.div_mod (x + 2 ^ (64 - 1)) (2 ^ 64) ltac:(lia)) as Hdm.
  remember ((x + 2 ^ (64 - 1)) / 2 ^ 64) as q eqn:Hq.
  replace ((x + 2 ^ (64 - 1)) mod 2 ^ 64 - 2 ^ (64 - 1) + 2 ^ (32 - 1))
    with (x + 2 ^ (32 - 1) + (- q * 2 ^ 32) * 2 ^ 32) by lia.
  apply Z.mod_add. lia.
Qed.

(** X9: [FixedInt] keeps the low 24 bits of its argument: the fraction of
    the result is always 0, and its integer part is [n] wrapped to 24-bit
    two's complement, so that [n] comes back exactly when it fits 24 bits. *)
Theorem FixedInt_wraps (n : Z) :
  FixedInt n = 256 * GoInt.wrap_signed 24 n
  /\ Frac (FixedInt n) = 0
  /\ Int (FixedInt n) = GoInt.wrap_signed 24 n
  /\ (Int (FixedInt n) = n <-> - 2 ^ 23 <= n < 2 ^ 23).
Proof.
  assert (H : FixedInt n = 256 * GoInt.wrap_signed 24 n).
  { unfold FixedInt. rewrite int32_int, Z.shiftl_mul_pow2 by lia.
    unfold GoInt.int32, GoInt.wrap_signed.
    replace (n * 2 ^ 8 + 2 ^ (32 - 1)) with (2 ^ 8 * (n + 2 ^ (24 - 1))) by lia.
    change (2 ^ 32) with (2 ^ 8 * 2 ^ 24).
    rewrite Z.mul_mod_distr_l by lia. lia. }
  assert (Hw : - 2 ^ 23 <= GoInt.wrap_signed 24 n < 2 ^ 23).
  { unfold GoInt.wrap_signed.
    pose proof (Z.mod_pos_bound (n + 2 ^ (24 - 1)) (2 ^ 24) ltac:(lia)). lia. }
  pose proof (Int_div (FixedInt n)) as Hi. pose proof (Frac_mod (FixedInt n)) as Hr.
  rewrite H in Hi, Hr.
  assert (Hfrac : Frac (FixedInt n) = 0).
  { rewrite H, Hr, Z.mul_comm. apply Z.mod_mul. lia. }
  assert (Hint : Int (FixedInt n) = GoInt.wrap_signed 24 n).
  { rewrite H, Hi, Z.mul_comm. apply Z.div_mul. lia. }
  split; [exact H|]. split; [exact Hfrac|]. split; [exact Hint|].
  rewrite Hint. split.
  - intros Heq. rewrite <- Heq. exact Hw.
  - intros Hn. unfold GoInt.wrap_signed. rewrite Z.mod_small; lia.
Qed.

(** ** Floats that need no rounding *)

Lemma shl_align_fst (m : positive) (e ez : Z) :
  ez <= e -> Zpos (fst (shl_align m e ez)) = Zpos m * 2 ^ (e - ez).
Proof.
  intros Hle. unfold shl_align.
  destruct (ez - e) as [|d|d] eqn:Hd; cbn [fst].
  - replace (e - ez) with 0 by lia. lia.
  - lia.
  - rewrite iter_xO_pow2. f_equal. f_equal. lia.
Qed.

(** [binary_normalize] of a number [x * 2^e] that binary64 holds exactly:
    the mantissa [a] is [x] moved to the exponent [F] of its magnitude. *)
Lemma normalize_exact (x e a : Z) (sz : bool) :
  x <> 0 ->
  let F := fexp64 (digits (Z.to_pos (Z.abs x)) + e) in
  F <= 971 -> 0 < a ->
  (F <= e -> a = Z.abs x * 2 ^ (e - F)) ->
  (e <= F -> Z.abs x = a * 2 ^ (F - e)) ->
  binary_normalize float64.prec float64.emax x e sz
  = S754_finite (x <? 0) (Z.to_pos a) F.
Proof.
  intros Hx F HF Ha Hlow Hhigh.
  assert (Hround : forall (s : bool) (p : positive),
            Z.abs x = Zpos p ->
            binary_round float64.prec float64.emax s p e = S754_finite s (Z.to_pos a) F).
  { intros s p Hp. unfold F in *. rewrite Hp in *. cbn [Z.to_pos] in *.
    destruct (Z.le_gt_cases (fexp64 (digits p + e)) e) as [Hle|Hgt].
    - destruct (binary_round_exact s p e Hle HF) as [m' [Hm' Hr]].
      rewrite Hr. f_equal. rewrite (Hlow Hle), <- Hm'. reflexivity.
    - unfold binary_round, shl_align.
      change (fexp float64.prec float64.emax (Zpos (digits2_pos p) + e))
        with (fexp64 (digits p + e)).
      destruct (fexp64 (digits p + e) - e) as [|d|d] eqn:Hd; [lia| |lia].
      rewrite (binary_round_aux_exact s p (Z.to_pos a) e (Zpos d)).
      + f_equal. lia.
      + lia.
      + rewrite Z2Pos.id by exact Ha. apply Hhigh. lia.
      + lia. }
  destruct x as [|p|p]; [contradiction| |].
  - apply (Hround false p). reflexivity.
  - apply (Hround true p). reflexivity.
Qed.

(** The float of [x * 2^-8] for an [x] of at most 53 bits. *)
Lemma normalize_scaled (x : Z) (sz : bool) :
  x <> 0 -> Z.abs x < 2 ^ 53 ->
  let F := digits (Z.to_pos (Z.abs x)) - 61 in
  binary_normalize float64.prec float64.emax x (-8) sz
  = S754_finite (x <? 0) (Z.to_pos (Z.abs x * 2 ^ (-8 - F))) F.
Proof.
  intros Hx Hb F.
  assert (Hd : 0 < digits (Z.to_pos (Z.abs x)) <= 53).
  { split; [apply digits_pos|]. apply digits_lt_pow2; [lia|].
    rewrite Z2Pos.id by lia. exact Hb. }
  assert (HF : fexp64 (digits (Z.to_pos (Z.abs x)) + -8) = F)
    by (rewrite fexp64_eq; unfold F; lia).
  rewrite <- HF.
  apply normalize_exact.
  - exact Hx.
  - rewrite HF. unfold F. lia.
  - apply Z.mul_pos_pos; [lia|]. apply Z.pow_pos_nonneg; [lia|]. rewrite HF. unfold F. lia.
  - intros _. rewrite HF. reflexivity.
  - intros Hle. rewrite HF in Hle |- *.
    assert (HF8 : F = -8) by (unfold F in *; lia).
    rewrite HF8. change (2 ^ (-8 - -8)) with 1. change (2 ^ (-8 - -8)) with 1. lia.
Qed.

(** The float of an integer of at most 53 bits, in the same terms. *)
Lemma of_int_scaled (i : Z) :
  i <> 0 -> Z.abs i < 2 ^ 45 ->
  float64.of_int i
  = binary_normalize float64.prec float64.emax (256 * i) (-8) false.
Proof.
  intros Hi Hb.
  rewrite normalize_scaled by lia.
  assert (Hdig : digits (Z.to_pos (Z.abs (256 * i))) = digits (Z.to_pos (Z.abs i)) + 8).
  { apply digits_mul_pow2; [lia|]. rewrite !Z2Pos.id by lia. lia. }
  assert (Hd : 0 < digits (Z.to_pos (Z.abs i)) <= 45).
  { split; [apply digits_pos|]. apply digits_lt_pow2; [lia|].
    rewrite Z2Pos.id by lia. exact Hb. }
  rewrite Hdig.
  set (F := digits (Z.to_pos (Z.abs i)) + 8 - 61).
  assert (HF : fexp64 (digits (Z.to_pos (Z.abs i)) + 0) = F)
    by (rewrite fexp64_eq; unfold F; lia).
  unfold float64.of_int.
  rewrite (normalize_exact i 0 (Z.abs i * 2 ^ (0 - F)) false).
  - rewrite HF. replace (256 * i <? 0) with (i <? 0)
      by (destruct (Z.ltb_spec i 0), (Z.ltb_spec (256 * i) 0); lia || reflexivity).
    f_equal. f_equal.
    replace (Z.abs (256 * i)) with (Z.abs i * 2 ^ 8) by lia.
    rewrite <- Z.mul_assoc, <- Z.pow_add_r by (unfold F; lia).
    f_equal. f_equal. lia.
  - exact Hi.
  - rewrite HF. unfold F. lia.
  - apply Z.mul_pos_pos; [lia|]. apply Z.pow_pos_nonneg; [lia|]. unfold F. lia.
  - intros _. rewrite HF. reflexivity.
  - intros Hle. rewrite HF in Hle. unfold F in Hle. lia.
Qed.

Lemma mul_scaled (n : Z) :
  0 < n < 2 ^ 45 ->
  float64.mul (float64.of_int n) float64.Exp2_minus8
  = binary_normalize float64.prec float64.emax n (-8) false.
Proof.
  intros Hn.
  assert (Hd : 0 < digits (Z.to_pos (Z.abs n)) <= 45).
  { split; [apply digits_pos|]. apply digits_lt_pow2; [lia|].
    rewrite Z2Pos.id by lia. lia. }
  rewrite normalize_scaled by lia.
  set (F := digits (Z.to_pos (Z.abs n)) - 61) in *.
  assert (HF0 : fexp64 (digits (Z.to_pos (Z.abs n)) + 0) = F + 8)
    by (rewrite fexp64_eq; unfold F; lia).
  assert (Hpos : 0 < Z.abs n * 2 ^ (-8 - F)).
  { apply Z.mul_pos_pos; [lia|]. apply Z.pow_pos_nonneg; [lia|]. unfold F. lia. }
  unfold float64.of_int.
  rewrite (normalize_exact n 0 (Z.abs n * 2 ^ (-8 - F)) false).
  - rewrite HF0.
    replace (n <? 0) with false by (symmetry; apply Z.ltb_ge; lia).
    set (mb := Z.to_pos (Z.abs n * 2 ^ (-8 - F))).
    assert (Hmb : Zpos mb = Z.abs n * 2 ^ (-8 - F)) by (apply Z2Pos.id; exact Hpos).
    cbn [float64.mul SFmul float64.Exp2_minus8 xorb].
    assert (Hdmb : digits mb = digits (Z.to_pos (Z.abs n)) + (-8 - F)).
    { apply digits_mul_pow2; [unfold F; lia|]. rewrite Hmb, Z2Pos.id by lia. reflexivity. }
    assert (HdM : digits (mb * 4503599627370496)%positive = digits mb + 52)
      by (apply digits_mul_pow2; [lia|reflexivity]).
    rewrite (binary_round_aux_exact false (mb * 4503599627370496) mb (F + 8 + -60) 52).
    + f_equal. lia.
    + rewrite HdM, Hdmb, fexp64_eq. unfold F. lia.
    + reflexivity.
    + unfold F. lia.
  - lia.
  - rewrite HF0. unfold F. lia.
  - exact Hpos.
  - intros _. rewrite HF0. f_equal. f_equal. lia.
  - intros Hle. rewrite HF0 in Hle. unfold F in Hle. lia.
Qed.

Lemma SFadd_finite (sx sy : bool) (mx my : positive) (ex ey : Z) :
  float64.add (S754_finite sx mx ex) (S754_finite sy my ey)
  = binary_normalize float64.prec float64.emax
      (cond_Zopp sx (Zpos mx * 2 ^ (ex - Z.min ex ey))
       + cond_Zopp sy (Zpos my * 2 ^ (ey - Z.min ex ey)))
      (Z.min ex ey) false.
Proof.
  unfold float64.add, SFadd.
  rewrite !shl_align_fst by lia. reflexivity.
Qed.

(** [Float f] is the float [binary_normalize] builds for [f * 2^-8]. *)
Lemma Float_repr (f : Fixed) :
  - 2 ^ 31 <= f < 2 ^ 31 ->
  Float f = binary_normalize float64.prec float64.emax f (-8) false.
Proof.
  intros Hf.
  assert (Hsum : f = 256 * Int f + Frac f).
  { rewrite Int_div, Frac_mod. apply Z.div_mod. lia. }
  assert (Hfrac : 0 <= Frac f < 256) by (rewrite Frac_mod; apply Z.mod_pos_bound; lia).
  assert (Hint : - 2 ^ 23 <= Int f < 2 ^ 23).
  { rewrite Int_div in *. rewrite Frac_mod in *. lia. }
  { unfold Float. cbv zeta.
    remember (Int f) as i eqn:Hi. remember (Frac f) as fr eqn:Hfr.
    destruct (Z.eq_dec fr 0) as [Hz|Hnz].
    - (* no fraction *)
      rewrite Hz in *. cbn [float64.of_int binary_normalize float64.mul SFmul
                            float64.Exp2_minus8 float64.Abs SFabs xorb].
      destruct (Z.eq_dec i 0) as [Hi0|Hi0].
      + rewrite Hi0 in *. replace f with 0 by lia. reflexivity.
      + change (binary_normalize float64.prec float64.emax i 0 false)
          with (float64.of_int i).
        rewrite of_int_scaled by lia.
        replace f with (256 * i) by lia.
        rewrite normalize_scaled by lia. reflexivity.
    - (* a fraction *)
      rewrite mul_scaled by lia.
      assert (HB : float64.Abs (binary_normalize float64.prec float64.emax fr (-8) false)
                   = binary_normalize float64.prec float64.emax fr (-8) false).
      { rewrite normalize_scaled by lia.
        replace (fr <? 0) with false by (symmetry; apply Z.ltb_ge; lia). reflexivity. }
      rewrite HB.
      destruct (Z.eq_dec i 0) as [Hi0|Hi0].
      + rewrite Hi0 in *. replace f with fr by lia.
        rewrite normalize_scaled by lia. reflexivity.
      + rewrite of_int_scaled by lia.
        rewrite (normalize_scaled (256 * i)) by lia.
        rewrite (normalize_scaled fr) by lia.
        set (Fa := digits (Z.to_pos (Z.abs (256 * i))) - 61).
        set (Fb := digits (Z.to_pos (Z.abs fr)) - 61).
        assert (Hda : 0 < digits (Z.to_pos (Z.abs (256 * i))) <= 32).
        { split; [apply digits_pos|]. apply digits_lt_pow2; [lia|].
          rewrite Z2Pos.id by lia. lia. }
        assert (Hdb : 0 < digits (Z.to_pos (Z.abs fr)) <= 8).
        { split; [apply digits_pos|]. apply digits_lt_pow2; [lia|].
          rewrite Z2Pos.id by lia. lia. }
        assert (Hfnz : f <> 0) by lia.
        assert (Hdf : 0 < digits (Z.to_pos (Z.abs f)) <= 32).
        { split; [apply digits_pos|]. apply digits_lt_pow2; [lia|].
          rewrite Z2Pos.id by lia. lia. }
        rewrite SFadd_finite.
        rewrite !Z2Pos.id
          by (apply Z.mul_pos_pos; [lia|apply Z.pow_pos_nonneg; [lia|unfold Fa, Fb; lia]]).
        replace (fr <? 0) with false by (symmetry; apply Z.ltb_ge; lia).
        cbn [cond_Zopp].
        set (ez := Z.min Fa Fb).
        assert (Hez : ez <= Fa /\ ez <= Fb /\ ez <= -53) by (unfold ez, Fa, Fb; lia).
        assert (HZ : cond_Zopp (256 * i <? 0) (Z.abs (256 * i) * 2 ^ (-8 - Fa) * 2 ^ (Fa - ez))
                     + Z.abs fr * 2 ^ (-8 - Fb) * 2 ^ (Fb - ez)
                     = f * 2 ^ (-8 - ez)).
        { rewrite <- !Z.mul_assoc, <- !Z.pow_add_r by (unfold Fa, Fb in *; lia).
          replace (-8 - Fa + (Fa - ez)) with (-8 - ez) by lia.
          replace (-8 - Fb + (Fb - ez)) with (-8 - ez) by lia.
          assert (Hs : cond_Zopp (256 * i <? 0) (Z.abs (256 * i) * 2 ^ (-8 - ez))
                       = 256 * i * 2 ^ (-8 - ez)).
          { destruct (Z.ltb_spec (256 * i) 0); cbn [cond_Zopp]; nia. }
          rewrite Hs. replace (Z.abs fr) with fr by lia. lia. }
        rewrite HZ.
        assert (Hp : 0 < 2 ^ (-8 - ez)) by (apply Z.pow_pos_nonneg; lia).
        assert (Hx : f * 2 ^ (-8 - ez) <> 0) by nia.
        assert (Habs : Z.abs (f * 2 ^ (-8 - ez)) = Z.abs f * 2 ^ (-8 - ez))
          by (rewrite Z.abs_mul; f_equal; lia).
        assert (Hdz : digits (Z.to_pos (Z.abs (f * 2 ^ (-8 - ez))))
                      = digits (Z.to_pos (Z.abs f)) + (-8 - ez)).
        { apply digits_mul_pow2; [lia|]. rewrite !Z2Pos.id by lia. exact Habs. }
        set (F := digits (Z.to_pos (Z.abs f)) - 61).
        assert (HF : fexp64 (digits (Z.to_pos (Z.abs (f * 2 ^ (-8 - ez)))) + ez) = F).
        { rewrite Hdz, fexp64_eq. unfold F. lia. }
        assert (Hapos : 0 < Z.abs f * 2 ^ (-8 - F)).
        { apply Z.mul_pos_pos; [lia|]. apply Z.pow_pos_nonneg; [lia|]. unfold F. lia. }
        rewrite (normalize_exact (f * 2 ^ (-8 - ez)) ez (Z.abs f * 2 ^ (-8 - F)) false).
        * rewrite HF. rewrite normalize_scaled by lia. fold F.
          f_equal. destruct (Z.ltb_spec (f * 2 ^ (-8 - ez)) 0), (Z.ltb_spec f 0);
            try reflexivity; nia.
        * exact Hx.
        * rewrite HF. unfold F. lia.
        * exact Hapos.
        * rewrite HF. intros Hle. rewrite Habs, <- Z.mul_assoc, <- Z.pow_add_r by (unfold F in *; lia).
          f_equal. f_equal. lia.
        * rewrite HF. intros Hle. rewrite Habs, <- Z.mul_assoc, <- Z.pow_add_r by (unfold F in *; lia).
          f_equal. f_equal. lia. }
Qed.

(** X10: [Float] is exact: for every [Fixed] value [f] the result is the
    binary64 number [f / 256], with no rounding. *)
Theorem Float_exact (f : Fixed) :
  - 2 ^ 31 <= f < 2 ^ 31 ->
  (float64.value (Float f) == f # 256)%Q
  /\ float64.valid (Float f) = true
  /\ float64.is_finite (Float f) = true.
Proof.
  intros Hf.
  rewrite (Float_repr f Hf).
  destruct (Z.eq_dec f 0) as [->|Hnz]; [repeat split; reflexivity|].
  rewrite normalize_scaled by lia.
  assert (Hdf : 0 < digits (Z.to_pos (Z.abs f)) <= 32).
  { split; [apply digits_pos|]. apply digits_lt_pow2; [lia|].
    rewrite Z2Pos.id by lia. lia. }
  set (F := digits (Z.to_pos (Z.abs f)) - 61).
  assert (Hneg : (0 <=? F) = false) by (apply Z.leb_gt; unfold F; lia).
  split; [|split; [|reflexivity]].
  - unfold float64.value. rewrite Hneg.
    unfold Qeq. cbn [Qnum Qden].
    rewrite !Z2Pos.id
      by (try (apply Z.mul_pos_pos; [lia|]); apply Z.pow_pos_nonneg; unfold F; lia).
    assert (Hpow : 2 ^ (- F) = 2 ^ (-8 - F) * 256).
    { change 256 with (2 ^ 8). rewrite <- Z.pow_add_r by (unfold F; lia). f_equal. lia. }
    rewrite Hpow.
    destruct (Z.ltb_spec f 0); cbn [cond_Zopp]; nia.
  - unfold float64.valid, valid_binary, bounded, canonical_mantissa.
    change (fexp float64.prec float64.emax
              (Zpos (digits2_pos (Z.to_pos (Z.abs f * 2 ^ (-8 - F)))) + F))
      with (fexp64 (digits (Z.to_pos (Z.abs f * 2 ^ (-8 - F))) + F)).
    assert (Hda : digits (Z.to_pos (Z.abs f * 2 ^ (-8 - F)))
                  = digits (Z.to_pos (Z.abs f)) + (-8 - F)).
    { apply digits_mul_pow2; [unfold F; lia|].
      rewrite !Z2Pos.id; [reflexivity|lia|].
      apply Z.mul_pos_pos; [lia|]. apply Z.pow_pos_nonneg; unfold F; lia. }
    apply andb_true_intro. split.
    + apply Z.eqb_eq. rewrite Hda, fexp64_eq. unfold F. lia.
    + apply Z.leb_le. unfold float64.emax, float64.prec, F. lia.
Qed.

(** ** Conversions between [Fixed] and floats *)

Lemma pack_parts (q r : Z) :
  - 2 ^ 23 <= q < 2 ^ 23 -> 0 <= r < 256 ->
  GoInt.int32 (Z.lor (GoInt.int (Z.shiftl q 8)) r) = 256 * q + r.
Proof.
  intros Hq Hr.
  assert (Hs : Z.shiftl q 8 = 256 * q) by (rewrite Z.shiftl_mul_pow2; lia).
  rewrite int_small by (rewrite Hs; unfold GoInt.MinInt, GoInt.MaxInt; lia).
  rewrite Z.lor_comm, lor_byte_shift by exact Hr.
  rewrite int32_small; lia.
Qed.

(** X11: converting a [Fixed] to a float and back.  [FixedFloat (Float f)]
    is [f] for every [f >= 0]; for a negative [f] it is
    [f + 2 * ((- f) mod 256)], so that [f] comes back exactly when it has no
    fraction bits. *)
Theorem FixedFloat_Float (f : Fixed) :
  - 2 ^ 31 <= f < 2 ^ 31 ->
  FixedFloat (Float f) = (if 0 <=? f then f else f + 2 * ((- f) mod 256))
  /\ (FixedFloat (Float f) = f <-> 0 <= f \/ f mod 256 = 0).
Proof.
  intros Hf.
  assert (Hval : FixedFloat (Float f) = if 0 <=? f then f else f + 2 * ((- f) mod 256)).
  { rewrite (Float_repr f Hf).
    destruct (Z.eq_dec f 0) as [->|Hnz]; [reflexivity|].
    rewrite normalize_scaled by lia.
    assert (Hdf : 0 < digits (Z.to_pos (Z.abs f)) <= 32).
    { split; [apply digits_pos|]. apply digits_lt_pow2; [lia|].
      rewrite Z2Pos.id by lia. lia. }
    set (F := digits (Z.to_pos (Z.abs f)) - 61).
    set (c := 2 ^ (-8 - F)).
    assert (Hc : 0 < c) by (apply Z.pow_pos_nonneg; unfold F; lia).
    assert (Hpow : 2 ^ (- F) = 256 * c).
    { unfold c. change 256 with (2 ^ 8). rewrite <- Z.pow_add_r by (unfold F; lia).
      f_equal. lia. }
    set (a := Z.to_pos (Z.abs f * c)).
    assert (Ha : Zpos a = Z.abs f * c) by (apply Z2Pos.id; nia).
    assert (Hvalid : float64.valid (S754_finite (f <? 0) a F) = true).
    { unfold float64.valid, valid_binary, bounded, canonical_mantissa.
      change (fexp float64.prec float64.emax (Zpos (digits2_pos a) + F))
        with (fexp64 (digits a + F)).
      assert (Hda : digits a = digits (Z.to_pos (Z.abs f)) + (-8 - F)).
      { apply digits_mul_pow2; [unfold F; lia|]. rewrite Ha, Z2Pos.id by lia. reflexivity. }
      apply andb_true_intro. split.
      - apply Z.eqb_eq. rewrite Hda, fexp64_eq. unfold F. lia.
      - apply Z.leb_le. unfold float64.emax, float64.prec, F. lia. }
    rewrite FixedFloat_fraction by (try exact Hvalid; unfold F; lia).
    rewrite Ha, Hpow.
    assert (Hq : Z.abs f * c / (256 * c) = Z.abs f / 256)
      by (apply Z.div_mul_cancel_r; lia).
    assert (Hr : (Z.abs f * c) mod (256 * c) * 256 / (256 * c) = Z.abs f mod 256).
    { rewrite Z.mul_mod_distr_r by lia.
      replace (Z.abs f mod 256 * c * 256) with (Z.abs f mod 256 * (256 * c)) by lia.
      apply Z.div_mul. lia. }
    rewrite Hq, Hr.
    pose proof (Z.div_mod (Z.abs f) 256 ltac:(lia)) as Hdm.
    pose proof (Z.mod_pos_bound (Z.abs f) 256 ltac:(lia)) as Hrb.
    assert (Hqb : 0 <= Z.abs f / 256 <= 2 ^ 23).
    { split; [apply Z.div_pos; lia|]. apply Z.div_le_upper_bound; lia. }
    assert (Hqp : 0 <= f -> Z.abs f / 256 < 2 ^ 23).
    { intros H0. apply Z.div_lt_upper_bound; lia. }
    destruct (Z.ltb_spec f 0) as [Hneg|Hpos]; cbn [cond_Zopp].
    - rewrite pack_parts by lia.
      replace (0 <=? f) with false by (symmetry; apply Z.leb_gt; lia).
      replace (- f) with (Z.abs f) by lia. lia.
    - rewrite pack_parts by lia.
      replace (0 <=? f) with true by (symmetry; apply Z.leb_le; lia).
      replace (Z.abs f) with f in * by lia. lia. }
  split; [exact Hval|].
  rewrite Hval.
  destruct (Z.leb_spec 0 f) as [Hpos|Hneg].
  - split; [intros _; left; exact Hpos|reflexivity].
  - pose proof (Z.mod_pos_bound (- f) 256 ltac:(lia)) as Hb.
    split.
    + intros Heq. right.
      assert (Hz : (- f) mod 256 = 0) by lia.
      apply Z.mod_divide in Hz; [|lia]. apply Z.mod_divide; [lia|].
      destruct Hz as [k Hk]. exists (- k). lia.
    + intros [Hp|Hz]; [lia|].
      apply Z.mod_divide in Hz; [|lia]. destruct Hz as [k Hk].
      assert (Hz' : (- f) mod 256 = 0).
      { apply Z.mod_divide; [lia|]. exists (- k). lia. }
      lia.
Qed.

(** X12: on integers [FixedFloat] agrees with [FixedInt]: for an integer
    [n] of at most 53 bits, [FixedFloat (float64 n) = FixedInt n]. *)
Theorem FixedFloat_of_int (n : Z) :
  Z.abs n < 2 ^ 53 -> FixedFloat (float64.of_int n) = FixedInt n.
Proof.
  intros Hn.
  destruct (Z.eq_dec n 0) as [->|Hnz]; [reflexivity|].
  assert (Hd : 0 < digits (Z.to_pos (Z.abs n)) <= 53).
  { split; [apply digits_pos|]. apply digits_lt_pow2; [lia|].
    rewrite Z2Pos.id by lia. exact Hn. }
  set (F := fexp64 (digits (Z.to_pos (Z.abs n)) + 0)).
  assert (HF : F = digits (Z.to_pos (Z.abs n)) - 53) by (unfold F; rewrite fexp64_eq; lia).
  assert (Hc : 0 < 2 ^ (0 - F)) by (apply Z.pow_pos_nonneg; lia).
  unfold float64.of_int.
  rewrite (normalize_exact n 0 (Z.abs n * 2 ^ (0 - F)) false);
    [ | exact Hnz | fold F; lia | nia | intros _; reflexivity | fold F; intros Hle ].
  2:{ assert (F = 0) as -> by lia. change (2 ^ (0 - 0)) with 1. lia. }
  fold F.
  set (a := Z.to_pos (Z.abs n * 2 ^ (0 - F))).
  assert (Ha : Zpos a = Z.abs n * 2 ^ (0 - F)) by (apply Z2Pos.id; nia).
  assert (Hsigned : cond_Zopp (n <? 0) (Z.abs n) = n)
    by (destruct (Z.ltb_spec n 0); cbn [cond_Zopp]; lia).
  unfold FixedInt.
  destruct (Z.eq_dec F 0) as [HF0|HF0].
  - rewrite HF0 in *. rewrite FixedFloat_integer by lia.
    unfold float64.to_int, float64.dyadic_floor. cbv zeta.
    rewrite Ha. change (2 ^ (0 - 0)) with 1. change (2 ^ 0) with 1.
    change (0 <=? 0) with true. cbv iota.
    rewrite !Z.mul_1_r, Hsigned.
    rewrite in_int_range by (unfold GoInt.MinInt, GoInt.MaxInt; lia).
    now rewrite Z.lor_0_r.
  - assert (Hvalid : float64.valid (S754_finite (n <? 0) a F) = true).
    { unfold float64.valid, valid_binary, bounded, canonical_mantissa.
      change (fexp float64.prec float64.emax (Zpos (digits2_pos a) + F))
        with (fexp64 (digits a + F)).
      assert (Hda : digits a = digits (Z.to_pos (Z.abs n)) + (0 - F)).
      { apply digits_mul_pow2; [lia|]. rewrite Ha, Z2Pos.id by lia. reflexivity. }
      apply andb_true_intro. split.
      - apply Z.eqb_eq. rewrite Hda, fexp64_eq. lia.
      - apply Z.leb_le. unfold float64.emax, float64.prec. lia. }
    rewrite FixedFloat_fraction by (try exact Hvalid; lia).
    rewrite Ha. replace (- F) with (0 - F) by lia.
    rewrite Z.div_mul, Z.mod_mul by lia.
    rewrite Hsigned. change (0 * 256 / 2 ^ (0 - F)) with 0.
    now rewrite Z.lor_0_r.
Qed.

(** X13: below 1 the sign is lost: for a finite [x] with [|x| < 1],
    [FixedFloat (-x) = FixedFloat x], a non-negative value below 256. *)
Theorem FixedFloat_small_ignores_sign (x : float64.t) :
  float64.is_finite x = true ->
  float64.valid x = true ->
  (Qabs (float64.value x) < 1)%Q ->
  FixedFloat (SFopp x) = FixedFloat x /\ 0 <= FixedFloat x < 256.
Proof.
  intros Hfin Hvalid Hsmall.
  destruct x as [s|s| |s m e]; try discriminate Hfin.
  - destruct s; vm_compute; repeat split; discriminate.
  - destruct (Z.leb_spec 0 e) as [He|He].
    + exfalso. unfold float64.value in Hsmall.
      apply Z.leb_le in He. rewrite He in Hsmall. apply Z.leb_le in He.
      unfold Qlt, Qabs, inject_Z in Hsmall. cbn [Qnum Qden] in Hsmall.
      assert (0 < Zpos m * 2 ^ e) by (apply Z.mul_pos_pos; [lia|apply Z.pow_pos_nonneg; lia]).
      destruct s; cbn [cond_Zopp] in Hsmall; lia.
    + assert (Hp : 0 < 2 ^ (- e)) by (apply Z.pow_pos_nonneg; lia).
      assert (Hm : Zpos m < 2 ^ (- e)).
      { unfold float64.value in Hsmall.
        assert (Hneg : (0 <=? e) = false) by (apply Z.leb_gt; exact He).
        rewrite Hneg in Hsmall.
        unfold Qlt, Qabs in Hsmall. cbn [Qnum Qden] in Hsmall.
        rewrite Z2Pos.id in Hsmall by exact Hp.
        destruct s; cbn [cond_Zopp] in Hsmall; lia. }
      assert (Hparts : forall s', FixedFloat (S754_finite s' m e) = Zpos m * 256 / 2 ^ (- e)).
      { intros s'. rewrite FixedFloat_fraction; [|exact Hvalid|exact He].
        rewrite Z.div_small, Z.mod_small by lia.
        replace (cond_Zopp s' 0) with 0 by (destruct s'; reflexivity).
        pose proof (fraction_bits_bound (Zpos m) e ltac:(lia) He) as Hb.
        change (GoInt.int (Z.shiftl 0 8)) with 0. rewrite Z.lor_0_l.
        apply int32_small. lia. }
      cbn [SFopp]. rewrite !Hparts.
      split; [reflexivity|]. apply fraction_bits_bound; [lia|exact He].
Qed.

(** ** Reading from the socket *)

(** The read loop hands over the next [n] bytes of the stream, whatever the
    packets they arrive in, and fails when the stream ends first; the
    control bytes of the packets it took are appended in arrival order. *)
Lemma read_loop_stream (conn : UnixConn) :
  forall (o : list byte) (n : nat),
    let '(got, err, t) := read_loop conn o n in
    got = firstn n (stream conn)
    /\ stream (c t) = skipn n (stream conn)
    /\ err = (if (n <=? length (stream conn))%nat then None
              else Some (Joined [OpError EOF]))
    /\ exists k : nat, oob t = o ++ flat_map pk_oob (firstn k conn).
Proof.
  induction conn as [|p conn' IH]; intros o n; destruct n as [|n].
  - cbn. repeat split. exists O. now rewrite app_nil_r.
  - cbn. repeat split. exists O. reflexivity.
  - cbn [read_loop c oob firstn skipn Nat.leb]. repeat split.
    exists O. cbn. now rewrite app_nil_r.
  - cbn [read_loop stream flat_map]. fold (stream conn').
    destruct (Nat.leb_spec (S n) (length (pk_data p))) as [Hle|Hgt].
    + unfold unixTee_Read, ReadMsgUnix. cbn [c oob errors_Join].
      split; [|split; [|split]].
      * rewrite firstn_app. replace (S n - length (pk_data p))%nat with O by lia.
        now rewrite firstn_O, app_nil_r.
      * rewrite skipn_app. replace (S n - length (pk_data p))%nat with O by lia.
        rewrite skipn_O.
        destruct (skipn (S n) (pk_data p)); reflexivity.
      * rewrite length_app.
        destruct (Nat.leb_spec (S n) (length (pk_data p) + length (stream conn')));
          [reflexivity|lia].
      * exists 1%nat. cbn. now rewrite app_nil_r.
    + specialize (IH (o ++ pk_oob p) (S n - length (pk_data p))%nat).
      destruct (read_loop conn' (o ++ pk_oob p) (S n - length (pk_data p)))
        as [[got2 err2] t2].
      destruct IH as [Hgot [Hrest [Herr [k Hk]]]].
      split; [|split; [|split]].
      * rewrite firstn_app, firstn_all2 by lia. now rewrite Hgot.
      * rewrite skipn_app, skipn_all2 by lia. exact Hrest.
      * rewrite Herr, length_app.
        destruct (Nat.leb_spec (S n - length (pk_data p)) (length (stream conn')));
          destruct (Nat.leb_spec (S n) (length (pk_data p) + length (stream conn')));
          try reflexivity; lia.
      * exists (S k). rewrite Hk. cbn [firstn flat_map]. now rewrite app_assoc.
Qed.

Lemma read_loop_no_control (conn : UnixConn) :
  no_control conn ->
  forall (o : list byte) (n : nat),
    let '(_, _, t) := read_loop conn o n in
    oob t = o /\ no_control (c t).
Proof.
  unfold no_control.
  induction conn as [|p conn' IH]; intros Hno o n; destruct n as [|n].
  - cbn. split; [reflexivity|constructor].
  - cbn. split; [apply app_nil_r|constructor].
  - cbn. split; [reflexivity|exact Hno].
  - inversion Hno as [|p' c' Hp Hc]; subst.
    cbn [read_loop].
    destruct (S n <=? length (pk_data p))%nat.
    + unfold unixTee_Read, ReadMsgUnix. cbn [c oob]. rewrite Hp, app_nil_r.
      split; [reflexivity|].
      destruct (skipn (S n) (pk_data p)); [exact Hc|].
      constructor; [reflexivity|exact Hc].
    + specialize (IH Hc (o ++ pk_oob p) (S n - length (pk_data p))%nat).
      destruct (read_loop conn' (o ++ pk_oob p) (S n - length (pk_data p)))
        as [[got2 err2] t2].
      rewrite Hp, app_nil_r in IH. exact IH.
Qed.


Lemma tee_ReadFull_cases (t : unixTee) (n : nat) :
  let '(got, err, t') := tee_ReadFull t n in
  ((n <= length (stream (c t)))%nat ->
   got = firstn n (stream (c t)) /\ err = None
   /\ stream (c t') = skipn n (stream (c t)))
  /\ ((length (stream (c t)) < n)%nat -> err = Some (Joined [OpError EOF]))
  /\ (no_control (c t) -> oob t' = oob t /\ no_control (c t')).
Proof.
  pose proof (read_loop_stream (c t) (oob t) n) as H1.
  pose proof (read_loop_no_control (c t)) as H3.
  unfold tee_ReadFull.
  destruct (read_loop (c t) (oob t) n) as [[got err] t'] eqn:Hloop.
  destruct H1 as [Hgot [Hrest [Herr _]]].
  split; [|split].
  - intros Hn. split; [exact Hgot|]. split; [|exact Hrest].
    assert (Hle : (n <=? length (stream (c t)))%nat = true) by (apply Nat.leb_le; exact Hn).
    rewrite Hle in Herr. subst err.
    unfold io.ReadAtLeast_err. rewrite Hgot, length_firstn, Nat.min_l by exact Hn.
    now rewrite Nat.leb_refl.
  - intros Hn.
    assert (Hf : (n <=? length (stream (c t)))%nat = false) by (apply Nat.leb_gt; exact Hn).
    rewrite Hf in Herr. subst err.
    unfold io.ReadAtLeast_err.
    assert (Hl : (n <=? length got)%nat = false).
    { apply Nat.leb_gt. rewrite Hgot, length_firstn. lia. }
    rewrite Hl. now destruct got.
  - intros Hno. specialize (H3 Hno (oob t) n). rewrite Hloop in H3. exact H3.
Qed.

Lemma tee_CopyN_cases (t : unixTee) (n : Z) :
  let '(got, err, t') := tee_CopyN t n in
  (n <= len (stream (c t)) ->
   got = firstn (Z.to_nat n) (stream (c t)) /\ err = None
   /\ stream (c t') = skipn (Z.to_nat n) (stream (c t)))
  /\ (len (stream (c t)) < n -> err = Some (Joined [OpError EOF]))
  /\ (no_control (c t) -> oob t' = oob t /\ no_control (c t')).
Proof.
  unfold tee_CopyN, len.
  destruct (Z.leb_spec n 0) as [Hle|Hgt].
  - replace (Z.to_nat n) with O by lia. cbn [firstn skipn].
    split; [auto|]. split; [lia|auto].
  - pose proof (read_loop_stream (c t) (oob t) (Z.to_nat n)) as H.
    pose proof (read_loop_no_control (c t)) as H3.
    destruct (read_loop (c t) (oob t) (Z.to_nat n)) as [[got err] t'] eqn:Hloop.
    destruct H as [Hgot [Hrest [Herr _]]].
    assert (Hlen : Z.of_nat (length got) = Z.min n (Z.of_nat (length (stream (c t))))).
    { rewrite Hgot, length_firstn. lia. }
    destruct (Z.eqb_spec (Z.of_nat (length got)) n) as [Heq|Hne].
    + split; [auto|]. split; [lia|].
      intros Hno. specialize (H3 Hno (oob t) (Z.to_nat n)). rewrite Hloop in H3. exact H3.
    + assert (Hshort : (Z.to_nat n <=? length (stream (c t)))%nat = false)
        by (apply Nat.leb_gt; lia).
      rewrite Hshort in Herr. subst err.
      split; [lia|]. split; [auto|].
      intros Hno. specialize (H3 Hno (oob t) (Z.to_nat n)). rewrite Hloop in H3. exact H3.
Qed.

Lemma header_word (w : Z) :
  0 <= w < 2 ^ 32 ->
  GoInt.uint16 (Z.shiftr w 16) = w / 2 ^ 16
  /\ GoInt.uint16 (Z.land w 65535) = w mod 2 ^ 16
  /\ w = 2 ^ 16 * (w / 2 ^ 16) + w mod 2 ^ 16
  /\ 0 <= w / 2 ^ 16 < 2 ^ 16
  /\ 0 <= w mod 2 ^ 16 < 2 ^ 16.
Proof.
  intros Hw. unfold GoInt.uint16, GoInt.wrap_unsigned.
  rewrite Z.shiftr_div_pow2 by lia.
  change 65535 with (Z.ones 16). rewrite Z.land_ones by lia.
  assert (Hq : 0 <= w / 2 ^ 16 < 2 ^ 16).
  { split; [apply Z.div_pos; lia|apply Z.div_lt_upper_bound; lia]. }
  pose proof (Z.mod_pos_bound w (2 ^ 16) ltac:(lia)) as Hr.
  rewrite Z.mod_small by exact Hq. rewrite Z.mod_mod by lia.
  repeat split; try lia. apply Z.div_mod. lia.
Qed.

Section FramingFacts.

Variable byteOrder : ByteOrder.
Variable SocketControlMessage : Type.
Variable ParseSocketControlMessage :
  list byte -> list SocketControlMessage + error.
Variable ParseUnixRights : SocketControlMessage -> list Z + error.

(** [ReadMessage] in terms of the stream: the three ways the reading of
    the bytes can fail, and what is handed to the parsing of the control
    bytes otherwise. *)
Lemma ReadMessage_stream (conn : UnixConn) :
  let st := stream conn in
  let w := Uint32 byteOrder (firstn 4 (skipn 4 st)) in
  let sz := w / 2 ^ 16 in
  let result := ReadMessage byteOrder SocketControlMessage
                  ParseSocketControlMessage ParseUnixRights conn in
  ((length st < 4)%nat ->
   fst result = inr (Wrapped "read message sender"%string (Joined [OpError EOF])))
  /\ ((4 <= length st < 8)%nat ->
      fst result
      = inr (Wrapped "read message size and opcode"%string (Joined [OpError EOF])))
  /\ ((8 <= length st)%nat -> len st - 8 < sz - 8 ->
      fst result = inr (Wrapped "copy data to buffer"%string (Joined [OpError EOF])))
  /\ ((8 <= length st)%nat -> sz - 8 <= len st - 8 ->
      exists (o : list byte) (conn' : UnixConn),
        stream conn' = skipn (8 + Z.to_nat (sz - 8)) st
        /\ (no_control conn -> o = [])
        /\ result =
           (match ParseSocketControlMessage o with
            | inr err => inr (Wrapped "parse socket control messages"%string err)
            | inl cmsgs =>
                match collect_fds SocketControlMessage ParseUnixRights cmsgs [] with
                | inr err => inr err
                | inl found =>
                    inl (mkMessageBuffer (Uint32 byteOrder (firstn 4 st))
                           (w mod 2 ^ 16) sz
                           (bytes.Reset (firstn (Z.to_nat (sz - 8)) (skipn 8 st)))
                           found 0)
                end
            end, conn')).
Proof.
  intros st w sz result. unfold result, ReadMessage.
  pose proof (tee_ReadFull_cases (mkTee conn []) 4) as H1.
  destruct (tee_ReadFull (mkTee conn []) 4) as [[b1 e1] r1].
  cbn [c oob] in H1. fold st in H1. destruct H1 as [H1ok [H1short H1no]].
  destruct (Nat.lt_ge_cases (length st) 4) as [Hlt4|Hge4].
  { rewrite (H1short Hlt4). cbn [fst].
    split; [reflexivity|]. split; [lia|]. split; lia. }
  destruct (H1ok Hge4) as [Hb1 [He1 Hs1]]. subst e1.
  pose proof (tee_ReadFull_cases r1 4) as H2.
  destruct (tee_ReadFull r1 4) as [[b2 e2] r2].
  rewrite Hs1 in H2. destruct H2 as [H2ok [H2short H2no]].
  assert (Hlen1 : length (skipn 4 st) = (length st - 4)%nat) by apply length_skipn.
  destruct (Nat.lt_ge_cases (length st) 8) as [Hlt8|Hge8].
  { rewrite (H2short ltac:(lia)). cbn [fst].
    split; [lia|]. split; [reflexivity|]. split; lia. }
  destruct (H2ok ltac:(lia)) as [Hb2 [He2 Hs2]]. subst e2.
  rewrite skipn_skipn in Hs2. cbn [Nat.add] in Hs2.
  assert (Hw : 0 <= w < 2 ^ 32).
  { apply Uint32_range. rewrite length_firstn, Hlen1. lia. }
  destruct (header_word w Hw) as [Hsize [Hop _]].
  rewrite Hb2. fold w. rewrite Hsize, Hop. fold sz.
  pose proof (tee_CopyN_cases r2 (sz - 8)) as H3.
  destruct (tee_CopyN r2 (sz - 8)) as [[payload e3] r3].
  rewrite Hs2 in H3. destruct H3 as [H3ok [H3short H3no]].
  assert (Hlen2 : len (skipn 8 st) = len st - 8).
  { unfold len. rewrite length_skipn. lia. }
  rewrite Hlen2 in H3ok, H3short.
  split; [lia|]. split; [lia|]. split.
  - intros _ Hshort. rewrite (H3short Hshort). reflexivity.
  - intros _ Hfit. destruct (H3ok Hfit) as [Hp [He3 Hs3]]. subst e3.
    exists (oob r3), (c r3).
    split; [rewrite Hs3, skipn_skipn; f_equal; lia|].
    split.
    + intros Hno. destruct (H1no Hno) as [Ho1 Hn1].
      destruct (H2no Hn1) as [Ho2 Hn2]. destruct (H3no Hn2) as [Ho3 _].
      rewrite Ho3, Ho2, Ho1. reflexivity.
    + rewrite Hb1, Hp.
      destruct (ParseSocketControlMessage (oob r3)) as [cmsgs|err]; [|reflexivity].
      destruct (collect_fds SocketControlMessage ParseUnixRights cmsgs []); reflexivity.
Qed.

End FramingFacts.

Section FramingTheorems.

Variable byteOrder : ByteOrder.
Variable SocketControlMessage : Type.
Variable ParseSocketControlMessage :
  list byte -> list SocketControlMessage + error.
Variable ParseUnixRights : SocketControlMessage -> list Z + error.

Let frame := ReadMessage byteOrder SocketControlMessage
               ParseSocketControlMessage ParseUnixRights.

(** X15: what an envelope says about the stream it was read from.  The
    stream held at least 8 bytes; the sender is its first word and the
    second word is [size * 2^16 + opcode], both in host order; the payload
    is the next [size - 8] bytes (none when [size < 8]), with the cursor and
    the descriptor index at 0; and the connection is left at the first byte
    behind the payload. *)
Theorem ReadMessage_frames (conn conn' : UnixConn) (mr : MessageBuffer) :
  frame conn = (inl mr, conn') ->
  let st := stream conn in
  let w := Uint32 byteOrder (firstn 4 (skipn 4 st)) in
  (8 <= length st)%nat
  /\ sender mr = Uint32 byteOrder (firstn 4 st)
  /\ w = 2 ^ 16 * size mr + op mr
  /\ 0 <= size mr < 2 ^ 16 /\ 0 <= op mr < 2 ^ 16
  /\ data mr = bytes.Reset (firstn (Z.to_nat (size mr - 8)) (skipn 8 st))
  /\ size mr - 8 <= len st - 8
  /\ fdindex mr = 0
  /\ stream conn' = skipn (8 + Z.to_nat (size mr - 8)) st.
Proof.
  intros Hframe st w.
  pose proof (ReadMessage_stream byteOrder SocketControlMessage
                ParseSocketControlMessage ParseUnixRights conn) as H.
  cbv zeta in H. fold frame st w in H. rewrite Hframe in H. cbn [fst] in H.
  destruct H as [H4 [H8 [Hshort Hok]]].
  assert (Hge : (8 <= length st)%nat).
  { destruct (Nat.lt_ge_cases (length st) 4) as [Hlt|Hge4]; [discriminate (H4 Hlt)|].
    destruct (Nat.lt_ge_cases (length st) 8) as [Hlt|Hge8]; [discriminate (H8 (conj Hge4 Hlt))|].
    exact Hge8. }
  assert (Hfit : w / 2 ^ 16 - 8 <= len st - 8).
  { destruct (Z.le_gt_cases (w / 2 ^ 16 - 8) (len st - 8)) as [Hle|Hgt]; [exact Hle|].
    discriminate (Hshort Hge Hgt). }
  destruct (Hok Hge Hfit) as [o [c' [Hrest [_ Heq]]]].
  assert (Hw : 0 <= w < 2 ^ 32).
  { apply Uint32_range. rewrite length_firstn, length_skipn. lia. }
  destruct (header_word w Hw) as [_ [_ [Hsum [Hq Hr]]]].
  destruct (ParseSocketControlMessage o) as [cmsgs|err]; [|discriminate].
  destruct (collect_fds SocketControlMessage ParseUnixRights cmsgs []) as [found|err];
    [|discriminate].
  inversion Heq; subst mr conn'. cbn [sender op size data fdindex].
  repeat split; try assumption; try lia.
Qed.

(** X16: a stream that ends too early is a framing error, never a short
    envelope: with fewer than 4 bytes the sender cannot be read, with fewer
    than 8 the size and opcode cannot, and with fewer bytes behind the
    header than it declares the copy fails; each error wraps the end of the
    stream. *)
Theorem ReadMessage_truncated (conn : UnixConn) :
  let st := stream conn in
  let sz := Uint32 byteOrder (firstn 4 (skipn 4 st)) / 2 ^ 16 in
  ((length st < 4)%nat ->
   fst (frame conn)
   = inr (Wrapped "read message sender"%string (Joined [OpError EOF])))
  /\ ((4 <= length st < 8)%nat ->
      fst (frame conn)
      = inr (Wrapped "read message size and opcode"%string (Joined [OpError EOF])))
  /\ ((8 <= length st)%nat -> len st < sz ->
      fst (frame conn)
      = inr (Wrapped "copy data to buffer"%string (Joined [OpError EOF]))).
Proof.
  intros st sz.
  pose proof (ReadMessage_stream byteOrder SocketControlMessage
                ParseSocketControlMessage ParseUnixRights conn) as H.
  cbv zeta in H. fold frame st sz in H.
  destruct H as [H4 [H8 [Hshort _]]].
  split; [exact H4|]. split; [exact H8|].
  intros Hge Hlt. apply Hshort; [exact Hge|lia].
Qed.

(** X17: a message laid out with [write] is read back, however the socket
    cuts the stream.  When the stream starts with the bytes of a message
    (sender, [size << 16 | opcode], payload) and carries no control data,
    [ReadMessage] returns that sender, opcode and payload with
    [size = 8 + len payload] and no descriptors, and leaves the connection
    at the first byte of what follows. *)
Theorem ReadMessage_wire_message
  (conn : UnixConn) (from opcode : Z) (payload rest : list byte) :
  ParseSocketControlMessage [] = inl [] ->
  no_control conn ->
  0 <= from < 2 ^ 32 -> 0 <= opcode < 2 ^ 16 -> 8 + len payload < 2 ^ 16 ->
  stream conn = wire_message byteOrder from opcode payload ++ rest ->
  exists conn' : UnixConn,
    frame conn
    = (inl (mkMessageBuffer from opcode (8 + len payload)
              (bytes.Reset payload) [] 0), conn')
    /\ stream conn' = rest.
Proof.
  intros Hparse Hno Hfrom Hop Hsize Hst.
  unfold wire_message, write_uint32 in Hst. cbn [fst app] in Hst.
  rewrite <- !app_assoc in Hst.
  set (word := Z.lor (Z.shiftl (8 + len payload) 16) opcode) in *.
  assert (Hword : word = opcode + 2 ^ 16 * (8 + len payload)).
  { unfold word. rewrite Z.lor_comm. apply lor_low_shift; lia. }
  assert (Hlenp : 0 <= len payload) by (unfold len; lia).
  pose proof (length_PutUint32 byteOrder from) as Hl1.
  pose proof (length_PutUint32 byteOrder word) as Hl2.
  assert (H1 : firstn 4 (stream conn) = PutUint32 byteOrder from).
  { rewrite Hst, <- Hl1. apply firstn_prefix. }
  assert (H2 : skipn 4 (stream conn) = PutUint32 byteOrder word ++ payload ++ rest).
  { rewrite Hst, <- Hl1. apply skipn_prefix. }
  assert (H3 : firstn 4 (skipn 4 (stream conn)) = PutUint32 byteOrder word).
  { rewrite H2, <- Hl2. apply firstn_prefix. }
  assert (H4 : skipn 8 (stream conn) = payload ++ rest).
  { change 8%nat with (4 + 4)%nat. rewrite <- skipn_skipn, H2, <- Hl2. apply skipn_prefix. }
  assert (Hlen : length (stream conn) = (8 + length payload + length rest)%nat).
  { rewrite Hst, !length_app, Hl1, Hl2. lia. }
  pose proof (ReadMessage_stream byteOrder SocketControlMessage
                ParseSocketControlMessage ParseUnixRights conn) as H.
  cbv zeta in H. fold frame in H.
  rewrite H1, H3, !Uint32_PutUint32, H4 in H.
  rewrite (uint32_small from) in H by exact Hfrom.
  rewrite (uint32_small word) in H by (rewrite Hword; lia).
  assert (Hq : word / 2 ^ 16 = 8 + len payload).
  { rewrite Hword, Z.mul_comm, Z.div_add by lia. rewrite Z.div_small by lia. lia. }
  assert (Hr : word mod 2 ^ 16 = opcode).
  { rewrite Hword, Z.mul_comm, Z.mod_add by lia. apply Z.mod_small. lia. }
  rewrite Hq, Hr in H.
  destruct H as [_ [_ [_ Hok]]].
  destruct Hok as [o [conn' [Hrest [Ho Heq]]]]; [lia|unfold len in *; lia|].
  rewrite (Ho Hno), Hparse in Heq. cbn [collect_fds] in Heq.
  exists conn'. split.
  - rewrite Heq.
    replace (8 + len payload - 8) with (len payload) by lia.
    unfold len. rewrite Nat2Z.id, firstn_prefix. reflexivity.
  - rewrite Hrest, Hst.
    replace (8 + len payload - 8) with (len payload) by lia.
    unfold len. rewrite Nat2Z.id.
    rewrite !app_assoc, <- (app_assoc _ _ payload).
    replace (8 + length payload)%nat
      with (length ((PutUint32 byteOrder from ++ PutUint32 byteOrder word) ++ payload))
      by (rewrite !length_app, Hl1, Hl2; lia).
    rewrite <- app_assoc. rewrite app_assoc.
    apply skipn_prefix.
Qed.

(** X18: the descriptors of an envelope.  The loop over the control
    messages appends the descriptors of every rights record, in the order
    the records and their descriptors come, and skips the records that
    [ParseUnixRights] rejects with EINVAL; the first record rejected for
    another reason ends the read with that error, wrapped. *)
Theorem collect_fds_order (cmsgs : list SocketControlMessage) (acc : list Z) :
  let accepted m :=
    match ParseUnixRights m with
    | inl _ => True
    | inr err => is_EINVAL err = true
    end in
  let rights m :=
    match ParseUnixRights m with
    | inl found => found
    | inr _ => []
    end in
  (Forall accepted cmsgs ->
   collect_fds SocketControlMessage ParseUnixRights cmsgs acc
   = inl (acc ++ flat_map rights cmsgs))
  /\ (forall before m after err,
        cmsgs = before ++ m :: after ->
        Forall accepted before ->
        ParseUnixRights m = inr err -> is_EINVAL err = false ->
        collect_fds SocketControlMessage ParseUnixRights cmsgs acc
        = inr (Wrapped "parse unix control message"%string err)).
Proof.
  intros accepted rights.
  assert (Hok : forall l a, Forall accepted l ->
            forall tl, collect_fds SocketControlMessage ParseUnixRights (l ++ tl) a
            = collect_fds SocketControlMessage ParseUnixRights tl (a ++ flat_map rights l)).
  { induction l as [|m l IH]; intros a Hall tl.
    - cbn. now rewrite app_nil_r.
    - inversion Hall as [|m' l' Hm Hl]; subst.
      cbn [app collect_fds flat_map]. unfold accepted in Hm. unfold rights at 1.
      destruct (ParseUnixRights m) as [found|err].
      + rewrite IH by exact Hl. now rewrite app_assoc.
      + rewrite Hm, IH by exact Hl. reflexivity. }
  split.
  - intros Hall. rewrite <- (app_nil_r cmsgs) at 1. rewrite Hok by exact Hall. reflexivity.
  - intros before m after err -> Hall Hm Hne.
    rewrite Hok by exact Hall. cbn [collect_fds]. now rewrite Hm, Hne.
Qed.

End FramingTheorems.

(** ** Arguments decoded in a row *)

Lemma nth_error_skipn {A : Type} (l : list A) (k : nat) (x : A) :
  nth_error l k = Some x -> skipn k l = x :: skipn (S k) l.
Proof.
  revert k. induction l as [|a l IH]; intros k H; destruct k as [|k]; try discriminate.
  - now inversion H.
  - cbn [nth_error] in H. cbn [skipn]. now apply IH.
Qed.

Lemma set_fdindex_same (buf : MessageBuffer) : set_fdindex buf (fdindex buf) = buf.
Proof. now destruct buf. Qed.

Section SequenceFacts.

Variable byteOrder : ByteOrder.

(** X19: descriptors come out in list order.  [n] descriptor decodes in a
    row hand out the next [n] unconsumed descriptors, in order, and move the
    index by [n]; when fewer than [n] are left, all of them are handed out
    and the call after the last one fails with the underflow error. *)
Theorem decode_files_order (n : nat) :
  forall buf : MessageBuffer,
    fds_wf buf ->
    let unread := skipn (Z.to_nat (fdindex buf)) (fds buf) in
    ((n <= length unread)%nat ->
     decode_files byteOrder buf n
     = (Nil, set_fdindex buf (fdindex buf + Z.of_nat n),
        map os_NewFile (firstn n unread)))
    /\ ((length unread < n)%nat ->
        decode_files byteOrder buf n
        = (Failed ErrNoMoreFds, set_fdindex buf (fdindex buf + len unread),
           map os_NewFile unread)).
Proof.
  induction n as [|n IH]; intros buf Hwf unread.
  - split; [|lia]. intros _. cbn. now rewrite Z.add_0_r, set_fdindex_same.
  - destruct (Z.lt_ge_cases (fdindex buf) (len (fds buf))) as [Hlt|Hge].
    + destruct (Decode_file_next byteOrder buf None Hwf Hlt) as [fd [Hnth Hdec]].
      assert (Hunread : unread = fd :: skipn (S (Z.to_nat (fdindex buf))) (fds buf))
        by (apply nth_error_skipn; exact Hnth).
      set (buf1 := set_fdindex buf (fdindex buf + 1)).
      assert (Hwf1 : fds_wf buf1)
        by (destruct Hwf as [Hw1 Hw2]; split; [cbn [buf1 set_fdindex fdindex]; lia|exact Hw2]).
      assert (Hidx : Z.to_nat (fdindex buf1) = S (Z.to_nat (fdindex buf)))
        by (destruct Hwf; cbn; lia).
      specialize (IH buf1 Hwf1). cbv zeta in IH.
      rewrite Hidx in IH. cbn [fds buf1 set_fdindex] in IH.
      cbn [decode_files]. rewrite Hdec. fold buf1.
      rewrite Hunread. cbn [length firstn map].
      destruct IH as [IHok IHshort]. split.
      * intros Hn. rewrite IHok by lia. cbn [fdindex].
        do 2 f_equal. unfold set_fdindex; cbn. f_equal. lia.
      * intros Hn. rewrite IHshort by lia. cbn [fdindex].
        do 2 f_equal. unfold set_fdindex, len; cbn [length]. cbn. f_equal. lia.
    + assert (Hnil : unread = []).
      { unfold unread. apply skipn_all2. unfold len in Hge. destruct Hwf. lia. }
      cbn [decode_files]. rewrite (Decode_file_underflow byteOrder buf None Hge).
      rewrite Hnil. split; [cbn; lia|].
      intros _. cbn. now rewrite Z.add_0_r, set_fdindex_same.
Qed.

Lemma write_all_flat (vs : list Z) :
  write_all byteOrder vs = flat_map (PutUint32 byteOrder) vs.
Proof.
  unfold write_all.
  assert (H : forall w, fold_left (fun w v => fst (write_uint32 byteOrder w v)) vs w
                        = w ++ flat_map (PutUint32 byteOrder) vs).
  { induction vs as [|v vs' IH]; intros w.
    - cbn. now rewrite app_nil_r.
    - cbn [fold_left flat_map]. rewrite IH. unfold write_uint32. cbn [fst].
      now rewrite app_assoc. }
  apply H.
Qed.

Lemma set_data_set_data (buf : MessageBuffer) (d1 d2 : bytes.Reader) :
  set_data (set_data buf d1) d2 = set_data buf d2.
Proof. reflexivity. Qed.

(** X20: words written in a row are read back in a row: a payload that
    starts with what successive calls of [write] produced for the [uint32]
    values [vs] decodes, call after call, to [vs], the cursor ending
    [4 * length vs] bytes further. *)
Theorem decode_uint32s_roundtrip (vs : list Z) :
  forall (buf : MessageBuffer) (tail : list byte),
    Forall (fun v => 0 <= v < 2 ^ 32) vs ->
    bytes.rest (data buf) = write_all byteOrder vs ++ tail ->
    decode_uint32s byteOrder buf (length vs)
    = (Nil, set_data buf (bytes.advance (data buf) (4 * length vs)), vs).
Proof.
  induction vs as [|v vs' IH]; intros buf tail Hall Hrest.
  - cbn. now rewrite advance_0, set_data_same.
  - inversion Hall as [|v' l' Hv Hvs]; subst.
    rewrite write_all_flat in Hrest. cbn [flat_map] in Hrest.
    rewrite <- app_assoc in Hrest.
    assert (Hdec : Decode byteOrder buf (VUint32 0)
                   = (Nil, set_data buf (bytes.advance (data buf) 4), VUint32 v)).
    { unfold Decode.
      rewrite (read_uint32_enough byteOrder _ _ _ Hrest (length_PutUint32 _ _)).
      rewrite Uint32_PutUint32, uint32_small by exact Hv. reflexivity. }
    cbn [length decode_uint32s]. rewrite Hdec.
    set (buf1 := set_data buf (bytes.advance (data buf) 4)).
    assert (Hrest1 : bytes.rest (data buf1) = write_all byteOrder vs' ++ tail).
    { cbn [buf1 data set_data]. rewrite rest_advance, Hrest, write_all_flat.
      rewrite <- (length_PutUint32 byteOrder v). apply skipn_prefix. }
    rewrite (IH buf1 tail Hvs Hrest1).
    unfold buf1. rewrite set_data_set_data. cbn [data set_data].
    rewrite advance_advance.
    replace (4 + 4 * length vs')%nat with (4 * length (v :: vs'))%nat
      by (cbn [length]; lia).
    reflexivity.
Qed.

End SequenceFacts.

(** ** Byte arrays, by destination, and the errors of a decode *)

Lemma ReadFull_errors (r : bytes.Reader) (n : nat) :
  let '(_, err, _) := io.ReadFull r n in
  err = None \/ err = Some EOF \/ err = Some ErrUnexpectedEOF.
Proof.
  unfold io.ReadFull. destruct n as [|n]; [now left|].
  unfold bytes.Read at 1.
  destruct (length (bytes.s r) <=? bytes.i r)%nat.
  - unfold io.ReadAtLeast_err. cbn. right. now left.
  - destruct (S n <=? length (firstn (S n) (bytes.rest r)))%nat eqn:Hfit; [now left|].
    unfold bytes.Read.
    destruct (length (bytes.s (bytes.advance r (length (firstn (S n) (bytes.rest r)))))
              <=? bytes.i (bytes.advance r (length (firstn (S n) (bytes.rest r)))))%nat.
    + unfold io.ReadAtLeast_err. rewrite app_nil_r, Hfit.
      destruct (firstn (S n) (bytes.rest r)); right; [now left|now right].
    + unfold io.ReadAtLeast_err. cbv beta iota zeta.
      clear Hfit. left.
      match goal with |- (if ?c then _ else _) = _ => destruct c end; [reflexivity|].
      now destruct (_ ++ _).
Qed.

Lemma CopyN_errors (r : bytes.Reader) (n : Z) :
  let '(_, err, _) := io.CopyN r n in err = None \/ err = Some EOF.
Proof.
  unfold io.CopyN. cbv zeta.
  destruct (len _ =? n); [now left|].
  destruct (len _ <? n); [now right|now left].
Qed.

Section OutcomeFacts.

Variable byteOrder : ByteOrder.

Lemma read_uint32_errors (r : bytes.Reader) :
  let '(x, _) := read_uint32 byteOrder r in
  match x with
  | inl _ => True
  | inr e => e = EOF \/ e = ErrUnexpectedEOF
  end.
Proof.
  unfold read_uint32. pose proof (ReadFull_errors r 4) as H.
  destruct (io.ReadFull r 4) as [[bs err] r'].
  destruct err as [e|]; [|exact I].
  destruct H as [H|[H|H]]; [discriminate|left|right]; congruence.
Qed.

(** X21: a byte-array decode, by the destination the caller hands in.
    With the length [L] read and [want = uint32(L + L % 4)]: a destination
    shorter than [want] panics in [slices.Grow]; a longer or equal one is
    filled whole, so the decode consumes as many bytes as the destination
    is long and keeps the first [L] of them (it panics on the final reslice
    when [L] exceeds the capacity, which takes a wrapped [want]); and when
    the payload ends before the destination is full the decode fails with
    EOF or ErrUnexpectedEOF, the cursor at the end and the front of the
    destination already overwritten. *)
Theorem Decode_bytes_cases (buf : MessageBuffer) (b : ByteSlice)
      (prefix more : list byte) :
  bytes.rest (data buf) = prefix ++ more ->
  length prefix = 4%nat ->
  let L := Uint32 byteOrder prefix in
  let want := GoInt.uint32 (L + L mod 4) in
  let n := length (elems b) in
  let after k := set_data buf (bytes.advance (data buf) (4 + k)) in
  (len (elems b) < want ->
   Decode byteOrder buf (VBytes b) = (Panicked GrowNegative, after O, VBytes b))
  /\ (want <= len (elems b) -> (n <= length more)%nat ->
      let whole := firstn n more ++ spare b in
      Decode byteOrder buf (VBytes b)
      = if L <=? cap b
        then (Nil, after n,
              VBytes (mkSlice (firstn (Z.to_nat L) whole) (skipn (Z.to_nat L) whole)))
        else (Panicked (SliceBoundsOutOfRange L (cap b)), after n,
              VBytes (mkSlice (firstn n more) (spare b))))
  /\ (want <= len (elems b) -> (length more < n)%nat ->
      Decode byteOrder buf (VBytes b)
      = (Failed (match more with [] => EOF | _ => ErrUnexpectedEOF end),
         after (length more), VBytes (fill b more))).
Proof.
  intros Hrest Hlen L want n after.
  pose proof (Decode_bytes_unfold byteOrder buf b prefix more Hrest Hlen) as Hun.
  cbv zeta in Hun. fold L in Hun. fold want in Hun.
  assert (Hd : bytes.rest (bytes.advance (data buf) 4) = more).
  { rewrite rest_advance, Hrest, <- Hlen. apply skipn_prefix. }
  assert (HL : 0 <= L < 2 ^ 32) by (apply Uint32_range; exact Hlen).
  split; [|split].
  - intros Hshort. rewrite Hun.
    apply Z.ltb_lt in Hshort. rewrite Hshort. reflexivity.
  - intros Hfit Hn whole. rewrite Hun.
    assert (Hge : (len (elems b) <? want) = false) by (apply Z.ltb_ge; lia).
    rewrite Hge.
    assert (Hsplit : bytes.rest (bytes.advance (data buf) 4)
                     = firstn n more ++ skipn n more)
      by (now rewrite firstn_skipn).
    assert (Hfn : length (firstn n more) = n) by (rewrite length_firstn; lia).
    fold n. rewrite <- Hfn at 1.
    rewrite (ReadFull_enough _ _ _ Hsplit), advance_advance, Hfn.
    assert (Hfill : fill b (firstn n more) = mkSlice (firstn n more) (spare b)).
    { unfold fill. rewrite Hfn. unfold n. rewrite skipn_all, app_nil_r. reflexivity. }
    rewrite Hfill. unfold reslice, cap. cbn [elems spare].
    unfold len. rewrite Hfn. fold n.
    assert (H0 : (0 <=? L) = true) by (apply Z.leb_le; lia).
    rewrite H0. cbn [andb].
    destruct (L <=? Z.of_nat n + Z.of_nat (length (spare b))); reflexivity.
  - intros Hfit Hn. rewrite Hun.
    assert (Hge : (len (elems b) <? want) = false) by (apply Z.ltb_ge; lia).
    rewrite Hge. fold n.
    destruct more as [|m more'].
    + rewrite (ReadFull_exhausted _ n Hd) by (cbn [length] in Hn; lia).
      unfold after. cbn [length]. rewrite Nat.add_0_r. reflexivity.
    + assert (Hne : bytes.rest (bytes.advance (data buf) 4) <> [])
        by (rewrite Hd; discriminate).
      rewrite (ReadFull_partial _ n Hne) by (rewrite Hd; exact Hn).
      rewrite advance_advance, Hd. reflexivity.
Qed.

(** X22: the errors of a decode.  The only errors [Decode] returns are
    EOF and ErrUnexpectedEOF (the payload ran out), the missing terminator
    of a string and the descriptor underflow; a decode of an [int32], a
    [uint32] or a [Fixed] never panics; and a decode that does not succeed
    leaves the target as it was, unless the target is a byte array. *)
Theorem Decode_outcomes (buf : MessageBuffer) (val : value) :
  let '(out, _, val') := Decode byteOrder buf val in
  (forall e, out = Failed e ->
     e = EOF \/ e = ErrUnexpectedEOF
     \/ (e = ErrNotNullTerminated /\ exists old, val = VString old)
     \/ (e = ErrNoMoreFds /\ exists f, val = VFile f))
  /\ match val with
     | VInt32 _ | VUint32 _ | VFixed _ => exists err, out = Returned err
     | _ => True
     end
  /\ (out <> Nil ->
      match val with VBytes _ => True | _ => val' = val end).
Proof.
  destruct val as [v|v|v|v|b|f|v|elem v]; unfold Decode, read_int32.
  - pose proof (read_uint32_errors (data buf)) as H.
    destruct (read_uint32 byteOrder (data buf)) as [[w|e] d].
    + split; [intros e He; discriminate|]. split; [now eexists|]. now intros Hn.
    + split; [intros e' He; inversion He; subst e'; destruct H; auto|].
      split; [now eexists|reflexivity].
  - pose proof (read_uint32_errors (data buf)) as H.
    destruct (read_uint32 byteOrder (data buf)) as [[w|e] d].
    + split; [intros e He; discriminate|]. split; [now eexists|]. now intros Hn.
    + split; [intros e' He; inversion He; subst e'; destruct H; auto|].
      split; [now eexists|reflexivity].
  - pose proof (read_uint32_errors (data buf)) as H.
    destruct (read_uint32 byteOrder (data buf)) as [[w|e] d].
    + split; [intros e He; discriminate|]. split; [now eexists|]. now intros Hn.
    + split; [intros e' He; inversion He; subst e'; destruct H; auto|].
      split; [now eexists|reflexivity].
  - pose proof (read_uint32_errors (data buf)) as H.
    destruct (read_uint32 byteOrder (data buf)) as [[w|e] d].
    + pose proof (CopyN_errors d (GoInt.uint32 (w + w mod (32 / 8)))) as H2.
      destruct (io.CopyN d (GoInt.uint32 (w + w mod (32 / 8)))) as [[str err] d'].
      destruct err as [e|].
      * split; [|split; [exact I|reflexivity]].
        intros e' He. inversion He; subst e'.
        destruct H2 as [H2|H2]; [discriminate|]. left. congruence.
      * cbv zeta.
        destruct (len str <=? GoInt.uint32 (w - 1)).
        { split; [intros e He; discriminate|]. split; [exact I|reflexivity]. }
        destruct (Byte.eqb _ _).
        { split; [intros e He; discriminate|]. split; [exact I|]. now intros Hn. }
        split; [|split; [exact I|reflexivity]].
        intros e He. inversion He; subst e. right. right. left.
        split; [reflexivity|now exists v].
    + split; [intros e' He; inversion He; subst e'; destruct H; auto|].
      split; [exact I|reflexivity].
  - pose proof (read_uint32_errors (data buf)) as H.
    destruct (read_uint32 byteOrder (data buf)) as [[w|e] d].
    + cbv zeta.
      destruct (len (elems b) <? GoInt.uint32 (w + w mod (32 / 8))).
      { split; [intros e He; discriminate|]. split; [exact I|intros _; exact I]. }
      pose proof (ReadFull_errors d (length (elems b))) as H2.
      destruct (io.ReadFull d (length (elems b))) as [[got err] d'].
      destruct err as [e|].
      * split; [|split; [exact I|intros _; exact I]].
        intros e' He. inversion He; subst e'.
        destruct H2 as [H2|[H2|H2]]; [discriminate|left|right; left]; congruence.
      * destruct (reslice (fill b got) w);
          (split; [intros e He; discriminate|]; split; [exact I|intros _; exact I]).
    + split; [intros e' He; inversion He; subst e'; destruct H; auto|].
      split; [exact I|intros _; exact I].
  - destruct (fdindex buf >=? len (fds buf)).
    + split; [|split; [exact I|reflexivity]].
      intros e He. inversion He; subst e. right. right. right.
      split; [reflexivity|now exists f].
    + destruct (if fdindex buf <? 0 then None
                else nth_error (fds buf) (Z.to_nat (fdindex buf))).
      * split; [intros e He; discriminate|]. split; [exact I|]. now intros Hn.
      * split; [intros e He; discriminate|]. split; [exact I|reflexivity].
  - split; [intros e He; discriminate|]. split; [exact I|reflexivity].
  - split; [intros e He; discriminate|]. split; [exact I|reflexivity].
Qed.

End OutcomeFacts.

(** * Instances *)

(** [Decode_string_rule] at [hello_message]: prefix 5, the six bytes of the
    field, and the rest of the payload. *)
Lemma Decode_string_rule_witness :
  let '(out, buf', v) := Decode LittleEndian hello_message (VString []) in
  consumed hello_message buf' = 4 + 5 + 1
  /\ out = Nil
  /\ v = VString [x68; x65; x6c; x6c].
Proof.
  destruct (Decode_string_rule LittleEndian hello_message []
              [x05; x00; x00; x00] eq_refl) as [H _].
  specialize (H [x68; x65; x6c; x6c; x00; x00] [x00; x00; x2a; x00; x00; x00]
                eq_refl).
  assert (H1 : 1 <= Uint32 LittleEndian [x05; x00; x00; x00]) by (vm_compute; discriminate).
  assert (H2 : Uint32 LittleEndian [x05; x00; x00; x00]
               + Uint32 LittleEndian [x05; x00; x00; x00] mod 4 < 2 ^ 32)
    by (vm_compute; reflexivity).
  specialize (H H1 H2 eq_refl).
  destruct (Decode LittleEndian hello_message (VString [])) as [[out buf'] v].
  destruct H as [Hc [_ [_ Hok]]].
  destruct (Hok eq_refl) as [Hout Hv].
  split; [exact Hc|]. split; [exact Hout|exact Hv].
Defined.

Lemma two_fd_message_wf : fds_wf two_fd_message.
Proof. split; vm_compute; discriminate. Defined.

Lemma Decode_file_order_witness :
  exists fd,
    nth_error (fds two_fd_message) (Z.to_nat (fdindex two_fd_message)) = Some fd
    /\ Decode LittleEndian two_fd_message (VFile None)
       = (Nil, set_fdindex two_fd_message (fdindex two_fd_message + 1),
          VFile (os_NewFile fd)).
Proof.
  destruct (Decode_file_order LittleEndian) as [_ H].
  destruct (H two_fd_message None two_fd_message_wf) as [Hnext _].
  apply Hnext. vm_compute. reflexivity.
Defined.

Lemma Decode_file_frame_witness :
  let '(out, buf', v) := Decode LittleEndian two_fd_message (VFile None) in
  (out = Nil \/ out = Failed ErrNoMoreFds)
  /\ (out = Nil ->
      bytes.i (data buf') = bytes.i (data two_fd_message)
      /\ bytes.s (data buf') = bytes.s (data two_fd_message)
      /\ sender buf' = sender two_fd_message
      /\ op buf' = op two_fd_message
      /\ size buf' = size two_fd_message
      /\ fds buf' = fds two_fd_message
      /\ fdindex buf' = fdindex two_fd_message + 1)
  /\ (out = Failed ErrNoMoreFds -> buf' = two_fd_message /\ v = VFile None).
Proof.
  exact (Decode_file_frame LittleEndian two_fd_message None two_fd_message_wf).
Defined.

Lemma FixedInt_parts_witness :
  Int (FixedInt (-3)) = -3 /\ Frac (FixedInt (-3)) = 0.
Proof.
  assert (H : - 2 ^ 23 <= -3 < 2 ^ 23) by lia.
  destruct (FixedInt_parts (-3) H) as [Hi [Hf _]].
  split; [exact Hi|exact Hf].
Defined.

Lemma ReadMessage_accepts_undersized_header_witness :
  exists mr conn',
    ReadMessage LittleEndian unit (fun _ => inl []) (fun _ => inl [])
      undersized_stream = (inl mr, conn')
    /\ Size mr < 8.
Proof.
  destruct (ReadMessage_accepts_undersized_header unit
              (fun _ => inl []) (fun _ => inl []) eq_refl)
    as [mr [conn' [Hread [_ [Hsmall _]]]]].
  exists mr, conn'. split; [exact Hread|exact Hsmall].
Defined.

Lemma FixedFloat_truncates_witness :
  FixedFloat three_and_three_quarters = 3 * 256 + 192.
Proof.
  assert (Hrange : GoInt.MinInt <= Qtrunc (float64.value three_and_three_quarters)
                   <= GoInt.MaxInt)
    by (vm_compute; split; discriminate).
  destruct (FixedFloat_truncates three_and_three_quarters eq_refl eq_refl Hrange)
    as [_ [_ [_ H]]].
  rewrite H. vm_compute. reflexivity.
Defined.

Lemma Decode_scalar_witness :
  Decode LittleEndian hello_message (VUint32 0)
  = (Nil, set_data hello_message (bytes.advance (data hello_message) 4), VUint32 5).
Proof.
  destruct (Decode_scalar LittleEndian hello_message [x05; x00; x00; x00]
              [x68; x65; x6c; x6c; x00; x00; x00; x00; x2a; x00; x00; x00] 0
              eq_refl eq_refl) as [H _].
  exact H.
Defined.

Lemma Decode_write_roundtrip_witness :
  Decode LittleEndian answer_message (VUint32 0)
  = (Nil, set_data answer_message (bytes.advance (data answer_message) 4), VUint32 42).
Proof.
  destruct (Decode_write_roundtrip LittleEndian answer_message [] 0) as [H _].
  apply (H 42); [lia|reflexivity].
Defined.

Lemma Decode_short_payload_witness :
  Decode LittleEndian two_byte_message (VUint32 0)
  = (Failed ErrUnexpectedEOF,
     set_data two_byte_message (bytes.advance (data two_byte_message) 2),
     VUint32 0).
Proof.
  assert (Hlen : (length (bytes.rest (data two_byte_message)) < 4)%nat)
    by (vm_compute; lia).
  destruct (Decode_short_payload LittleEndian two_byte_message (VUint32 0) Hlen I)
    as [_ H].
  assert (Hne : bytes.rest (data two_byte_message) <> []) by (vm_compute; discriminate).
  destruct (H Hne) as [H' _]. exact H'.
Defined.

Lemma Decode_string_panics_iff_witness :
  exists p, fst (fst (Decode LittleEndian empty_sequence_message (VString []))) = Panicked p.
Proof.
  destruct (Decode_string_panics_iff LittleEndian empty_sequence_message []
              [x00; x00; x00; x00] [] eq_refl eq_refl) as [[_ H] _].
  apply H. split; [vm_compute; discriminate|left; reflexivity].
Defined.

Lemma Fixed_parts_witness : Int (-1) = -1 /\ Frac (-1) = 255.
Proof.
  assert (H : - 2 ^ 31 <= -1 < 2 ^ 31) by lia.
  destruct (Fixed_parts (-1) H) as [_ [_ [_ [Hi Hf]]]].
  split; [rewrite Hi|rewrite Hf]; reflexivity.
Defined.

Lemma Float_exact_witness : (float64.value (Float 384%Z) == 3 # 2)%Q.
Proof.
  assert (H : - 2 ^ 31 <= 384 < 2 ^ 31) by lia.
  destruct (Float_exact 384 H) as [Hv _].
  rewrite Hv. reflexivity.
Defined.

Lemma FixedFloat_Float_witness :
  FixedFloat (Float 384) = 384 /\ FixedFloat (Float (-384)) = -384 + 2 * 128.
Proof.
  assert (H1 : - 2 ^ 31 <= 384 < 2 ^ 31) by lia.
  assert (H2 : - 2 ^ 31 <= -384 < 2 ^ 31) by lia.
  destruct (FixedFloat_Float 384 H1) as [Ha _].
  destruct (FixedFloat_Float (-384) H2) as [Hb _].
  split; [exact Ha|exact Hb].
Defined.

Lemma FixedFloat_of_int_witness : FixedFloat (float64.of_int (-7)) = FixedInt (-7).
Proof. apply FixedFloat_of_int. vm_compute. reflexivity. Defined.

Lemma FixedFloat_small_ignores_sign_witness :
  FixedFloat (SFopp three_tenths) = FixedFloat three_tenths.
Proof.
  assert (H : (Qabs (float64.value three_tenths) < 1)%Q) by (vm_compute; reflexivity).
  destruct (FixedFloat_small_ignores_sign three_tenths eq_refl eq_refl H) as [Heq _].
  exact Heq.
Defined.


Lemma ReadMessage_frames_witness :
  exists mr conn',
    ReadMessage LittleEndian unit (fun _ => inl []) (fun _ => inl []) split_stream
    = (inl mr, conn')
    /\ sender mr = 1 /\ size mr = 12 /\ op mr = 3
    /\ stream conn' = [xff].
Proof.
  pose (mr := mkMessageBuffer 1 3 12 (bytes.Reset [x2a; x00; x00; x00]) [] 0).
  pose (conn' := [mkPacket [xff] []]).
  assert (Hread : ReadMessage LittleEndian unit (fun _ => inl []) (fun _ => inl [])
                    split_stream = (inl mr, conn')) by reflexivity.
  exists mr, conn'. split; [exact Hread|].
  destruct (ReadMessage_frames LittleEndian unit (fun _ => inl []) (fun _ => inl [])
              split_stream conn' mr Hread)
    as [_ [Hs [_ [_ [_ [_ [_ [_ Hrest]]]]]]]].
  split; [exact Hs|]. split; [reflexivity|]. split; [reflexivity|exact Hrest].
Defined.

Lemma ReadMessage_truncated_witness :
  fst (ReadMessage LittleEndian unit (fun _ => inl []) (fun _ => inl []) cut_stream)
  = inr (Wrapped "read message sender"%string (Joined [OpError EOF])).
Proof.
  destruct (ReadMessage_truncated LittleEndian unit (fun _ => inl []) (fun _ => inl [])
              cut_stream) as [H _].
  apply H. vm_compute. lia.
Defined.

Lemma split_stream_no_control : no_control split_stream.
Proof. repeat constructor. Defined.

Lemma ReadMessage_wire_message_witness :
  exists conn' : UnixConn,
    ReadMessage LittleEndian unit (fun _ => inl []) (fun _ => inl []) split_stream
    = (inl (mkMessageBuffer 1 3 12 (bytes.Reset [x2a; x00; x00; x00]) [] 0), conn')
    /\ stream conn' = [xff].
Proof.
  assert (H1 : 0 <= 1 < 2 ^ 32) by lia.
  assert (H2 : 0 <= 3 < 2 ^ 16) by lia.
  assert (H3 : 8 + len [x2a; x00; x00; x00] < 2 ^ 16) by (vm_compute; reflexivity).
  exact (ReadMessage_wire_message LittleEndian unit (fun _ => inl []) (fun _ => inl [])
           split_stream 1 3 [x2a; x00; x00; x00] [xff]
           eq_refl split_stream_no_control H1 H2 H3 eq_refl).
Defined.

Lemma collect_fds_order_witness :
  collect_fds Z sample_rights [7; -1; 9] [] = inl [7; 9].
Proof.
  destruct (collect_fds_order Z sample_rights [7; -1; 9] []) as [H _].
  apply H. repeat constructor.
Defined.

Lemma decode_files_order_witness :
  decode_files LittleEndian two_fd_message 1
  = (Nil, set_fdindex two_fd_message 2, [os_NewFile 9]).
Proof.
  destruct (decode_files_order LittleEndian 1 two_fd_message two_fd_message_wf)
    as [H _].
  apply H. vm_compute. lia.
Defined.

Lemma decode_uint32s_roundtrip_witness :
  decode_uint32s LittleEndian two_word_message 2
  = (Nil, set_data two_word_message (bytes.advance (data two_word_message) 8), [1; 42]).
Proof.
  apply (decode_uint32s_roundtrip LittleEndian [1; 42] two_word_message []).
  - repeat constructor; lia.
  - reflexivity.
Defined.

Lemma Decode_bytes_cases_witness :
  Decode LittleEndian one_byte_array_message
    (VBytes (mkSlice [x00; x00; x00; x00; x00; x00; x00; x00] []))
  = (Nil,
     set_data one_byte_array_message
       (bytes.advance (data one_byte_array_message) 12),
     VBytes (mkSlice [x41] [x00; x0a; x0b; x0c; x0d; x0e; x0f])).
Proof.
  destruct (Decode_bytes_cases LittleEndian one_byte_array_message
              (mkSlice [x00; x00; x00; x00; x00; x00; x00; x00] [])
              [x01; x00; x00; x00] [x41; x00; x0a; x0b; x0c; x0d; x0e; x0f]
              eq_refl eq_refl) as [_ [H _]].
  assert (H1 : GoInt.uint32 (Uint32 LittleEndian [x01; x00; x00; x00]
                             + Uint32 LittleEndian [x01; x00; x00; x00] mod 4)
               <= len (elems (mkSlice [x00; x00; x00; x00; x00; x00; x00; x00] [])))
    by (vm_compute; discriminate).
  assert (H2 : (length (elems (mkSlice [x00; x00; x00; x00; x00; x00; x00; x00] []))
                <= length [x41; x00; x0a; x0b; x0c; x0d; x0e; x0f])%nat)
    by (vm_compute; lia).
  exact (H H1 H2).
Defined.

Lemma Decode_cursor_witness :
  let '(_, buf', _) := Decode LittleEndian hello_message (VString []) in
  (bytes.i (data buf') <= length (bytes.s (data buf')))%nat.
Proof.
  pose proof (Decode_cursor LittleEndian hello_message (VString [])) as H.
  destruct (Decode LittleEndian hello_message (VString [])) as [[out buf'] v].
  destruct H as [_ H]. apply H. vm_compute. lia.
Defined.

Lemma Decode_outcomes_witness :
  let '(_, _, val') := Decode LittleEndian short_string_message (VString []) in
  val' = VString [].
Proof.
  pose proof (Decode_outcomes LittleEndian short_string_message (VString [])) as H.
  destruct (Decode LittleEndian short_string_message (VString []))
    as [[out buf'] v] eqn:E.
  destruct H as [_ [_ H]]. apply H.
  vm_compute in E. injection E as <- _ _. discriminate.
Defined.
